(** * Conversation analytics of [imessage_stats.py]

    A shallow embedding of the analytics core of [src/imessage_stats.py]
    ([detect_date_scale], [next_opposite_times], [summarize_response_times]
    and [build_report]), of its two timestamp conversions
    ([apple_time_to_datetime] and [datetime_to_apple]) and of the query of
    [load_messages], together with the properties stated about them.

    Conventions of the embedding.
    - Python [int] is [Z]; [Optional[int]] is [option Z]; counters that only
      count upwards from zero are [nat].
    - A finite Python [float] (binary64) is represented by the rational it
      denotes ([Q]); every float operation returns the exact result
      rounded to the nearest binary64, ties to even ([Py.fl]), and raises
      what Python raises ([ZeroDivisionError], [OverflowError]).  The two
      zeros are identified.  An infinity is the number [Py.inf], [2^1024],
      or its opposite: an addition, a multiplication or a division of
      floats whose rounded result reaches it in magnitude overflows and
      returns it, as the sum of the two middle values in
      [statistics.median] can.  NaN is not represented: the threshold and
      the durations given to [summarize_response_times] are taken to be
      finite, and then no operation of the program produces one.
    - Insertion-ordered [dict]s are association lists.
    - An aware [datetime] is its wall clock and its UTC offset, both in
      microseconds, the wall clock counted from 2001-01-01 00:00; the
      database call of [load_messages] is a parameter.
    - Code that may raise runs in the error monad [result]. *)

From Stdlib Require Import ZArith QArith Qround Qabs Qreduction Qpower.
From Stdlib Require Import List Bool String Ascii Lia Arith.
From Stdlib Require Import Sorted Permutation DecimalString.
From Stdlib Require Import Setoid Morphisms Lqa.
Import ListNotations.

Local Open Scope Z_scope.

(** ** Python runtime *)

Module Py.

Inductive exn : Set :=
| ZeroDivisionError
| OverflowError
| IndexError
| StatisticsError.

Inductive result (A : Type) : Type :=
| Ok (a : A)
| Raise (e : exn).
Arguments Ok {A} a.
Arguments Raise {A} e.

Definition bind {A B : Type} (c : result A) (k : A -> result B) : result B :=
  match c with
  | Ok a => k a
  | Raise e => Raise e
  end.

(** [round(x)] to an integer: ties go to the even neighbour. *)
Definition round_half_even (x : Q) : Z :=
  let f := Qfloor x in
  match (x - inject_Z f ?= 1 # 2)%Q with
  | Lt => f
  | Gt => f + 1
  | Eq => if Z.even f then f else f + 1
  end.

(** *** Binary64 rounding *)

Definition pow2 (e : Z) : Q := ((2 # 1) ^ e)%Q.

(** The exponent [e] of the unit in the last place of a positive [q]:
    [2^(52+e) <= q < 2^(53+e)], and [-1074] for the subnormal numbers.
    The difference of the bit lengths is within one of the answer, so the
    last branch is never taken. *)
Definition binade (q : Q) : Z :=
  let e0 := Z.log2 (Qnum q) - Z.log2 (Zpos (Qden q)) - 52 in
  let e1 := if Qle_bool (pow2 (52 + e0)) q then e0
            else if Qle_bool (pow2 (51 + e0)) q then e0 - 1
            else -1074 in
  Z.max e1 (-1074).

(** The binary64 nearest to [x], ties to even: [x] is rounded to a
    multiple of the unit in the last place of its binade.  The exponent
    is not bounded above; a result of [2^1024] or more stands for an
    overflow. *)
Definition fl (x : Q) : Q :=
  let q := Qred x in
  let e := binade (Qabs q) in
  Qred (inject_Z (round_half_even (q / pow2 e)) * pow2 e).

(** Half the relative spacing of the floats, and half the smallest
    subnormal: the bounds of the rounding error. *)
Definition half_ulp : Q := Eval vm_compute in (1 # 2 ^ 53).
Definition tiny : Q := Eval vm_compute in (1 # 2 ^ 1075).

Arguments fl : simpl never.

(** The infinity of the floats, kept as a number: [2^1024], the least
    power of two beyond them.  A result that rounds to it or beyond, the
    exponent of [fl] not being bounded, is an overflow: the operation
    returns [inf], or [- inf]. *)
Definition inf : Q := inject_Z (2 ^ 1024).

Definition overflow (x : Q) : Q :=
  if Qle_bool inf x then inf
  else if Qle_bool x (- inf) then (- inf)%Q
  else x.

(** [x * y] and [x + y] on finite floats, and [x / y] on a float that may
    be an infinity and a finite divisor other than zero (the program
    divides by 60 and by 2): an infinity stays one, with the sign of the
    quotient. *)
Definition float_mul (x y : Q) : Q := overflow (fl (x * y)).
Definition float_add (x y : Q) : Q := overflow (fl (x + y)).
Definition float_div (x y : Q) : Q :=
  if Qle_bool inf (Qabs x) then (if Qle_bool 0 y then x else (- x)%Q)
  else overflow (fl (x / y)).

(** [int / int]: true division, correctly rounded.  It raises
    [ZeroDivisionError] on a zero divisor and [OverflowError] when the
    rounded quotient does not fit a binary64, that is when
    [|a / b| >= 2^1024 - 2^970]. *)
Definition DBL_OVERFLOW : Z := 2 ^ 1024 - 2 ^ 970.

Definition true_div (a b : Z) : result Q :=
  if b =? 0 then Raise ZeroDivisionError
  else if DBL_OVERFLOW * Z.abs b <=? Z.abs a then Raise OverflowError
  else Ok (fl (inject_Z a / inject_Z b)).

(** [round(x, 2)]: the float nearest to the multiple of 1/100 that is
    nearest to [x], ties to even. *)
Definition round2 (x : Q) : Q :=
  fl (inject_Z (round_half_even (x * 100)) / 100).

(** Truthiness of an [Optional[int]]: [None] and [0] are false. *)
Definition truthy_int (v : option Z) : bool :=
  match v with
  | None => false
  | Some z => negb (z =? 0)
  end.

(** Truthiness of an [Optional[str]]: [None] and [""] are false. *)
Definition truthy_str (v : option string) : bool :=
  match v with
  | None => false
  | Some EmptyString => false
  | Some (String _ _) => true
  end.

(** [str(n)] for an integer. *)
Definition str (n : Z) : string := NilZero.string_of_int (Z.to_int n).

(** [sorted(l)] / [l.sort()]: the sort is stable, so its result is the one
    of any stable sort; insertion from the right is used here.  [leb x y]
    says that [x] may stay in front of [y]. *)
Section Sort.
Context {A : Type} (leb : A -> A -> bool).

Fixpoint insert (x : A) (l : list A) : list A :=
  match l with
  | [] => [x]
  | y :: l' => if leb x y then x :: l else y :: insert x l'
  end.

Definition sort (l : list A) : list A := fold_right insert [] l.
End Sort.

(** [l[:stop]] for an integer [stop] (negative values count from the end). *)
Definition slice_to {A : Type} (stop : Z) (l : list A) : list A :=
  let n := Z.of_nat (List.length l) in
  let stop' := if stop <? 0 then Z.max 0 (stop + n) else stop in
  firstn (Z.to_nat stop') l.

(** [l[i]] for an integer [i] (negative values count from the end). *)
Definition index {A : Type} (l : list A) (i : Z) : result A :=
  let n := Z.of_nat (List.length l) in
  let j := if i <? 0 then i + n else i in
  if (j <? 0) || (n <=? j) then Raise IndexError
  else match nth_error l (Z.to_nat j) with
       | Some a => Ok a
       | None => Raise IndexError
       end.

(** [statistics.mean]: the exact sum divided by the length, converted to
    a float at the end. *)
Definition mean (data : list Q) : result Q :=
  match data with
  | [] => Raise StatisticsError
  | _ :: _ =>
      Ok (fl (fold_left Qplus data 0%Q
              / inject_Z (Z.of_nat (List.length data))))
  end.

(** [statistics.median]; the library sorts its argument first.  The sum
    of the two middle values can overflow: the median is then an
    infinity. *)
Definition median (data : list Q) : result Q :=
  let data := sort Qle_bool data in
  let n := Z.of_nat (List.length data) in
  if n =? 0 then Raise StatisticsError
  else if n mod 2 =? 1 then index data (n / 2)
  else
    let i := n / 2 in
    bind (index data (i - 1)) (fun lo =>
    bind (index data i) (fun hi =>
    Ok (float_div (float_add lo hi) 2))).

(** Insertion-ordered dictionaries with integer keys. *)
Section Dict.
Context {V : Type}.

(** [d[k] = v] *)
Fixpoint dict_set (k : Z) (v : V) (d : list (Z * V)) : list (Z * V) :=
  match d with
  | [] => [(k, v)]
  | (k', v') :: d' =>
      if k' =? k then (k', v) :: d' else (k', v') :: dict_set k v d'
  end.

Definition values (d : list (Z * V)) : list V := map snd d.
End Dict.

(** [d.setdefault(k, []).append(x)] *)
Fixpoint setdefault_append {X : Type} (k : Z) (x : X)
    (d : list (Z * list X)) : list (Z * list X) :=
  match d with
  | [] => [(k, [x])]
  | (k', l) :: d' =>
      if k' =? k then (k', l ++ [x]) :: d'
      else (k', l) :: setdefault_append k x d'
  end.

End Py.

Import Py.

Notation "x <- c ;; k" := (Py.bind c (fun x => k))
  (at level 61, c at next level, right associativity).

(** ** Data model *)

Record Message : Set := mkMessage {
  message_id : Z;
  chat_id : Z;
  chat_identifier : string;
  display_name : option string;
  handle : option string;
  date_raw : option Z;
  date_read_raw : option Z;
  is_from_me : Z
}.

(** ** [detect_date_scale] *)

(** The float literals [1e17], [1e14] and [1e11] are integers, and Python
    compares an [int] with a [float] exactly. *)
Definition detect_date_scale (max_date_value : option Z) : Z * string :=
  if negb (truthy_int max_date_value) then (1, "seconds"%string)
  else
    match max_date_value with
    | None => (1, "seconds"%string)
    | Some v =>
        if 10 ^ 17 <? v then (1000000000, "nanoseconds"%string)
        else if 10 ^ 14 <? v then (1000000, "microseconds"%string)
        else if 10 ^ 11 <? v then (1000, "milliseconds"%string)
        else (1, "seconds"%string)
    end.

(** ** [next_opposite_times] *)

(** State of the backward scan after the messages of a suffix have been
    visited: the two result arrays restricted to that suffix and the two
    trackers. *)
Record ScanState : Set := mkScan {
  next_reply_time_raw : list (option Z);
  next_reply_type : list (option Z);
  next_from_me_raw : option Z;
  next_from_them_raw : option Z
}.

Definition scan_step (msg : Message) (s : ScanState) : ScanState :=
  if is_from_me msg =? 1 then
    {| next_reply_time_raw := next_from_them_raw s :: next_reply_time_raw s;
       next_reply_type :=
         (match next_from_them_raw s with Some _ => Some 0 | None => None end)
           :: next_reply_type s;
       next_from_me_raw :=
         match date_raw msg with
         | Some d => Some d
         | None => next_from_me_raw s
         end;
       next_from_them_raw := next_from_them_raw s |}
  else
    {| next_reply_time_raw := next_from_me_raw s :: next_reply_time_raw s;
       next_reply_type :=
         (match next_from_me_raw s with Some _ => Some 1 | None => None end)
           :: next_reply_type s;
       next_from_me_raw := next_from_me_raw s;
       next_from_them_raw :=
         match date_raw msg with
         | Some d => Some d
         | None => next_from_them_raw s
         end |}.

(** The loop runs over the indices from the last to the first, so the state
    at a message is the one left by the messages behind it. *)
Definition scan (messages : list Message) : ScanState :=
  fold_right scan_step (mkScan [] [] None None) messages.

Definition next_opposite_times (messages : list Message) (divisor : Z)
  : list (option Z) * list (option Z) :=
  let s := scan messages in
  (next_reply_time_raw s, next_reply_type s).

(** ** [summarize_response_times] *)

Module Summary.
Record t : Set := mk {
  count : nat;
  avg_minutes : option Q;
  median_minutes : option Q;
  p90_minutes : option Q
}.
End Summary.

(** [max(0, int(round(0.9 * (n - 1))))]: the literal and the integer
    become floats, their product is a float, and [round] takes it to the
    nearest integer, ties to even. *)
Definition p90_index (n : nat) : Z :=
  Z.max 0 (round_half_even
             (float_mul (fl (9 # 10)) (fl (inject_Z (Z.of_nat n - 1))))).

Definition summarize_response_times (durations_minutes : list Q)
  : result Summary.t :=
  match durations_minutes with
  | [] =>
      Ok {| Summary.count := 0;
            Summary.avg_minutes := None;
            Summary.median_minutes := None;
            Summary.p90_minutes := None |}
  | _ :: _ =>
      let sorted_vals := sort Qle_bool durations_minutes in
      let p90_index := p90_index (List.length sorted_vals) in
      avg <- mean sorted_vals ;;
      med <- median sorted_vals ;;
      p90 <- index sorted_vals p90_index ;;
      Ok {| Summary.count := List.length sorted_vals;
            Summary.avg_minutes := Some (round2 avg);
            Summary.median_minutes := Some (round2 med);
            Summary.p90_minutes := Some (round2 p90) |}
  end.

(** ** [build_report] *)

Module Totals.
Record t : Set := mk { sent : nat; received : nat; total : nat }.
End Totals.

Module LeftOnRead.
Record t : Set := mk { you_left_them : nat; they_left_you : nat }.
End LeftOnRead.

Module ResponseTimes.
Record t : Set := mk { you_reply : Summary.t; they_reply : Summary.t }.
End ResponseTimes.

Module Chat.
Record t : Set := mk {
  chat_id : Z;
  chat_identifier : string;
  display_name : option string;
  label : string;
  totals : Totals.t;
  left_on_read : LeftOnRead.t;
  response_times : ResponseTimes.t
}.
End Chat.

Module ReportSummary.
Record t : Set := mk {
  totals : Totals.t;
  left_on_read : LeftOnRead.t;
  response_times : ResponseTimes.t
}.
End ReportSummary.

Module Report.
Record t : Set := mk { summary : ReportSummary.t; chats : list Chat.t }.
End Report.

(** The default of [--top] in [main]. *)
Definition default_top : Z := 20.

(** [messages_by_chat] *)
Definition group_by_chat (messages : list Message)
  : list (Z * list Message) :=
  fold_left (fun d msg => setdefault_append (chat_id msg) msg d) messages [].

(** The variables of the loop over one conversation. *)
Record ChatAcc : Set := mkChatAcc {
  sent : nat;
  received : nat;
  you_left : nat;
  them_left : nat;
  you_reply : list Q;
  them_reply : list Q
}.

Definition count_direction (msg : Message) (a : ChatAcc) : ChatAcc :=
  if is_from_me msg =? 1
  then mkChatAcc (sent a + 1) (received a) (you_left a) (them_left a)
                 (you_reply a) (them_reply a)
  else mkChatAcc (sent a) (received a + 1) (you_left a) (them_left a)
                 (you_reply a) (them_reply a).

Definition append_reply (msg : Message) (minutes : Q) (a : ChatAcc) : ChatAcc :=
  if is_from_me msg =? 1
  then mkChatAcc (sent a) (received a) (you_left a) (them_left a)
                 (you_reply a) (them_reply a ++ [minutes])
  else mkChatAcc (sent a) (received a) (you_left a) (them_left a)
                 (you_reply a ++ [minutes]) (them_reply a).

Definition count_left (msg : Message) (replied_in_time : bool) (a : ChatAcc)
  : ChatAcc :=
  if is_from_me msg =? 1
  then if negb replied_in_time
       then mkChatAcc (sent a) (received a) (you_left a) (them_left a + 1)
                      (you_reply a) (them_reply a)
       else a
  else if negb replied_in_time
       then mkChatAcc (sent a) (received a) (you_left a + 1) (them_left a)
                      (you_reply a) (them_reply a)
       else a.

(** The body of [for idx, msg in enumerate(msgs)], with
    [next_raw = next_times_raw[idx]]. *)
Definition step_message (divisor : Z) (threshold_seconds : Q)
    (a : ChatAcc) (msg : Message) (next_raw : option Z) : result ChatAcc :=
  let a := count_direction msg a in
  (* response times *)
  a <- match next_raw, date_raw msg with
       | Some n, Some d =>
           dt_seconds <- true_div (n - d) divisor ;;
           if Qle_bool 0 dt_seconds
           then let minutes := float_div dt_seconds 60 in
                Ok (append_reply msg minutes a)
           else Ok a
       | _, _ => Ok a
       end ;;
  (* left on read checks *)
  let date_read_raw :=
    if truthy_int (date_read_raw msg) then date_read_raw msg else None in
  match date_read_raw, date_raw msg with
  | Some base_raw, Some _ =>
      replied_in_time <-
        match next_raw with
        | Some n =>
            dt_seconds <- true_div (n - base_raw) divisor ;;
            Ok (Qle_bool 0 dt_seconds && Qle_bool dt_seconds threshold_seconds)
        | None => Ok false
        end ;;
      Ok (count_left msg replied_in_time a)
  | _, _ => Ok a
  end.

Fixpoint chat_loop (divisor : Z) (threshold_seconds : Q) (a : ChatAcc)
    (msgs : list Message) (next_times_raw : list (option Z))
  : result ChatAcc :=
  match msgs with
  | [] => Ok a
  | msg :: msgs' =>
      match next_times_raw with
      | [] => Raise IndexError
      | next_raw :: rest =>
          a' <- step_message divisor threshold_seconds a msg next_raw ;;
          chat_loop divisor threshold_seconds a' msgs' rest
      end
  end.

Definition analyze_chat (divisor : Z) (threshold_seconds : Q)
    (msgs : list Message) : result ChatAcc :=
  let next_times_raw := fst (next_opposite_times msgs divisor) in
  chat_loop divisor threshold_seconds (mkChatAcc 0 0 0 0 [] []) msgs
            next_times_raw.

(** The variables of the loop over the conversations. *)
Record ReportAcc : Set := mkReportAcc {
  totals_sent : nat;
  totals_received : nat;
  left_on_read_you : nat;
  left_on_read_them : nat;
  you_reply_minutes : list Q;
  them_reply_minutes : list Q;
  chats : list (Z * Chat.t)
}.

Definition chat_label (chat_id : Z) (msgs : list Message)
  : option string * string * string :=
  let display_name :=
    match msgs with m :: _ => display_name m | [] => None end in
  let identifier :=
    match msgs with m :: _ => chat_identifier m | [] => str chat_id end in
  let label :=
    if truthy_str display_name
    then match display_name with Some s => s | None => EmptyString end
    else identifier in
  (display_name, identifier, label).

(** The dictionary stored for one conversation. *)
Definition chat_dict (chat_id : Z) (msgs : list Message) (a : ChatAcc)
    (you they : Summary.t) : Chat.t :=
  let '(display_name, identifier, label) := chat_label chat_id msgs in
  {| Chat.chat_id := chat_id;
     Chat.chat_identifier := identifier;
     Chat.display_name := display_name;
     Chat.label := label;
     Chat.totals := Totals.mk (sent a) (received a) (sent a + received a);
     Chat.left_on_read := LeftOnRead.mk (you_left a) (them_left a);
     Chat.response_times := ResponseTimes.mk you they |}.

(** The body of [for chat_id, msgs in messages_by_chat.items()]. *)
Definition step_chat (divisor : Z) (threshold_seconds : Q)
    (r : ReportAcc) (item : Z * list Message) : result ReportAcc :=
  let '(chat_id, msgs) := item in
  a <- analyze_chat divisor threshold_seconds msgs ;;
  you <- summarize_response_times (you_reply a) ;;
  they <- summarize_response_times (them_reply a) ;;
  Ok {| totals_sent := totals_sent r + sent a;
        totals_received := totals_received r + received a;
        left_on_read_you := left_on_read_you r + you_left a;
        left_on_read_them := left_on_read_them r + them_left a;
        you_reply_minutes := you_reply_minutes r ++ you_reply a;
        them_reply_minutes := them_reply_minutes r ++ them_reply a;
        chats := dict_set chat_id (chat_dict chat_id msgs a you they)
                          (chats r) |}.

Fixpoint chats_loop (divisor : Z) (threshold_seconds : Q) (r : ReportAcc)
    (items : list (Z * list Message)) : result ReportAcc :=
  match items with
  | [] => Ok r
  | item :: items' =>
      r' <- step_chat divisor threshold_seconds r item ;;
      chats_loop divisor threshold_seconds r' items'
  end.

(** [chat_list.sort(key=lambda c: c["totals"]["total"], reverse=True)]: a
    stable sort in which the larger total goes first. *)
Definition total_geb (c1 c2 : Chat.t) : bool :=
  (Totals.total (Chat.totals c2) <=? Totals.total (Chat.totals c1))%nat.

Definition build_report (messages : list Message) (divisor : Z)
    (threshold_hours : Q) (top : Z) : result Report.t :=
  let threshold_seconds := float_mul threshold_hours 3600 in
  let messages_by_chat := group_by_chat messages in
  r <- chats_loop divisor threshold_seconds
         (mkReportAcc 0 0 0 0 [] [] []) messages_by_chat ;;
  let chat_list := sort total_geb (values (chats r)) in
  you <- summarize_response_times (you_reply_minutes r) ;;
  they <- summarize_response_times (them_reply_minutes r) ;;
  Ok {| Report.summary :=
          {| ReportSummary.totals :=
               Totals.mk (totals_sent r) (totals_received r)
                         (totals_sent r + totals_received r);
             ReportSummary.left_on_read :=
               LeftOnRead.mk (left_on_read_you r) (left_on_read_them r);
             ReportSummary.response_times := ResponseTimes.mk you they |};
        Report.chats := slice_to top chat_list |}.

(** ** Vocabulary of the properties *)

(** A message is from me when its flag is [1]; anything else is from them. *)
Definition from_me (m : Message) : bool := is_from_me m =? 1.

(** The signal of message [i]: the pair of entries of the two arrays. *)
Definition reply_signal (messages : list Message) (divisor : Z) (i : nat)
  : option (option Z * option Z) :=
  let '(times, types) := next_opposite_times messages divisor in
  match nth_error times i, nth_error types i with
  | Some t, Some ty => Some (t, ty)
  | _, _ => None
  end.

(** The direction code of the array [next_reply_type]: [1] is a message
    from me, [0] a message from them. *)
Definition direction_code (me : bool) : Z := if me then 1 else 0.

(** The send timestamp of the first message of direction [me] that has one. *)
Fixpoint first_date (me : bool) (l : list Message) : option Z :=
  match l with
  | [] => None
  | m :: l' =>
      if Bool.eqb (from_me m) me
      then match date_raw m with
           | Some d => Some d
           | None => first_date me l'
           end
      else first_date me l'
  end.

(** The send timestamps that are present, in sequence order. *)
Definition timestamps (l : list Message) : list Z :=
  flat_map (fun m => match date_raw m with Some d => [d] | None => [] end) l.

Fixpoint sortedb (l : list Z) : bool :=
  match l with
  | [] => true
  | x :: l' =>
      match l' with
      | [] => true
      | y :: _ => (x <=? y) && sortedb l'
      end
  end.

(** A conversation is chronological when its send timestamps never
    decrease along the sequence. *)
Definition chronological (l : list Message) : Prop :=
  sortedb (timestamps l) = true.

(** The exact sum of a list of durations. *)
Definition Qsum (l : list Q) : Q := fold_right Qplus 0%Q l.

(** [med] is the median of the sorted list [s]: its middle element, or the
    mean of its two middle elements when the length is even. *)
Definition is_median (s : list Q) (med : Q) : Prop :=
  let n := List.length s in
  if Nat.odd n then nth_error s (n / 2) = Some med
  else exists lo hi,
      nth_error s (n / 2 - 1) = Some lo /\ nth_error s (n / 2) = Some hi /\
      med = float_div (float_add lo hi) 2.

(** The conversation identifiers in the order of their first occurrence. *)
Fixpoint first_seen (ids : list Z) : list Z :=
  match ids with
  | [] => []
  | k :: rest => k :: filter (fun k' => negb (k' =? k)) (first_seen rest)
  end.

(** The messages of conversation [k], in input order. *)
Definition conversation (k : Z) (messages : list Message) : list Message :=
  filter (fun m => chat_id m =? k) messages.

(** ** Well-formed input *)

(** Raw timestamps are the values of SQLite [INTEGER] columns. *)
Definition sqlite_int (v : option Z) : bool :=
  match v with
  | None => true
  | Some z => (- 2 ^ 63 <=? z) && (z <? 2 ^ 63)
  end.

Definition wf_message (m : Message) : bool :=
  sqlite_int (date_raw m) && sqlite_int (date_read_raw m).

(** The divisor is never zero (it comes from [detect_date_scale]) and the
    timestamps, where present, are SQLite integers. *)
Definition well_formed (messages : list Message) (divisor : Z) : Prop :=
  divisor <> 0 /\ forallb wf_message messages = true.

(** ** The rules in the words of the specification *)

(** Seconds from [earlier] to [later], as the float the code computes. *)
Definition delta_seconds (divisor later earlier : Z) : Q :=
  fl (inject_Z (later - earlier) / inject_Z divisor).

(** A reply exists and comes within the threshold after the read. *)
Definition replied_within (divisor : Z) (threshold_hours : Q)
    (read_at : Z) (next_raw : option Z) : Prop :=
  exists n, next_raw = Some n /\
    (0 <= delta_seconds divisor n read_at)%Q /\
    (delta_seconds divisor n read_at <= float_mul threshold_hours 3600)%Q.

(** The rule of C2 as the specification words it: the read timestamp is
    present and not zero and no reply came in time. *)
Definition left_on_read_as_specified (divisor : Z) (threshold_hours : Q)
    (m : Message) (next_raw : option Z) : Prop :=
  exists r, date_read_raw m = Some r /\ r <> 0 /\
    ~ replied_within divisor threshold_hours r next_raw.

(** The rule with the guard of the code: the send timestamp is present
    as well. *)
Definition left_on_read_rule (divisor : Z) (threshold_hours : Q)
    (m : Message) (next_raw : option Z) : Prop :=
  date_raw m <> None /\
  left_on_read_as_specified divisor threshold_hours m next_raw.

(** What it means for the counters that a message is counted: the count
    goes to the party opposite to the sender. *)
Definition counted_left (m : Message) (a a' : ChatAcc) : Prop :=
  if from_me m
  then them_left a' = S (them_left a) /\ you_left a' = you_left a
  else you_left a' = S (you_left a) /\ them_left a' = them_left a.

Definition not_counted_left (a a' : ChatAcc) : Prop :=
  you_left a' = you_left a /\ them_left a' = them_left a.

Definition counts_exactly_when (P : Prop) (m : Message) (a a' : ChatAcc)
  : Prop :=
  (P -> counted_left m a a') /\ (~ P -> not_counted_left a a').

(** ** The loop body without its exceptions *)

(** The latency sample, in minutes, that a message contributes. *)
Definition latency_sample (divisor : Z) (m : Message) (next_raw : option Z)
  : option Q :=
  match next_raw, date_raw m with
  | Some n, Some d =>
      let dt_seconds := delta_seconds divisor n d in
      if Qle_bool 0 dt_seconds then Some (float_div dt_seconds 60) else None
  | _, _ => None
  end.

(** Whether a message increments a left-on-read counter. *)
Definition left_on_read (divisor : Z) (threshold_seconds : Q) (m : Message)
    (next_raw : option Z) : bool :=
  match date_read_raw m, date_raw m with
  | Some r, Some _ =>
      negb (r =? 0) &&
      negb match next_raw with
           | Some n =>
               Qle_bool 0 (delta_seconds divisor n r) &&
               Qle_bool (delta_seconds divisor n r) threshold_seconds
           | None => false
           end
  | _, _ => false
  end.

(** The number of messages of a conversation, from me or not from me,
    that increment a left-on-read counter. *)
Definition left_count (me : bool) (divisor : Z) (threshold_seconds : Q)
    (msgs : list Message) : nat :=
  List.length
    (filter (fun p => Bool.eqb (from_me (fst p)) me &&
                      left_on_read divisor threshold_seconds (fst p) (snd p))
            (combine msgs (fst (next_opposite_times msgs divisor)))).

Definition message_effect (divisor : Z) (threshold_seconds : Q)
    (a : ChatAcc) (m : Message) (next_raw : option Z) : ChatAcc :=
  let a := count_direction m a in
  let a := match latency_sample divisor m next_raw with
           | Some minutes => append_reply m minutes a
           | None => a
           end in
  if left_on_read divisor threshold_seconds m next_raw
  then count_left m false a
  else a.

(** The messages of a conversation paired with their next-opposite
    timestamps. *)
Definition with_next (divisor : Z) (msgs : list Message)
  : list (Message * option Z) :=
  combine msgs (fst (next_opposite_times msgs divisor)).

Definition chat_effect (divisor : Z) (threshold_seconds : Q) (a : ChatAcc)
    (pairs : list (Message * option Z)) : ChatAcc :=
  fold_left
    (fun a p => message_effect divisor threshold_seconds a (fst p) (snd p))
    pairs a.

(** The samples a message contributes to the list of direction [me]
    ([true]: replies to my messages, [them_reply]). *)
Definition samples_of (me : bool) (divisor : Z) (p : Message * option Z)
  : list Q :=
  if Bool.eqb (from_me (fst p)) me
  then match latency_sample divisor (fst p) (snd p) with
       | Some minutes => [minutes]
       | None => []
       end
  else [].

(** The rule of C6: a next-opposite timestamp exists, the send timestamp
    is present and the delta is not negative; the sample is the delta in
    minutes. *)
Definition has_latency (divisor : Z) (m : Message) (next_raw : option Z)
    (minutes : Q) : Prop :=
  exists n s, next_raw = Some n /\ date_raw m = Some s /\
    (0 <= delta_seconds divisor n s)%Q /\
    minutes = float_div (delta_seconds divisor n s) 60.

(** A sample of a message from me goes to [them_reply] ([they_reply] in
    the report), any other to [you_reply]. *)
Definition contributes (m : Message) (minutes : Q) (a a' : ChatAcc) : Prop :=
  if from_me m
  then them_reply a' = them_reply a ++ [minutes] /\ you_reply a' = you_reply a
  else you_reply a' = you_reply a ++ [minutes] /\ them_reply a' = them_reply a.

Definition no_contribution (a a' : ChatAcc) : Prop :=
  you_reply a' = you_reply a /\ them_reply a' = them_reply a.

(** The outcome of one conversation: the final loop variables [a] and the
    dictionary [c] stored for it. *)
Definition conversation_result (divisor : Z) (threshold_seconds : Q)
    (item : Z * list Message) (res : ChatAcc * Chat.t) : Prop :=
  analyze_chat divisor threshold_seconds (snd item) = Ok (fst res) /\
  exists you they,
    summarize_response_times (you_reply (fst res)) = Ok you /\
    summarize_response_times (them_reply (fst res)) = Ok they /\
    snd res = chat_dict (fst item) (snd item) (fst res) you they.

Definition total_of (c : Chat.t) : nat := Totals.total (Chat.totals c).

(** The order of a stable sort by a key, the larger key first. *)
Definition geb_by {A : Type} (key : A -> nat) (x y : A) : bool :=
  (key y <=? key x)%nat.

Definition empty_summary : Summary.t := Summary.mk 0 None None None.

(** The report of an input without messages. *)
Definition empty_report : Report.t :=
  {| Report.summary :=
       {| ReportSummary.totals := Totals.mk 0 0 0;
          ReportSummary.left_on_read := LeftOnRead.mk 0 0;
          ReportSummary.response_times :=
            ResponseTimes.mk empty_summary empty_summary |};
     Report.chats := [] |}.

(** ** Sample data *)

Definition sample (id chat : Z) (sent_at read_at : option Z) (me : Z)
  : Message :=
  mkMessage id chat "chat"%string None None sent_at read_at me.

(** I write at 0; they answer with a message that has no send timestamp. *)
Definition undated_reply : list Message :=
  [sample 1 1 (Some 0) None 1; sample 2 1 None None 0].

(** I write twice, they answer twice, I write again. *)
Definition two_runs : list Message :=
  [sample 1 1 (Some 10) None 1; sample 2 1 (Some 20) None 1;
   sample 3 1 (Some 30) None 0; sample 4 1 (Some 40) None 0;
   sample 5 1 (Some 50) None 1].

Definition one_to_ten : list Q := [1; 2; 3; 4; 5; 6; 7; 8; 9; 10]%Q.

(** A message read at 5 that has no send timestamp and no reply. *)
Definition read_but_undated : Message := sample 1 1 None (Some 5) 1.

(** They write at 0, I read at 60 and answer at 100; my answer is read at
    200 and never answered. *)
Definition read_and_answered : list Message :=
  [sample 1 1 (Some 0) (Some 60) 0; sample 2 1 (Some 100) (Some 200) 1].

(** Conversation 7 has three messages and is met first; conversation 9
    has ten. *)
Definition ten_and_three : list Message :=
  [sample 1 7 (Some 1) None 1; sample 2 7 (Some 2) None 0;
   sample 3 7 (Some 3) None 1;
   sample 4 9 (Some 1) None 0; sample 5 9 (Some 2) None 1;
   sample 6 9 (Some 3) None 0; sample 7 9 (Some 4) None 1;
   sample 8 9 (Some 5) None 0; sample 9 9 (Some 6) None 1;
   sample 10 9 (Some 7) None 0; sample 11 9 (Some 8) None 1;
   sample 12 9 (Some 9) None 0; sample 13 9 (Some 10) None 1].

(** In conversation 1 I answer after one minute; in conversation 2 I
    answer twice, each time after three minutes. *)
Definition uneven_replies : list Message :=
  [sample 1 1 (Some 0) None 0; sample 2 1 (Some 60) None 1;
   sample 3 2 (Some 0) None 0; sample 4 2 (Some 180) None 1;
   sample 5 2 (Some 200) None 0; sample 6 2 (Some 380) None 1].

(** ** Further vocabulary *)

(** The same message with its two timestamps in another unit: both are
    multiplied by [k]. *)
Definition rescale (k : Z) (m : Message) : Message :=
  {| message_id := message_id m;
     chat_id := chat_id m;
     chat_identifier := chat_identifier m;
     display_name := display_name m;
     handle := handle m;
     date_raw := option_map (Z.mul k) (date_raw m);
     date_read_raw := option_map (Z.mul k) (date_read_raw m);
     is_from_me := is_from_me m |}.

(** The statistics a summary holds. *)
Definition statistics (s : Summary.t) : list Q :=
  flat_map (fun o : option Q => match o with Some v => [v] | None => [] end)
    [Summary.avg_minutes s; Summary.median_minutes s; Summary.p90_minutes s].

(** The summaries of a report: the two of the whole, then the two of every
    conversation listed. *)
Definition summaries (r : Report.t) : list Summary.t :=
  let rt := ReportSummary.response_times (Report.summary r) in
  ResponseTimes.you_reply rt :: ResponseTimes.they_reply rt ::
  flat_map (fun c => [ResponseTimes.you_reply (Chat.response_times c);
                      ResponseTimes.they_reply (Chat.response_times c)])
           (Report.chats r).

(** Two outcomes of a computation that may raise: both are values related
    by [R], or both are the same exception. *)
Definition result_rel {A : Type} (R : A -> A -> Prop) (x y : result A)
  : Prop :=
  match x, y with
  | Ok a, Ok b => R a b
  | Raise e1, Raise e2 => e1 = e2
  | _, _ => False
  end.

(** The second pair of left-on-read counts is at most the first. *)
Definition fewer_left (l1 l2 : LeftOnRead.t) : Prop :=
  (LeftOnRead.you_left_them l2 <= LeftOnRead.you_left_them l1)%nat /\
  (LeftOnRead.they_left_you l2 <= LeftOnRead.they_left_you l1)%nat.

(** Two entries that differ at most by smaller left-on-read counts in the
    second. *)
Definition chat_fewer_left (c1 c2 : Chat.t) : Prop :=
  Chat.chat_id c1 = Chat.chat_id c2 /\
  Chat.chat_identifier c1 = Chat.chat_identifier c2 /\
  Chat.display_name c1 = Chat.display_name c2 /\
  Chat.label c1 = Chat.label c2 /\
  Chat.totals c1 = Chat.totals c2 /\
  Chat.response_times c1 = Chat.response_times c2 /\
  fewer_left (Chat.left_on_read c1) (Chat.left_on_read c2).

(** Two reports that differ at most by smaller left-on-read counts in the
    second. *)
Definition report_fewer_left (r1 r2 : Report.t) : Prop :=
  ReportSummary.totals (Report.summary r1)
  = ReportSummary.totals (Report.summary r2) /\
  ReportSummary.response_times (Report.summary r1)
  = ReportSummary.response_times (Report.summary r2) /\
  fewer_left (ReportSummary.left_on_read (Report.summary r1))
             (ReportSummary.left_on_read (Report.summary r2)) /\
  Forall2 chat_fewer_left (Report.chats r1) (Report.chats r2).

(** The same for the variables of the two loops. *)
Definition acc_fewer_left (a1 a2 : ChatAcc) : Prop :=
  sent a1 = sent a2 /\ received a1 = received a2 /\
  you_reply a1 = you_reply a2 /\ them_reply a1 = them_reply a2 /\
  (you_left a2 <= you_left a1)%nat /\ (them_left a2 <= them_left a1)%nat.

Definition entry_fewer_left (e1 e2 : Z * Chat.t) : Prop :=
  fst e1 = fst e2 /\ chat_fewer_left (snd e1) (snd e2).

Definition report_acc_fewer_left (r1 r2 : ReportAcc) : Prop :=
  totals_sent r1 = totals_sent r2 /\
  totals_received r1 = totals_received r2 /\
  you_reply_minutes r1 = you_reply_minutes r2 /\
  them_reply_minutes r1 = them_reply_minutes r2 /\
  (left_on_read_you r2 <= left_on_read_you r1)%nat /\
  (left_on_read_them r2 <= left_on_read_them r1)%nat /\
  Forall2 entry_fewer_left (chats r1) (chats r2).

(** Whether the loop body computes a time delta for a message paired with
    its next-opposite timestamp: both the timestamp of the reply and the
    send timestamp of the message are present. *)
Definition computes_delta (p : Message * option Z) : bool :=
  match snd p, date_raw (fst p) with
  | Some _, Some _ => true
  | _, _ => false
  end.

(** Whether some conversation of the input has such a message. *)
Definition some_delta (messages : list Message) : bool :=
  existsb (fun item => existsb computes_delta (with_next 0 (snd item)))
          (group_by_chat messages).

(** ** [apple_time_to_datetime] and [datetime_to_apple] *)

(** An aware [datetime]: its wall clock, in microseconds from
    2001-01-01 00:00:00 of its own time zone, and the offset of the time
    zone from UTC, in microseconds and less than a day in magnitude.
    The type holds the wall clocks from 0001-01-01 00:00:00 to
    9999-12-31 23:59:59.999999; 2001-01-01 is day 730486 of the
    proleptic Gregorian calendar and the last day is day 3652059.
    (A naive [datetime], which [main] never passes, is not modelled.) *)
Record datetime : Set := mkDatetime { wall : Z; utcoffset : Z }.

Definition us_per_second : Z := 1000000.
Definition us_per_day : Z := 86400 * us_per_second.
Definition datetime_min : Z := (1 - 730486) * us_per_day.
Definition datetime_max : Z := (3652059 - 730486 + 1) * us_per_day - 1.

Definition in_datetime_range (us : Z) : bool :=
  (datetime_min <=? us) && (us <=? datetime_max).

(** A [datetime] of [timezone.utc]. *)
Definition utc_datetime (us : Z) : datetime := mkDatetime us 0.

Definition APPLE_EPOCH : datetime := utc_datetime 0.

(** The instant of a [datetime], in microseconds from [APPLE_EPOCH]. *)
Definition instant (value : datetime) : Z := wall value - utcoffset value.

(** [value + delta] keeps the time zone and raises [OverflowError] when
    the wall clock leaves the range of the type. *)
Definition datetime_add (value : datetime) (delta : Z) : result datetime :=
  let w := wall value + delta in
  if in_datetime_range w then Ok (mkDatetime w (utcoffset value))
  else Raise OverflowError.

(** [a - b] for two aware values: the difference of the instants, a
    [timedelta], in microseconds. *)
Definition datetime_sub (a b : datetime) : Z := instant a - instant b.

(** [value.astimezone(timezone.utc)]: the offset is subtracted from the
    wall clock, which raises [OverflowError] when the instant has no
    wall clock in UTC. *)
Definition astimezone_utc (value : datetime) : result datetime :=
  utc <- datetime_add value (- utcoffset value) ;;
  Ok (utc_datetime (wall utc)).

(** [int(x)] for a float: truncation toward zero; an infinity raises
    [OverflowError]. *)
Definition trunc (x : Q) : Z :=
  if Qle_bool 0 x then Qfloor x else Qceiling x.

Definition int_of_float (x : Q) : result Z :=
  if Qle_bool inf (Qabs x) then Raise OverflowError
  else Ok (trunc x).

(** The conversion of an [int] operand of a float operation. *)
Definition float_of_int (n : Z) : result Q :=
  if DBL_OVERFLOW <=? Z.abs n then Raise OverflowError
  else Ok (fl (inject_Z n)).

(** [timedelta(seconds=s)] for a float [s], in microseconds: the whole
    seconds are taken exactly; the fraction times [1e6] is computed as a
    float and rounded to the nearest integer, ties to even. *)
Definition timedelta_of_seconds (s : Q) : Z :=
  let intpart := trunc s in
  let fracpart := (s - inject_Z intpart)%Q in
  intpart * us_per_second
  + round_half_even (float_mul (inject_Z us_per_second) fracpart).

(** The [try] covers the division only: its exceptions give [None]; a
    result outside the range of [datetime] (or of [timedelta]) raises
    [OverflowError] from the last line. *)
Definition apple_time_to_datetime (value : option Z) (divisor : Z)
  : result (option datetime) :=
  match value with
  | None => Ok None
  | Some v =>
      match true_div v divisor with
      | Raise _ => Ok None
      | Ok seconds =>
          dt <- datetime_add APPLE_EPOCH (timedelta_of_seconds seconds) ;;
          Ok (Some dt)
      end
  end.

(** [delta.total_seconds()] is the true division of the microseconds of
    [delta] by [10**6]. *)
Definition datetime_to_apple (value : datetime) (divisor : Z) : result Z :=
  utc <- astimezone_utc value ;;
  let delta := datetime_sub utc APPLE_EPOCH in
  total_seconds <- true_div delta us_per_second ;;
  d <- float_of_int divisor ;;
  int_of_float (float_mul total_seconds d).

(** ** [load_messages] *)

(** A row of the query: the nine columns in the order of the [SELECT]. *)
Record Row : Set := mkRow {
  col_message_id : Z;
  col_date_raw : option Z;
  col_date_read_raw : option Z;
  col_is_from_me : Z;
  col_handle_id : option Z;
  col_chat_id : Z;
  col_chat_identifier : string;
  col_display_name : option string;
  col_handle : option string
}.

(** [Message(message_id=row[0], ..., handle=row[8])]: column 4 is not
    used. *)
Definition message_of_row (row : Row) : Message :=
  {| message_id := col_message_id row;
     date_raw := col_date_raw row;
     date_read_raw := col_date_read_raw row;
     is_from_me := col_is_from_me row;
     chat_id := col_chat_id row;
     chat_identifier := col_chat_identifier row;
     display_name := col_display_name row;
     handle := col_handle row |}.

(** The lists [where] and [params] ([where] is a reserved word here). *)
Definition where_params (since_raw until_raw : option Z)
  : list string * list Z :=
  let '(conditions, params) :=
    match since_raw with
    | Some s => (["m.date >= ?"%string], [s])
    | None => ([], [])
    end in
  match until_raw with
  | Some u => (conditions ++ ["m.date <= ?"%string], params ++ [u])
  | None => (conditions, params)
  end.

Definition where_clause (since_raw until_raw : option Z) : string :=
  let where_clause :=
    String.concat " AND " (fst (where_params since_raw until_raw)) in
  match where_clause with
  | EmptyString => where_clause
  | String _ _ => ("WHERE " ++ where_clause)%string
  end.

(** The text of the query before and after the [WHERE] clause. *)
Definition sql_head : string := "
        SELECT
            m.ROWID as message_id,
            m.date as date_raw,
            m.date_read as date_read_raw,
            m.is_from_me as is_from_me,
            m.handle_id as handle_id,
            c.ROWID as chat_id,
            c.chat_identifier as chat_identifier,
            c.display_name as display_name,
            h.id as handle
        FROM message m
        JOIN chat_message_join cmj ON m.ROWID = cmj.message_id
        JOIN chat c ON c.ROWID = cmj.chat_id
        LEFT JOIN handle h ON m.handle_id = h.ROWID
        "%string.

Definition sql_tail : string := "
        ORDER BY c.ROWID ASC, m.date ASC
    "%string.

Definition sql (since_raw until_raw : option Z) : string :=
  (sql_head ++ where_clause since_raw until_raw ++ sql_tail)%string.

(** The number of [?] placeholders of a statement. *)
Fixpoint placeholders (s : string) : nat :=
  match s with
  | EmptyString => 0
  | String c s' =>
      ((if Ascii.eqb c "?" then 1 else 0) + placeholders s')%nat
  end.

(** [conn.execute(sql, params).fetchall()] is a parameter: the database
    is outside the program. *)
Section LoadMessages.
Variable execute : string -> list Z -> list Row.

Definition load_messages (since_raw until_raw : option Z) : list Message :=
  let params := snd (where_params since_raw until_raw) in
  let rows := execute (sql since_raw until_raw) params in
  map message_of_row rows.
End LoadMessages.

(** * Properties *)

(** ** The backward scan *)

Lemma scan_cons m l : scan (m :: l) = scan_step m (scan l).
Proof. reflexivity. Qed.

Lemma scan_trackers l :
  next_from_me_raw (scan l) = first_date true l /\
  next_from_them_raw (scan l) = first_date false l.
Proof.
  induction l as [|m l [IHme IHthem]]; [now split|].
  rewrite scan_cons. unfold scan_step. simpl. unfold from_me.
  destruct (is_from_me m =? 1); simpl; rewrite IHme, IHthem;
    destruct (date_raw m); auto.
Qed.

Lemma scan_lengths l :
  List.length (next_reply_time_raw (scan l)) = List.length l /\
  List.length (next_reply_type (scan l)) = List.length l.
Proof.
  induction l as [|m l [IH1 IH2]]; [now split|].
  rewrite scan_cons. unfold scan_step.
  destruct (is_from_me m =? 1); simpl; now rewrite IH1, IH2.
Qed.

Lemma scan_times_cons m l :
  next_reply_time_raw (scan (m :: l)) =
  first_date (negb (from_me m)) l :: next_reply_time_raw (scan l).
Proof.
  rewrite scan_cons. destruct (scan_trackers l) as [Hme Hthem].
  unfold scan_step, from_me.
  destruct (is_from_me m =? 1); simpl; now rewrite ?Hme, ?Hthem.
Qed.

Lemma scan_types_cons m l :
  next_reply_type (scan (m :: l)) =
  option_map (fun _ => direction_code (negb (from_me m)))
             (first_date (negb (from_me m)) l)
    :: next_reply_type (scan l).
Proof.
  rewrite scan_cons. destruct (scan_trackers l) as [Hme Hthem].
  unfold scan_step, from_me.
  destruct (is_from_me m =? 1); simpl; rewrite ?Hme, ?Hthem;
    [destruct (first_date false l) | destruct (first_date true l)];
    reflexivity.
Qed.

Lemma scan_times_nth l : forall i m,
  nth_error l i = Some m ->
  nth_error (next_reply_time_raw (scan l)) i =
  Some (first_date (negb (from_me m)) (skipn (S i) l)).
Proof.
  induction l as [|x l IH]; intros [|i] m H; try discriminate.
  - injection H as ->. now rewrite scan_times_cons.
  - rewrite scan_times_cons. simpl in *. now apply IH.
Qed.

Lemma scan_types_nth l : forall i m,
  nth_error l i = Some m ->
  nth_error (next_reply_type (scan l)) i =
  Some (option_map (fun _ => direction_code (negb (from_me m)))
                   (first_date (negb (from_me m)) (skipn (S i) l))).
Proof.
  induction l as [|x l IH]; intros [|i] m H; try discriminate.
  - injection H as ->. now rewrite scan_types_cons.
  - rewrite scan_types_cons. simpl in *. now apply IH.
Qed.

Lemma reply_signal_nth l divisor i m :
  nth_error l i = Some m ->
  reply_signal l divisor i =
  let t := first_date (negb (from_me m)) (skipn (S i) l) in
  Some (t, option_map (fun _ => direction_code (negb (from_me m))) t).
Proof.
  intros H. unfold reply_signal, next_opposite_times.
  now rewrite (scan_times_nth _ _ _ H), (scan_types_nth _ _ _ H).
Qed.

Lemma first_date_None me l :
  first_date me l = None <->
  (forall m, In m l -> from_me m = me -> date_raw m = None).
Proof.
  induction l as [|x l IH]; simpl.
  - split; [intros _ m []|reflexivity].
  - destruct (Bool.eqb (from_me x) me) eqn:E.
    + apply eqb_prop in E. destruct (date_raw x) eqn:D.
      * split; [discriminate|]. intros H.
        rewrite <- D. apply H; auto.
      * rewrite IH. split.
        -- intros H m [<-|Hin] Hm; auto.
        -- intros H m Hin. apply H. now right.
    + apply eqb_false_iff in E. rewrite IH. split.
      * intros H m [<-|Hin] Hm; [contradiction|auto].
      * intros H m Hin. apply H. now right.
Qed.

Lemma first_date_Some me l t :
  first_date me l = Some t ->
  exists j m,
    nth_error l j = Some m /\ from_me m = me /\ date_raw m = Some t /\
    (forall k m', (k < j)%nat -> nth_error l k = Some m' ->
                  from_me m' = me -> date_raw m' = None).
Proof.
  induction l as [|x l IH]; simpl; [discriminate|].
  destruct (Bool.eqb (from_me x) me) eqn:E.
  - apply eqb_prop in E. destruct (date_raw x) eqn:D.
    + intros [= ->]. exists 0%nat, x. repeat split; auto.
      intros k m' Hk. lia.
    + intros H. destruct (IH H) as (j & m & Hj & Hm & Hd & Hmin).
      exists (S j), m. repeat split; auto.
      intros [|k] m' Hk Hn Hf; simpl in Hn.
      * now injection Hn as <-.
      * apply (Hmin k); auto. lia.
  - apply eqb_false_iff in E.
    intros H. destruct (IH H) as (j & m & Hj & Hm & Hd & Hmin).
    exists (S j), m. repeat split; auto.
    intros [|k] m' Hk Hn Hf; simpl in Hn.
    + injection Hn as <-. contradiction.
    + apply (Hmin k); auto. lia.
Qed.

Lemma nth_error_skipn {A} (l : list A) n k :
  nth_error (skipn n l) k = nth_error l (n + k).
Proof.
  revert l; induction n as [|n IH]; intros [|x l]; simpl; auto.
  now destruct k.
Qed.

(** ** Null signals *)

(** C1, as the code has it: the signal of message [i] is the null pair
    exactly when no later message of the opposite direction carries a send
    timestamp; otherwise both components are present.  A later opposite
    message without a send timestamp does not update the tracker, so it
    does not count. *)
Theorem next_opposite_null_iff msgs divisor i m :
  nth_error msgs i = Some m ->
  (reply_signal msgs divisor i = Some (None, None) <->
   ~ exists j m',
       (i < j)%nat /\ nth_error msgs j = Some m' /\
       from_me m' = negb (from_me m) /\ date_raw m' <> None) /\
  (reply_signal msgs divisor i = Some (None, None) \/
   exists t,
     reply_signal msgs divisor i =
     Some (Some t, Some (direction_code (negb (from_me m))))).
Proof.
  intros Hm. rewrite (reply_signal_nth _ divisor _ _ Hm). cbv zeta.
  destruct (first_date (negb (from_me m)) (skipn (S i) msgs)) as [t|] eqn:E;
    simpl.
  - split; [|right; now exists t].
    split; [discriminate|]. intros Hno. exfalso. apply Hno.
    destruct (first_date_Some _ _ _ E) as (j & m' & Hj & Hdir & Hd & _).
    rewrite nth_error_skipn in Hj.
    exists (S i + j)%nat, m'. repeat split; auto; [lia|congruence].
  - split; [|now left].
    split; [|reflexivity]. intros _ (j & m' & Hlt & Hj & Hdir & Hd).
    apply Hd. rewrite first_date_None in E. apply E; auto.
    replace j with (S i + (j - S i))%nat in Hj by lia.
    rewrite <- nth_error_skipn in Hj. eapply nth_error_In, Hj.
Qed.

Lemma next_opposite_null_iff_witness :
  reply_signal two_runs 1 4 = Some (None, None) /\
  reply_signal two_runs 1 0 = Some (Some 30, Some 0).
Proof.
  destruct (next_opposite_null_iff two_runs 1 4 (sample 5 1 (Some 50) None 1)
              eq_refl) as [[_ Hnull] _].
  split; [|reflexivity].
  apply Hnull. intros (j & m' & Hlt & Hj & _).
  do 5 (destruct j as [|j]; [lia|]). destruct j; discriminate.
Defined.

(** The statement of C1 without the timestamp condition fails: the first
    message of [undated_reply] has a null signal although a message of the
    opposite direction follows it. *)
Lemma undated_reply_null_signal :
  ~ (reply_signal undated_reply 1 0 = Some (None, None) <->
     ~ exists j m',
         (0 < j)%nat /\ nth_error undated_reply j = Some m' /\
         from_me m' = negb (from_me (sample 1 1 (Some 0) None 1))).
Proof.
  intros [H _]. apply H; [reflexivity|].
  exists 1%nat, (sample 2 1 None None 0). repeat split. lia.
Qed.

(** ** Nearest reply *)

Lemma sortedb_head_le x l :
  sortedb (x :: l) = true -> Forall (Z.le x) l /\ sortedb l = true.
Proof.
  revert x; induction l as [|y l IH]; intros x H; [now split|].
  simpl in H. apply andb_prop in H as [Hxy Hs]. apply Z.leb_le in Hxy.
  destruct (IH y Hs) as [Hall _]. split; [|exact Hs].
  constructor; [exact Hxy|].
  eapply Forall_impl; [|exact Hall]. intros z Hz. lia.
Qed.

Lemma sortedb_app_le l1 : forall l2 x y,
  sortedb (l1 ++ l2) = true -> In x l1 -> In y l2 -> x <= y.
Proof.
  induction l1 as [|a l1 IH]; intros l2 x y Hs Hx Hy; [destruct Hx|].
  change ((a :: l1) ++ l2) with (a :: (l1 ++ l2)) in Hs.
  apply sortedb_head_le in Hs as [Hall Hs].
  destruct Hx as [<-|Hx].
  - rewrite Forall_forall in Hall. apply Hall, in_or_app. now right.
  - eapply IH; eauto.
Qed.

Lemma timestamps_app l1 l2 :
  timestamps (l1 ++ l2) = timestamps l1 ++ timestamps l2.
Proof. unfold timestamps. now rewrite flat_map_app. Qed.

Lemma timestamps_In m l t :
  In m l -> date_raw m = Some t -> In t (timestamps l).
Proof.
  intros Hin Hd. unfold timestamps. apply in_flat_map.
  exists m. split; [exact Hin|]. rewrite Hd. now left.
Qed.

Lemma chronological_nth l a b ma mb ta tb :
  chronological l -> (a < b)%nat ->
  nth_error l a = Some ma -> nth_error l b = Some mb ->
  date_raw ma = Some ta -> date_raw mb = Some tb -> ta <= tb.
Proof.
  unfold chronological. intros Hs Hab Ha Hb Hta Htb.
  rewrite <- (firstn_skipn (S a) l), timestamps_app in Hs.
  apply (sortedb_app_le _ _ ta tb Hs).
  - apply timestamps_In with ma; [|exact Hta].
    apply nth_error_In with a. rewrite nth_error_firstn.
    destruct (Nat.ltb_spec a (S a)); [exact Ha|lia].
  - apply timestamps_In with mb; [|exact Htb].
    apply nth_error_In with (b - S a)%nat.
    rewrite nth_error_skipn. now replace (S a + (b - S a))%nat with b by lia.
Qed.

(** C3: in a chronological conversation, a non-null signal of message [i]
    carries the send timestamp of a later message [j] of the opposite
    party; no opposite-party message between [i] and [j] has a timestamp,
    no later opposite-party message is earlier in time, the reply is not
    earlier than message [i] itself, and the reported direction is the
    opposite of the direction of message [i]. *)
Theorem next_opposite_is_nearest msgs divisor i m signal :
  chronological msgs ->
  nth_error msgs i = Some m ->
  reply_signal msgs divisor i = Some signal ->
  signal <> (None, None) ->
  exists t,
    signal = (Some t, Some (direction_code (negb (from_me m)))) /\
    (exists j m',
        (i < j)%nat /\ nth_error msgs j = Some m' /\
        from_me m' = negb (from_me m) /\ date_raw m' = Some t /\
        forall k mk, (i < k < j)%nat -> nth_error msgs k = Some mk ->
                     from_me mk = negb (from_me m) -> date_raw mk = None) /\
    (forall k mk tk,
        (i < k)%nat -> nth_error msgs k = Some mk ->
        from_me mk = negb (from_me m) -> date_raw mk = Some tk -> t <= tk) /\
    (forall ti, date_raw m = Some ti -> ti <= t).
Proof.
  intros Hsorted Hm Hsig Hnn.
  rewrite (reply_signal_nth _ divisor _ _ Hm) in Hsig. cbv zeta in Hsig.
  destruct (first_date (negb (from_me m)) (skipn (S i) msgs)) as [t|] eqn:E;
    simpl in Hsig; injection Hsig as <-; [|contradiction].
  exists t. split; [reflexivity|].
  destruct (first_date_Some _ _ _ E) as (j & m' & Hj & Hdir & Hd & Hmin).
  rewrite nth_error_skipn in Hj.
  assert (Hbetween : forall k mk, (i < k < S i + j)%nat ->
            nth_error msgs k = Some mk ->
            from_me mk = negb (from_me m) -> date_raw mk = None).
  { intros k mk Hk Hnk Hf. apply (Hmin (k - S i)%nat mk); auto; [lia|].
    rewrite nth_error_skipn. now replace (S i + (k - S i))%nat with k by lia. }
  split; [|split].
  - exists (S i + j)%nat, m'. repeat split; auto. lia.
  - intros k mk tk Hk Hnk Hf Hdk.
    destruct (Nat.lt_trichotomy k (S i + j)) as [Hlt|[->|Hgt]].
    + rewrite (Hbetween k mk) in Hdk; [discriminate|lia|auto|auto].
    + rewrite Hj in Hnk. injection Hnk as <-.
      rewrite Hd in Hdk. injection Hdk as <-. lia.
    + eapply (chronological_nth msgs (S i + j) k); eauto.
  - intros ti Hti.
    eapply (chronological_nth msgs i (S i + j)); eauto. lia.
Qed.

Lemma next_opposite_is_nearest_witness :
  exists t,
    (Some 30, Some 0) = (Some t, Some (direction_code false)) /\ 10 <= t.
Proof.
  destruct (next_opposite_is_nearest two_runs 1 0
              (sample 1 1 (Some 10) None 1) (Some 30, Some 0))
    as (t & Heq & _ & _ & Hle); try reflexivity; [discriminate|].
  exists t. split; [exact Heq|]. apply Hle. reflexivity.
Defined.

(** ** Arithmetic of the runtime *)

Lemma round_half_even_comp x y :
  (x == y)%Q -> round_half_even x = round_half_even y.
Proof.
  intros H. unfold round_half_even.
  rewrite (Qfloor_comp _ _ H).
  assert (Hc : (x - inject_Z (Qfloor y) ?= 1 # 2)%Q =
               (y - inject_Z (Qfloor y) ?= 1 # 2)%Q) by now rewrite H.
  now rewrite Hc.
Qed.

Lemma round_half_even_bounds x :
  (inject_Z (round_half_even x) - (1 # 2) <= x)%Q /\
  (x <= inject_Z (round_half_even x) + (1 # 2))%Q.
Proof.
  unfold round_half_even.
  pose proof (Qfloor_le x) as Hlo. pose proof (Qlt_floor x) as Hhi.
  rewrite inject_Z_plus in Hhi. change (inject_Z 1) with 1%Q in Hhi.
  generalize dependent (Qfloor x). intros f Hlo Hhi.
  destruct (x - inject_Z f ?= 1 # 2)%Q eqn:E.
  - apply Qeq_alt in E.
    destruct (Z.even f); rewrite ?inject_Z_plus;
      change (inject_Z 1) with 1%Q; split; lra.
  - apply Qlt_alt in E. split; lra.
  - apply Qgt_alt in E. rewrite inject_Z_plus.
    change (inject_Z 1) with 1%Q. split; lra.
Qed.

Lemma fl_comp x y : (x == y)%Q -> fl x = fl y.
Proof. intros H. unfold fl. now rewrite (Qred_complete _ _ H). Qed.

Lemma pow2_pos e : (0 < pow2 e)%Q.
Proof. apply Qpower_0_lt. reflexivity. Qed.

Lemma pow2_plus a b : (pow2 (a + b) == pow2 a * pow2 b)%Q.
Proof. apply Qpower_plus. discriminate. Qed.

Lemma binade_inv q :
  binade q = -1074 \/ (pow2 (52 + binade q) <= q)%Q.
Proof.
  unfold binade.
  set (e0 := Z.log2 (Qnum q) - Z.log2 (Z.pos (Qden q)) - 52).
  destruct (Qle_bool (pow2 (52 + e0)) q) eqn:E1.
  - apply Qle_bool_iff in E1.
    destruct (Z.max_spec e0 (-1074)) as [[_ ->]|[_ ->]]; auto.
  - destruct (Qle_bool (pow2 (51 + e0)) q) eqn:E2.
    + apply Qle_bool_iff in E2.
      destruct (Z.max_spec (e0 - 1) (-1074)) as [[_ ->]|[_ ->]]; auto.
      right. now replace (52 + (e0 - 1)) with (51 + e0) by lia.
    + now left.
Qed.

Lemma fl_value x :
  let e := binade (Qabs (Qred x)) in
  (fl x == inject_Z (round_half_even (Qred x / pow2 e)) * pow2 e)%Q.
Proof. cbv zeta. unfold fl. apply Qred_correct. Qed.

(** The rounding error: at most half a unit in the last place. *)
Lemma fl_error x :
  (Qabs (fl x - x) <= Qabs x * half_ulp + tiny)%Q.
Proof.
  rewrite fl_value. cbv zeta.
  assert (Hxq : (x == Qred x)%Q) by (symmetry; apply Qred_correct).
  remember (Qred x) as q eqn:Eq. rewrite Hxq. clear Eq Hxq x.
  set (e := binade (Qabs q)).
  pose proof (pow2_pos e) as Hp.
  destruct (round_half_even_bounds (q / pow2 e)) as [Hlo Hhi].
  set (r := inject_Z (round_half_even (q / pow2 e))) in *.
  assert (Hq : (q == q / pow2 e * pow2 e)%Q) by (field; lra).
  assert (Herr : (Qabs (r * pow2 e - q) <= pow2 e * (1 # 2))%Q).
  { apply Qabs_Qle_condition.
    set (y := (q / pow2 e)%Q) in *. rewrite Hq. clearbody y. split; nra. }
  eapply Qle_trans; [exact Herr|].
  pose proof (Qabs_nonneg q) as Hq0.
  destruct (binade_inv (Qabs q)) as [He|He]; fold e in He.
  - rewrite He.
    assert (E : (pow2 (-1074) * (1 # 2) == tiny)%Q) by reflexivity.
    rewrite E. unfold half_ulp, tiny. lra.
  - rewrite pow2_plus in He.
    assert (E : (pow2 52 == 4503599627370496)%Q) by reflexivity.
    rewrite E in He. unfold half_ulp, tiny. lra.
Qed.

(** The rounding on a few values whose binary64 is known: one tenth, two
    ties between neighbours above [2^53], an exact value, and two ties
    among the subnormal numbers. *)
Lemma fl_spot_checks :
  fl (1 # 10) = 3602879701896397 # 36028797018963968 /\
  fl (inject_Z (2 ^ 53 + 1)) = inject_Z (2 ^ 53) /\
  fl (inject_Z (2 ^ 53 + 3)) = inject_Z (2 ^ 53 + 4) /\
  fl (1 # 8) = 1 # 8 /\
  fl (1 # 2 ^ 1075) = 0%Q /\
  fl (3 # 2 ^ 1075) = 1 # 2 ^ 1073.
Proof. repeat split; vm_compute; reflexivity. Qed.

Lemma round_half_even_lt x k :
  (x < inject_Z k + (1 # 2))%Q -> round_half_even x <= k.
Proof.
  intros H. destruct (round_half_even_bounds x) as [Hlo _].
  assert (Hlt : (inject_Z (round_half_even x) < inject_Z (k + 1))%Q).
  { rewrite inject_Z_plus. change (inject_Z 1) with 1%Q. lra. }
  rewrite <- Zlt_Qlt in Hlt. lia.
Qed.

Lemma round_half_even_gt x k :
  (inject_Z k - (1 # 2) < x)%Q -> k <= round_half_even x.
Proof.
  intros H. destruct (round_half_even_bounds x) as [_ Hhi].
  assert (Hlt : (inject_Z k < inject_Z (round_half_even x + 1))%Q).
  { rewrite inject_Z_plus. change (inject_Z 1) with 1%Q. lra. }
  rewrite <- Zlt_Qlt in Hlt. lia.
Qed.

Lemma pow2_inject k : 0 <= k -> (inject_Z (2 ^ k) == pow2 k)%Q.
Proof. intros Hk. unfold pow2. now rewrite Zpower_Qpower. Qed.

Lemma pow2_le a b : a <= b -> (pow2 a <= pow2 b)%Q.
Proof. intros H. apply Qpower_le_compat_l; [exact H|discriminate]. Qed.

Lemma pow2_below n d a b :
  0 <= a -> 0 <= b -> 2 ^ a <= n -> Z.pos d <= 2 ^ (b + 1) ->
  (pow2 (a - b - 1) <= n # d)%Q.
Proof.
  intros Ha Hb Hn Hd. rewrite (Qmake_Qdiv n d).
  apply Qle_shift_div_l; [reflexivity|].
  apply Qle_trans with (pow2 (a - b - 1) * pow2 (b + 1))%Q.
  - apply Qmult_le_l; [apply pow2_pos|].
    rewrite <- pow2_inject by lia. now rewrite <- Zle_Qle.
  - rewrite <- pow2_plus. replace (a - b - 1 + (b + 1)) with a by lia.
    rewrite <- pow2_inject by lia. now rewrite <- Zle_Qle.
Qed.

Lemma pow2_above n d a b :
  0 <= a -> 0 <= b -> n < 2 ^ (a + 1) -> 2 ^ b <= Z.pos d ->
  (n # d < pow2 (a + 1 - b))%Q.
Proof.
  intros Ha Hb Hn Hd. rewrite (Qmake_Qdiv n d).
  apply Qlt_shift_div_r; [reflexivity|].
  apply Qlt_le_trans with (pow2 (a + 1 - b) * pow2 b)%Q.
  - rewrite <- pow2_plus. replace (a + 1 - b + b) with (a + 1) by lia.
    rewrite <- pow2_inject by lia. now rewrite <- Zlt_Qlt.
  - apply Qmult_le_l; [apply pow2_pos|].
    rewrite <- pow2_inject by lia. now rewrite <- Zle_Qle.
Qed.

(** The exponent chosen by [binade] is the one of the binary64 format:
    a positive [q] lies in [[2^(52+e), 2^(53+e))], or below [2^(-1021)]
    with [e = -1074]. *)
Lemma binade_spec q :
  (0 < q)%Q ->
  -1074 <= binade q /\
  (binade q = -1074 \/ (pow2 (52 + binade q) <= q)%Q) /\
  (q < pow2 (53 + binade q))%Q.
Proof.
  intros Hq. destruct q as [n d]. unfold binade. simpl Qnum. simpl Qden.
  assert (Hn : 0 < n) by (unfold Qlt in Hq; simpl in Hq; lia).
  set (a := Z.log2 n). set (b := Z.log2 (Z.pos d)).
  assert (Ha : 0 <= a) by apply Z.log2_nonneg.
  assert (Hb : 0 <= b) by apply Z.log2_nonneg.
  destruct (Z.log2_spec n Hn) as [Ha1 Ha2]. fold a in Ha1, Ha2.
  destruct (Z.log2_spec (Z.pos d) eq_refl) as [Hb1 Hb2]. fold b in Hb1, Hb2.
  rewrite <- Z.add_1_r in Ha2, Hb2.
  assert (Hlo : (pow2 (a - b - 1) <= n # d)%Q)
    by (apply pow2_below; lia).
  assert (Hhi : (n # d < pow2 (a + 1 - b))%Q)
    by (apply pow2_above; lia).
  set (e0 := a - b - 52).
  replace (a - b - 1) with (51 + e0) in Hlo by (unfold e0; lia).
  replace (a + 1 - b) with (53 + e0) in Hhi by (unfold e0; lia).
  clearbody e0. clear Ha1 Ha2 Hb1 Hb2 Ha Hb. 
  apply Qle_bool_iff in Hlo. rewrite Hlo.
  apply Qle_bool_iff in Hlo.
  assert (Hmax : forall e1,
            (pow2 (52 + e1) <= n # d)%Q -> (n # d < pow2 (53 + e1))%Q ->
            -1074 <= Z.max e1 (-1074) /\
            (Z.max e1 (-1074) = -1074 \/
             (pow2 (52 + Z.max e1 (-1074)) <= n # d)%Q) /\
            (n # d < pow2 (53 + Z.max e1 (-1074)))%Q).
  { intros e1 H1 H2. split; [lia|].
    destruct (Z.max_spec e1 (-1074)) as [[Hlt ->]|[Hge ->]].
    - split; [now left|].
      eapply Qlt_le_trans; [exact H2|]. apply pow2_le. lia.
    - split; [now right|exact H2]. }
  destruct (Qle_bool (pow2 (52 + e0)) (n # d)) eqn:E.
  - apply Qle_bool_iff in E. now apply Hmax.
  - apply Hmax.
    + now replace (52 + (e0 - 1)) with (51 + e0) by lia.
    + replace (53 + (e0 - 1)) with (52 + e0) by lia.
      apply Qnot_le_lt. intros H. apply Qle_bool_iff in H. congruence.
Qed.

(** [fl x] is a multiple of the unit in the last place of the binade of
    [x], with a mantissa of at most [2^53], at most half a unit away from
    [x]; the ties go to the even mantissa by [round_half_even]. *)
Lemma fl_spec x :
  let e := binade (Qabs (Qred x)) in
  exists m : Z,
    (fl x == inject_Z m * pow2 e)%Q /\
    (Qabs (fl x - x) <= pow2 e * (1 # 2))%Q /\
    Z.abs m <= 2 ^ 53.
Proof.
  cbv zeta. exists (round_half_even (Qred x / pow2 (binade (Qabs (Qred x))))).
  rewrite fl_value. cbv zeta.
  assert (Hxq : (x == Qred x)%Q) by (symmetry; apply Qred_correct).
  remember (Qred x) as q eqn:Eq. rewrite Hxq. clear Eq Hxq x.
  set (e := binade (Qabs q)).
  pose proof (pow2_pos e) as Hp.
  destruct (round_half_even_bounds (q / pow2 e)) as [Hlo Hhi].
  assert (Hq : (q == q / pow2 e * pow2 e)%Q) by (field; lra).
  split; [reflexivity|]. split.
  - apply Qabs_Qle_condition.
    set (r := inject_Z (round_half_even (q / pow2 e))) in *.
    set (y := (q / pow2 e)%Q) in *. rewrite Hq. clearbody y r. split; nra.
  - assert (Hy : (Qabs (q / pow2 e) <= inject_Z (2 ^ 53))%Q).
    { destruct (Qeq_dec (Qabs q) 0) as [H0|H0].
      - unfold Qdiv. rewrite Qabs_Qmult, H0, Qmult_0_l. discriminate.
      - assert (Hpos : (0 < Qabs q)%Q).
        { pose proof (Qabs_nonneg q) as Hnn. apply Qnot_le_lt. intros Hle.
          apply H0. now apply Qle_antisym. }
        destruct (binade_spec (Qabs q) Hpos) as (_ & _ & Hlt). fold e in Hlt.
        rewrite pow2_plus in Hlt. 
        unfold Qdiv. rewrite Qabs_Qmult.
        rewrite (Qabs_pos (/ pow2 e)) by (apply Qinv_le_0_compat; lra).
        apply Qle_shift_div_r; [exact Hp|].
        change (inject_Z (2 ^ 53)) with (pow2 53). lra. }
    apply Qabs_Qle_condition in Hy. destruct Hy as [Hy1 Hy2].
    apply Z.abs_le. split.
    + apply round_half_even_gt.
      change (inject_Z (- 2 ^ 53)) with (- inject_Z (2 ^ 53))%Q. lra.
    + apply round_half_even_lt. lra.
Qed.

Lemma fl_nine_tenths : fl (9 # 10) = 8106479329266893 # 9007199254740992.
Proof. vm_compute. reflexivity. Qed.

Lemma fl_error_nonneg x :
  (0 <= x)%Q ->
  (x - (x * half_ulp + tiny) <= fl x)%Q /\
  (fl x <= x + (x * half_ulp + tiny))%Q.
Proof.
  intros Hx. pose proof (fl_error x) as H.
  rewrite (Qabs_pos x Hx) in H.
  apply Qabs_Qle_condition in H. destruct H. split; lra.
Qed.

(** *** Overflow *)

Lemma inf_pos : (0 < inf)%Q.
Proof. reflexivity. Qed.

Lemma overflow_cases x :
  ((inf <= x)%Q /\ overflow x = inf) \/
  ((x <= - inf)%Q /\ overflow x = (- inf)%Q) \/
  ((- inf < x)%Q /\ (x < inf)%Q /\ overflow x = x).
Proof.
  unfold overflow. destruct (Qle_bool inf x) eqn:E1.
  - left. split; [now apply Qle_bool_iff|reflexivity].
  - destruct (Qle_bool x (- inf)) eqn:E2.
    + right. left. split; [now apply Qle_bool_iff|reflexivity].
    + right. right. repeat split.
      * apply Qnot_le_lt. rewrite <- Qle_bool_iff. congruence.
      * apply Qnot_le_lt. rewrite <- Qle_bool_iff. congruence.
Qed.

Lemma overflow_finite x : (Qabs x < inf)%Q -> overflow x = x.
Proof.
  intros H. apply Qabs_Qlt_condition in H. destruct H as [H1 H2].
  destruct (overflow_cases x) as [[H _]|[[H _]|(_ & _ & E)]];
    [exfalso; apply (Qlt_not_le _ _ H2 H)
    |exfalso; apply (Qlt_not_le _ _ H1 H)
    |exact E].
Qed.

Lemma overflow_lt x b : (x < b)%Q -> (0 <= b)%Q -> (overflow x < b)%Q.
Proof.
  intros Hx Hb. pose proof inf_pos as Hi.
  destruct (overflow_cases x) as [[H ->]|[[H ->]|(_ & _ & ->)]].
  - now apply Qle_lt_trans with x.
  - apply Qlt_le_trans with 0%Q; [|exact Hb].
    apply Qlt_minus_iff. 
    setoid_replace (0 + - - inf)%Q with inf by ring. exact Hi.
  - exact Hx.
Qed.

Lemma p90_index_range n :
  (0 < n)%nat -> 0 <= p90_index n <= Z.of_nat n - 1.
Proof.
  intros Hn. unfold p90_index, float_mul. split; [lia|].
  apply Z.max_lub; [lia|]. apply round_half_even_lt.
  rewrite fl_nine_tenths.
  assert (HK : (0 <= inject_Z (Z.of_nat n - 1))%Q).
  { change 0%Q with (inject_Z 0). rewrite <- Zle_Qle. lia. }
  generalize dependent (inject_Z (Z.of_nat n - 1)). intros K HK.
  apply overflow_lt; [|lra].
  destruct (fl_error_nonneg K HK) as [H1lo H1hi].
  set (x1 := fl K) in *.
  set (c := (8106479329266893 # 9007199254740992)%Q).
  pose proof (fl_error (c * x1)) as H2.
  apply Qabs_Qle_condition in H2. destruct H2 as [_ H2].
  assert (Habs : (Qabs (c * x1) <= c * (K + (K * half_ulp + tiny)))%Q).
  { apply Qabs_Qle_condition. unfold c, half_ulp, tiny in *. split; lra. }
  assert (Hu : (0 <= half_ulp)%Q) by discriminate.
  assert (Hm : (Qabs (c * x1) * half_ulp
                <= c * (K + (K * half_ulp + tiny)) * half_ulp)%Q).
  { apply Qmult_le_compat_r; assumption. }
  unfold c, half_ulp, tiny in *. lra.
Qed.

Lemma round_half_even_near x k :
  (Qabs (x - inject_Z k) < 1 # 2)%Q -> round_half_even x = k.
Proof.
  intros H. apply Qabs_Qlt_condition in H. destruct H as [Hlo Hhi].
  apply Z.le_antisymm.
  - apply round_half_even_lt. lra.
  - apply round_half_even_gt. lra.
Qed.

Lemma Qdiv_100 x : (x / 100 == x * (1 # 100))%Q.
Proof. now field. Qed.

Lemma round2_of_two_decimals k :
  Z.abs k <= 2 ^ 50 -> round2 (fl (k # 100)) = fl (k # 100).
Proof.
  intros Hk. unfold round2.
  assert (E : (k # 100 == inject_Z k / 100)%Q).
  { unfold Qeq, Qdiv, Qmult, Qinv, inject_Z; simpl. lia. }
  rewrite (fl_comp _ _ E).
  rewrite (round_half_even_near _ k); [reflexivity|].
  pose proof (fl_error (inject_Z k / 100)) as H.
  assert (H1 : (inject_Z (- 2 ^ 50) <= inject_Z k)%Q)
    by (rewrite <- Zle_Qle; lia).
  assert (H2 : (inject_Z k <= inject_Z (2 ^ 50))%Q)
    by (rewrite <- Zle_Qle; lia).
  change (inject_Z (- 2 ^ 50)) with (- (1125899906842624))%Q in H1.
  change (inject_Z (2 ^ 50)) with 1125899906842624%Q in H2.
  generalize dependent (inject_Z k). intros K _ H H1 H2.
  assert (HB : (Qabs (K / 100) <= 1125899906842624 * (1 # 100))%Q).
  { apply Qabs_Qle_condition. rewrite Qdiv_100. split; lra. }
  remember (fl (K / 100)) as y eqn:Ey. clear Ey.
  remember (Qabs (K / 100)) as A eqn:EA. clear EA.
  apply Qabs_Qle_condition in H. destruct H as [Hlo Hhi].
  pose proof (Qdiv_100 K) as E100.
  remember (K / 100)%Q as K100 eqn:EK. clear EK.
  apply Qabs_Qlt_condition. unfold half_ulp, tiny in *. split; lra.
Qed.

Lemma round2_comp x y : (x == y)%Q -> round2 x = round2 y.
Proof.
  intros H. unfold round2.
  rewrite (round_half_even_comp (x * 100) (y * 100)); [reflexivity|].
  now rewrite H.
Qed.

Lemma round2_two_decimals x :
  exists k : Z,
    round2 x = fl (k # 100) /\ (Qabs (inject_Z k - x * 100) <= 1 # 2)%Q.
Proof.
  exists (round_half_even (x * 100)). split.
  - unfold round2. apply fl_comp.
    unfold Qeq, Qdiv, Qmult, Qinv, inject_Z; simpl. lia.
  - destruct (round_half_even_bounds (x * 100)).
    apply Qabs_Qle_condition. split; lra.
Qed.

Lemma DBL_OVERFLOW_large : 2 ^ 64 <= DBL_OVERFLOW.
Proof. vm_compute. discriminate. Qed.

Lemma true_div_ok a b :
  b <> 0 -> Z.abs a < 2 ^ 64 ->
  true_div a b = Ok (fl (inject_Z a / inject_Z b)).
Proof.
  intros Hb Ha. unfold true_div.
  destruct (Z.eqb_spec b 0) as [|_]; [contradiction|].
  pose proof DBL_OVERFLOW_large as HD.
  destruct (Z.leb_spec (DBL_OVERFLOW * Z.abs b) (Z.abs a)) as [Hle|_];
    [|reflexivity].
  exfalso. generalize dependent DBL_OVERFLOW. intros D. nia.
Qed.

(** ** Sorting *)

Section SortFacts.
Context {A : Type} (leb : A -> A -> bool).

Lemma insert_perm x l : Permutation (insert leb x l) (x :: l).
Proof.
  induction l as [|y l IH]; simpl; [reflexivity|].
  destruct (leb x y); [reflexivity|].
  rewrite IH. apply perm_swap.
Qed.

Lemma sort_perm l : Permutation (sort leb l) l.
Proof.
  induction l as [|x l IH]; simpl; [constructor|].
  rewrite insert_perm. now constructor.
Qed.

Lemma sort_length l : List.length (sort leb l) = List.length l.
Proof. apply Permutation_length, sort_perm. Qed.

Hypothesis leb_total : forall x y, leb x y = false -> leb y x = true.

Lemma insert_sorted x l :
  Sorted (fun a b => leb a b = true) l ->
  Sorted (fun a b => leb a b = true) (insert leb x l).
Proof.
  induction 1 as [|y l Hs IH Hhd]; simpl; [repeat constructor|].
  destruct (leb x y) eqn:E.
  - repeat constructor; auto.
  - constructor; [exact IH|].
    destruct l as [|z l]; simpl.
    + constructor. now apply leb_total.
    + destruct (leb x z); constructor; [now apply leb_total|].
      now inversion Hhd.
Qed.

Lemma sort_sorted l : Sorted (fun a b => leb a b = true) (sort leb l).
Proof.
  induction l as [|x l IH]; simpl; [constructor|].
  now apply insert_sorted.
Qed.

Lemma sort_of_sorted l :
  Sorted (fun a b => leb a b = true) l -> sort leb l = l.
Proof.
  induction 1 as [|x l Hs IH Hhd]; simpl; [reflexivity|].
  rewrite IH. destruct Hhd as [|y l Hxy]; simpl; [reflexivity|].
  now rewrite Hxy.
Qed.

End SortFacts.

(** A stable sort keeps the elements of equal key in their order.  The
    ranking puts the larger key first. *)
Section Stability.
Context {A : Type} (key : A -> nat).

Lemma insert_stable k x l :
  filter (fun a => (key a =? k)%nat) (insert (geb_by key) x l) =
  filter (fun a => (key a =? k)%nat) (x :: l).
Proof.
  induction l as [|y l IH]; [reflexivity|].
  simpl insert. unfold geb_by at 1.
  destruct (Nat.leb_spec (key y) (key x)) as [Hle|Hlt]; [reflexivity|].
  change (filter _ (y :: insert (geb_by key) x l)) with
    (if (key y =? k)%nat
     then y :: filter (fun a => (key a =? k)%nat) (insert (geb_by key) x l)
     else filter (fun a => (key a =? k)%nat) (insert (geb_by key) x l)).
  rewrite IH. simpl.
  destruct (Nat.eqb_spec (key y) k), (Nat.eqb_spec (key x) k);
    try reflexivity.
  lia.
Qed.

Lemma sort_stable k l :
  filter (fun a => (key a =? k)%nat) (sort (geb_by key) l) =
  filter (fun a => (key a =? k)%nat) l.
Proof.
  induction l as [|x l IH]; [reflexivity|].
  simpl sort. rewrite insert_stable. simpl. now rewrite IH.
Qed.

Lemma sort_descending l :
  StronglySorted (fun a b => (key b <= key a)%nat) (sort (geb_by key) l).
Proof.
  apply Sorted_StronglySorted.
  - intros a b c Hab Hbc. lia.
  - assert (H : Sorted (fun a b => geb_by key a b = true)
                       (sort (geb_by key) l)).
    { apply sort_sorted. intros x y. unfold geb_by.
      rewrite Nat.leb_le, Nat.leb_gt. lia. }
    induction H as [|x s Hs IH Hhd]; constructor; auto.
    destruct Hhd; constructor. now apply Nat.leb_le.
Qed.

End Stability.

Lemma sort_ascending (l : list Q) : StronglySorted Qle (sort Qle_bool l).
Proof.
  apply Sorted_StronglySorted.
  - intros a b c. apply Qle_trans.
  - assert (H : Sorted (fun a b => Qle_bool a b = true) (sort Qle_bool l)).
    { apply sort_sorted. intros x y Hxy.
      apply Qle_bool_iff. apply Qlt_le_weak, Qnot_le_lt.
      intros Hle. apply Qle_bool_iff in Hle. congruence. }
    induction H as [|x s Hs IH Hhd]; constructor; auto.
    destruct Hhd; constructor. now apply Qle_bool_iff.
Qed.

Lemma sort_idempotent (l : list Q) :
  sort Qle_bool (sort Qle_bool l) = sort Qle_bool l.
Proof.
  apply sort_of_sorted, sort_sorted. intros x y Hxy.
  apply Qle_bool_iff. apply Qlt_le_weak, Qnot_le_lt.
  intros Hle. apply Qle_bool_iff in Hle. congruence.
Qed.

(** ** Indexing and slicing *)

Lemma index_ok {A} (l : list A) i :
  0 <= i < Z.of_nat (List.length l) ->
  exists a, index l i = Ok a /\ nth_error l (Z.to_nat i) = Some a.
Proof.
  intros Hi. unfold index.
  assert (H1 : (i <? 0) = false) by (apply Z.ltb_ge; lia).
  assert (H2 : (Z.of_nat (List.length l) <=? i) = false)
    by (apply Z.leb_gt; lia).
  rewrite H1. cbv zeta iota. rewrite H1, H2. cbn [orb].
  destruct (nth_error l (Z.to_nat i)) as [a|] eqn:E;
    [exists a; split; reflexivity|].
  apply nth_error_None in E. lia.
Qed.

Lemma slice_to_nonneg {A} (l : list A) top :
  0 <= top -> slice_to top l = firstn (Z.to_nat top) l.
Proof.
  intros H. unfold slice_to. destruct (Z.ltb_spec top 0); [lia|reflexivity].
Qed.

Lemma slice_to_prefix {A} (l : list A) top :
  exists n, slice_to top l = firstn n l.
Proof. unfold slice_to. eauto. Qed.

(** ** The latency summary *)

Lemma fold_left_Qplus l : forall a, (fold_left Qplus l a == a + Qsum l)%Q.
Proof.
  induction l as [|x l IH]; intros a; simpl.
  - ring.
  - rewrite IH. ring.
Qed.

Lemma Qsum_perm l l' : Permutation l l' -> (Qsum l == Qsum l')%Q.
Proof.
  induction 1; simpl.
  - reflexivity.
  - now rewrite IHPermutation.
  - ring.
  - now rewrite IHPermutation1.
Qed.

Lemma mean_ok data :
  data <> [] ->
  mean data = Ok (fl (Qsum data / inject_Z (Z.of_nat (List.length data)))).
Proof.
  intros Hne. destruct data as [|x data]; [contradiction|].
  unfold mean. f_equal. apply fl_comp.
  rewrite fold_left_Qplus. now rewrite Qplus_0_l.
Qed.

Lemma Z_odd_mod n : 0 <= n -> (n mod 2 =? 1) = Z.odd n.
Proof.
  intros _. rewrite Zmod_odd. now destruct (Z.odd n).
Qed.

Lemma Z_odd_of_nat n : Z.odd (Z.of_nat n) = Nat.odd n.
Proof.
  assert (H : Z.odd (Z.of_nat n) = Nat.odd n /\
              Z.odd (Z.of_nat (S n)) = Nat.odd (S n)).
  { induction n as [|n [IH1 IH2]]; [now split|].
    split; [exact IH2|].
    replace (Z.of_nat (S (S n))) with (Z.succ (Z.succ (Z.of_nat n))) by lia.
    rewrite Z.odd_succ_succ, IH1. now rewrite Nat.odd_succ_succ. }
  apply H.
Qed.

Lemma median_ok s :
  s <> [] -> sort Qle_bool s = s ->
  exists med, median s = Ok med /\ is_median s med.
Proof.
  intros Hne Hs. unfold median, is_median. rewrite Hs. cbv zeta.
  assert (Hn : (0 < List.length s)%nat)
    by (destruct s; [contradiction|simpl; lia]).
  set (n := List.length s) in *.
  replace (Z.of_nat n =? 0) with false by (symmetry; apply Z.eqb_neq; lia).
  rewrite Z_odd_mod by lia.
  rewrite Z_odd_of_nat.
  assert (Hhalf : Z.of_nat n / 2 = Z.of_nat (n / 2))
    by (now rewrite Nat2Z.inj_div).
  assert (Hlt : (n / 2 < n)%nat) by (apply Nat.div_lt; lia).
  destruct (Nat.odd n) eqn:Hodd.
  - destruct (index_ok s (Z.of_nat n / 2)) as (a & Ha & Hnth); [fold n; lia|].
    exists a. split; [exact Ha|].
    now rewrite Hhalf, Nat2Z.id in Hnth.
  - assert (Hpos : (1 <= n / 2)%nat).
    { destruct n as [|[|n']]; [lia|discriminate|].
      change (S (S n')) with (2 + n')%nat.
      apply Nat.div_le_lower_bound; lia. }
    destruct (index_ok s (Z.of_nat n / 2 - 1)) as (lo & Hlo & Hnlo);
      [fold n; lia|].
    destruct (index_ok s (Z.of_nat n / 2)) as (hi & Hhi & Hnhi);
      [fold n; lia|].
    rewrite Hlo, Hhi. unfold bind. eexists. split; [reflexivity|].
    exists lo, hi. repeat split.
    + rewrite <- Hnlo, Hhalf. f_equal. lia.
    + rewrite <- Hnhi, Hhalf. f_equal. lia.
Qed.

Lemma summarize_nonempty l :
  l <> [] ->
  exists avg med p90,
    summarize_response_times l =
    Ok (Summary.mk (List.length l) (Some (round2 avg)) (Some (round2 med))
                   (Some (round2 p90))) /\
    avg = fl (Qsum l / inject_Z (Z.of_nat (List.length l))) /\
    is_median (sort Qle_bool l) med /\
    nth_error (sort Qle_bool l) (Z.to_nat (p90_index (List.length l)))
      = Some p90.
Proof.
  intros Hne. unfold summarize_response_times.
  destruct l as [|x l]; [contradiction|].
  set (s := sort Qle_bool (x :: l)).
  assert (Hlen : List.length s = List.length (x :: l)) by apply sort_length.
  assert (Hsne : s <> []) by (intros E; rewrite E in Hlen; discriminate).
  pose proof (mean_ok s Hsne) as Havg.
  destruct (median_ok s Hsne (sort_idempotent _)) as (med & Hmed & Hmed').
  destruct (index_ok s (p90_index (List.length s))) as (p90 & Hp & Hp').
  { pose proof (p90_index_range (List.length s)) as Hr.
    rewrite Hlen in *. simpl List.length in *. lia. }
  eexists _, med, p90. rewrite Havg, Hmed, Hp. simpl bind.
  rewrite Hlen in *. repeat split; auto.
  apply fl_comp. now rewrite (Qsum_perm s (x :: l)) by apply sort_perm.
Qed.

Lemma p90_index_one : p90_index 1 = 0.
Proof. vm_compute. reflexivity. Qed.

Lemma summarize_total l : exists s, summarize_response_times l = Ok s.
Proof.
  destruct l as [|x l]; [eexists; reflexivity|].
  destruct (summarize_nonempty (x :: l)) as (a & m & p & H & _);
    [discriminate|eauto].
Qed.

(** C4, as the code has it: the empty list gives the empty summary; a
    single float [x] gives count 1 and three times [round(x, 2)], which is
    [x] itself when [x] is the float of a number with at most two decimals;
    for every non-empty list the three statistics are the mean, the median
    and the element of the ascending sort at index
    [round(0.9 * (n - 1))] (within [0, n - 1]), each rounded to the float
    of the nearest multiple of 1/100; and the ten latencies 1..10 give
    index 8 and the value 9. *)
Theorem summarize_response_times_spec :
  summarize_response_times [] = Ok (Summary.mk 0 None None None) /\
  (forall x,
      (fl x == x)%Q ->
      summarize_response_times [x] =
      Ok (Summary.mk 1 (Some (round2 x)) (Some (round2 x))
                     (Some (round2 x)))) /\
  (forall k : Z,
      Z.abs k <= 2 ^ 50 -> round2 (fl (k # 100)) = fl (k # 100)) /\
  (forall l, l <> [] ->
     let n := Z.of_nat (List.length l) in
     let sorted_vals := sort Qle_bool l in
     exists avg med p90,
       summarize_response_times l =
       Ok (Summary.mk (List.length l) (Some (round2 avg))
                      (Some (round2 med)) (Some (round2 p90))) /\
       Permutation sorted_vals l /\ StronglySorted Qle sorted_vals /\
       avg = fl (Qsum l / inject_Z n) /\
       is_median sorted_vals med /\
       p90_index (List.length l)
         = Z.max 0 (round_half_even
                      (float_mul (fl (9 # 10)) (fl (inject_Z (n - 1))))) /\
       0 <= p90_index (List.length l) <= n - 1 /\
       nth_error sorted_vals (Z.to_nat (p90_index (List.length l)))
         = Some p90) /\
  (forall x,
      exists k : Z,
        round2 x = fl (k # 100) /\
        (Qabs (inject_Z k - x * 100) <= 1 # 2)%Q) /\
  p90_index 10 = 8 /\
  summarize_response_times one_to_ten =
  Ok (Summary.mk 10 (Some (11 # 2)) (Some (11 # 2)) (Some 9%Q)).
Proof.
  split; [reflexivity|].
  split.
  { intros x Hx.
    destruct (summarize_nonempty [x]) as (avg & med & p90 & H & Ha & Hm & Hp);
      [discriminate|].
    rewrite H. change (sort Qle_bool [x]) with [x] in Hm, Hp.
    change (List.length [x]) with 1%nat in Hp. rewrite p90_index_one in Hp.
    unfold is_median in Hm. cbn in Hm, Hp.
    injection Hm as <-. injection Hp as <-.
    rewrite (round2_comp avg x); [reflexivity|].
    subst avg. rewrite (fl_comp _ x); [exact Hx|].
    unfold Qsum. simpl. field. }
  split; [apply round2_of_two_decimals|].
  split.
  { intros l Hne n sorted_vals.
    destruct (summarize_nonempty l Hne) as (avg & med & p90 & H & Ha & Hm & Hp).
    assert (Hr : 0 <= p90_index (List.length l)
                 <= Z.of_nat (List.length l) - 1).
    { apply p90_index_range. destruct l; [contradiction|simpl; lia]. }
    exists avg, med, p90.
    split; [exact H|]. split; [apply sort_perm|].
    split; [apply sort_ascending|]. split; [exact Ha|].
    split; [exact Hm|]. split; [reflexivity|].
    split; [exact Hr|exact Hp]. }
  split; [apply round2_two_decimals|].
  split; vm_compute; reflexivity.
Qed.

Lemma summarize_response_times_spec_witness :
  summarize_response_times [1 # 4]%Q =
  Ok (Summary.mk 1 (Some (1 # 4)) (Some (1 # 4)) (Some (1 # 4)))%Q.
Proof.
  destruct summarize_response_times_spec as (_ & Hone & Htwo & _).
  rewrite (Hone (1 # 4)%Q) by reflexivity.
  change (1 # 4)%Q with (fl (25 # 100)).
  rewrite (Htwo 25) by (vm_compute; discriminate).
  reflexivity.
Defined.

(** The statement of C4 for a single value fails when the value has more
    than two decimals: one eighth of a minute, which is a float, is
    reported as 0.12. *)
Lemma summarize_single_rounds :
  (fl (1 # 8) == 1 # 8)%Q /\
  summarize_response_times [1 # 8]%Q <>
  Ok (Summary.mk 1 (Some (1 # 8)) (Some (1 # 8)) (Some (1 # 8)))%Q.
Proof. split; [reflexivity|]. vm_compute. discriminate. Qed.

(** ** The timestamp scale *)

(** C7: [detect_date_scale] returns a pair for every nullable maximum, by
    the first matching rule: absent or zero gives seconds; above 1e17
    nanoseconds; above 1e14 microseconds; above 1e11 milliseconds;
    anything else seconds.  The divisor is always one of 1, 10^3, 10^6
    and 10^9, and 700000000000000000 is read as nanoseconds. *)
Theorem detect_date_scale_rules (v : option Z) :
  (v = None \/ v = Some 0 ->
   detect_date_scale v = (1, "seconds"%string)) /\
  (forall z, v = Some z -> 10 ^ 17 < z ->
   detect_date_scale v = (1000000000, "nanoseconds"%string)) /\
  (forall z, v = Some z -> 10 ^ 14 < z <= 10 ^ 17 ->
   detect_date_scale v = (1000000, "microseconds"%string)) /\
  (forall z, v = Some z -> 10 ^ 11 < z <= 10 ^ 14 ->
   detect_date_scale v = (1000, "milliseconds"%string)) /\
  (forall z, v = Some z -> z <= 10 ^ 11 ->
   detect_date_scale v = (1, "seconds"%string)) /\
  (exists divisor label,
      detect_date_scale v = (divisor, label) /\
      (divisor = 1 \/ divisor = 10 ^ 3 \/ divisor = 10 ^ 6 \/
       divisor = 10 ^ 9)) /\
  detect_date_scale (Some 700000000000000000)
    = (1000000000, "nanoseconds"%string).
Proof.
  assert (Hrule : forall z, z <> 0 ->
            detect_date_scale (Some z) =
            if 10 ^ 17 <? z then (1000000000, "nanoseconds"%string)
            else if 10 ^ 14 <? z then (1000000, "microseconds"%string)
            else if 10 ^ 11 <? z then (1000, "milliseconds"%string)
            else (1, "seconds"%string)).
  { intros z Hz. unfold detect_date_scale, truthy_int.
    now destruct (Z.eqb_spec z 0). }
  repeat split.
  - intros [->| ->]; reflexivity.
  - intros z -> Hz. rewrite Hrule by lia.
    destruct (Z.ltb_spec (10 ^ 17) z); [reflexivity|lia].
  - intros z -> [Hlo Hhi]. rewrite Hrule by lia.
    destruct (Z.ltb_spec (10 ^ 17) z); [lia|].
    destruct (Z.ltb_spec (10 ^ 14) z); [reflexivity|lia].
  - intros z -> [Hlo Hhi]. rewrite Hrule by lia.
    destruct (Z.ltb_spec (10 ^ 17) z); [lia|].
    destruct (Z.ltb_spec (10 ^ 14) z); [lia|].
    destruct (Z.ltb_spec (10 ^ 11) z); [reflexivity|lia].
  - intros z -> Hz. destruct (Z.eq_dec z 0) as [->|Hnz]; [reflexivity|].
    rewrite Hrule by exact Hnz.
    destruct (Z.ltb_spec (10 ^ 17) z); [lia|].
    destruct (Z.ltb_spec (10 ^ 14) z); [lia|].
    destruct (Z.ltb_spec (10 ^ 11) z); [lia|reflexivity].
  - destruct v as [z|]; [|do 2 eexists; split; [reflexivity|now left]].
    destruct (Z.eq_dec z 0) as [->|Hnz];
      [do 2 eexists; split; [reflexivity|now left]|].
    rewrite Hrule by exact Hnz.
    destruct (10 ^ 17 <? z);
      [do 2 eexists; split; [reflexivity|now (do 3 right)]|].
    destruct (10 ^ 14 <? z);
      [do 2 eexists; split; [reflexivity|now (right; right; left)]|].
    destruct (10 ^ 11 <? z);
      [do 2 eexists; split; [reflexivity|now (right; left)]|].
    do 2 eexists; split; [reflexivity|now left].
Qed.

Lemma detect_date_scale_rules_witness :
  detect_date_scale (Some 1700000000000)
    = (1000, "milliseconds"%string).
Proof.
  destruct (detect_date_scale_rules (Some 1700000000000))
    as (_ & _ & _ & H & _).
  apply (H 1700000000000); [reflexivity|lia].
Defined.

(** ** Grouping by conversation *)

Lemma first_seen_snoc ids k :
  first_seen (ids ++ [k]) =
  if existsb (Z.eqb k) ids then first_seen ids else first_seen ids ++ [k].
Proof.
  induction ids as [|a ids IH]; [reflexivity|].
  simpl. rewrite IH.
  destruct (Z.eqb_spec k a) as [->|Hka]; simpl.
  - destruct (existsb (Z.eqb a) ids); [reflexivity|].
    rewrite filter_app. simpl. rewrite Z.eqb_refl. simpl.
    now rewrite app_nil_r.
  - destruct (existsb (Z.eqb k) ids); [reflexivity|].
    rewrite filter_app. simpl.
    destruct (Z.eqb_spec k a); [contradiction|reflexivity].
Qed.

Lemma first_seen_In ids k : In k (first_seen ids) <-> In k ids.
Proof.
  induction ids as [|a ids IH]; [reflexivity|].
  simpl. rewrite filter_In, IH.
  destruct (Z.eqb_spec k a) as [->|Hka]; simpl.
  - split; auto.
  - split; [intros [?|[? _]]; auto|].
    intros [?|?]; [now left|right; split; auto].
Qed.

Lemma first_seen_NoDup ids : NoDup (first_seen ids).
Proof.
  induction ids as [|a ids IH]; simpl; constructor.
  - rewrite filter_In. intros [_ H]. now rewrite Z.eqb_refl in H.
  - now apply NoDup_filter.
Qed.

Lemma existsb_eqb_In k ids : existsb (Z.eqb k) ids = true <-> In k ids.
Proof.
  rewrite existsb_exists. split.
  - intros (x & Hx & E). apply Z.eqb_eq in E. now subst.
  - intros H. exists k. split; [exact H|apply Z.eqb_refl].
Qed.

Lemma conversation_snoc k pre m :
  conversation k (pre ++ [m]) =
  conversation k pre ++ (if chat_id m =? k then [m] else []).
Proof. unfold conversation. rewrite filter_app. reflexivity. Qed.

Lemma conversation_absent k l :
  ~ In k (map chat_id l) -> conversation k l = [].
Proof.
  induction l as [|m l IH]; [reflexivity|]. simpl. intros H.
  destruct (Z.eqb_spec (chat_id m) k) as [E|_]; [tauto|].
  apply IH. tauto.
Qed.

Lemma setdefault_append_present m pre keys :
  NoDup keys -> In (chat_id m) keys ->
  setdefault_append (chat_id m) m
    (map (fun k => (k, conversation k pre)) keys) =
  map (fun k => (k, conversation k (pre ++ [m]))) keys.
Proof.
  induction keys as [|k keys IH]; intros Hnd Hin; [destruct Hin|].
  inversion Hnd as [|? ? Hk Hnd']; subst. simpl.
  rewrite conversation_snoc.
  destruct (Z.eqb_spec k (chat_id m)) as [->|Hne].
  - rewrite Z.eqb_refl. f_equal.
    apply map_ext_in. intros k' Hk'. rewrite conversation_snoc.
    destruct (Z.eqb_spec (chat_id m) k') as [<-|_]; [contradiction|].
    now rewrite app_nil_r.
  - destruct (Z.eqb_spec (chat_id m) k) as [E|_]; [congruence|].
    rewrite app_nil_r. f_equal. apply IH; [exact Hnd'|].
    destruct Hin; [congruence|assumption].
Qed.

Lemma setdefault_append_absent m pre keys :
  ~ In (chat_id m) keys ->
  setdefault_append (chat_id m) m
    (map (fun k => (k, conversation k pre)) keys) =
  map (fun k => (k, conversation k (pre ++ [m]))) keys
    ++ [(chat_id m, [m])].
Proof.
  induction keys as [|k keys IH]; intros Hin; [reflexivity|].
  simpl in *. rewrite conversation_snoc.
  destruct (Z.eqb_spec k (chat_id m)) as [E|Hne]; [tauto|].
  destruct (Z.eqb_spec (chat_id m) k) as [E|_]; [congruence|].
  rewrite app_nil_r. f_equal. apply IH. tauto.
Qed.

Lemma group_by_chat_fold msgs : forall pre,
  fold_left (fun d msg => setdefault_append (chat_id msg) msg d) msgs
    (map (fun k => (k, conversation k pre)) (first_seen (map chat_id pre))) =
  map (fun k => (k, conversation k (pre ++ msgs)))
      (first_seen (map chat_id (pre ++ msgs))).
Proof.
  induction msgs as [|m msgs IH]; intros pre.
  - now rewrite app_nil_r.
  - simpl fold_left.
    replace (pre ++ m :: msgs) with ((pre ++ [m]) ++ msgs)
      by (now rewrite <- app_assoc).
    rewrite <- IH. f_equal.
    rewrite map_app. simpl map. rewrite first_seen_snoc.
    destruct (existsb (Z.eqb (chat_id m)) (map chat_id pre)) eqn:E.
    + apply setdefault_append_present; [apply first_seen_NoDup|].
      apply first_seen_In. now apply existsb_eqb_In.
    + rewrite setdefault_append_absent.
      * rewrite map_app. simpl. f_equal. f_equal. f_equal.
        rewrite conversation_snoc, Z.eqb_refl.
        rewrite conversation_absent; [reflexivity|].
        intros H. apply existsb_eqb_In in H. congruence.
      * rewrite first_seen_In. intros H.
        apply existsb_eqb_In in H. congruence.
Qed.

(** The dictionary [messages_by_chat] lists the conversations in the order
    of their first message, each with its messages in input order. *)
Lemma group_by_chat_spec messages :
  group_by_chat messages =
  map (fun k => (k, conversation k messages))
      (first_seen (map chat_id messages)).
Proof. exact (group_by_chat_fold messages []). Qed.

Lemma group_by_chat_keys messages :
  map fst (group_by_chat messages) = first_seen (map chat_id messages).
Proof.
  rewrite group_by_chat_spec, map_map. simpl. apply map_id.
Qed.

Lemma group_by_chat_In messages k msgs :
  In (k, msgs) (group_by_chat messages) ->
  msgs = conversation k messages /\ msgs <> [].
Proof.
  rewrite group_by_chat_spec, in_map_iff.
  intros (k' & [= -> <-] & Hin). split; [reflexivity|].
  apply first_seen_In, in_map_iff in Hin as (m & Hk & Hm).
  intros E. assert (Hc : In m (conversation k messages)).
  { apply filter_In. split; [exact Hm|]. now apply Z.eqb_eq. }
  now rewrite E in Hc.
Qed.

(** Every message lies in exactly one conversation: a quantity summed over
    the conversations is the quantity summed over the input. *)
Lemma setdefault_append_weight (f : Message -> nat) k m d :
  list_sum (map (fun item => list_sum (map f (snd item)))
                (setdefault_append k m d)) =
  (list_sum (map (fun item => list_sum (map f (snd item))) d) + f m)%nat.
Proof.
  induction d as [|[k' l] d IH]; simpl; [lia|].
  destruct (k' =? k); simpl.
  - rewrite map_app, list_sum_app. simpl. lia.
  - rewrite IH. lia.
Qed.

Lemma group_by_chat_weight (f : Message -> nat) messages :
  list_sum (map (fun item => list_sum (map f (snd item)))
                (group_by_chat messages)) =
  list_sum (map f messages).
Proof.
  unfold group_by_chat.
  assert (H : forall d,
    list_sum (map (fun item => list_sum (map f (snd item)))
       (fold_left (fun d msg => setdefault_append (chat_id msg) msg d)
                  messages d)) =
    (list_sum (map (fun item => list_sum (map f (snd item))) d)
     + list_sum (map f messages))%nat).
  { induction messages as [|m messages IH]; intros d; simpl; [lia|].
    rewrite IH, setdefault_append_weight. lia. }
  now rewrite H.
Qed.

(** ** One message *)

Lemma bind_Ok {A B} (c : result A) (k : A -> result B) b :
  bind c k = Ok b -> exists a, c = Ok a /\ k a = Ok b.
Proof. destruct c as [a|e]; simpl; [eauto|discriminate]. Qed.

Lemma true_div_inv a b q :
  true_div a b = Ok q -> q = delta_seconds b a 0.
Proof.
  unfold true_div, delta_seconds. rewrite Z.sub_0_r.
  destruct (b =? 0); [discriminate|].
  destruct (DBL_OVERFLOW * Z.abs b <=? Z.abs a); [discriminate|].
  now intros [= <-].
Qed.

Lemma true_div_sub divisor n d :
  divisor <> 0 -> sqlite_int (Some n) = true -> sqlite_int (Some d) = true ->
  true_div (n - d) divisor = Ok (delta_seconds divisor n d).
Proof.
  intros Hd Hn Hs. apply true_div_ok; [exact Hd|].
  unfold sqlite_int in Hn, Hs.
  apply andb_prop in Hn as [Hn1 Hn2]. apply andb_prop in Hs as [Hs1 Hs2].
  apply Z.leb_le in Hn1, Hs1. apply Z.ltb_lt in Hn2, Hs2. lia.
Qed.

Lemma count_left_true m a : count_left m true a = a.
Proof. unfold count_left. now destruct (is_from_me m =? 1). Qed.

Lemma step_message_inv divisor thr a m next a' :
  step_message divisor thr a m next = Ok a' ->
  a' = message_effect divisor thr a m next.
Proof.
  unfold step_message, message_effect, latency_sample, left_on_read,
    truthy_int.
  set (a1 := count_direction m a).
  intros H. apply bind_Ok in H as (a2 & H2 & H).
  assert (E2 : a2 = match next, date_raw m with
                    | Some n, Some d =>
                        if Qle_bool 0 (delta_seconds divisor n d)
                        then append_reply m
                               (float_div (delta_seconds divisor n d) 60) a1
                        else a1
                    | _, _ => a1
                    end).
  { destruct next as [n|], (date_raw m) as [d|]; try congruence.
    apply bind_Ok in H2 as (dt & Hdt & H2).
    apply true_div_inv in Hdt. subst dt.
    unfold delta_seconds in *. rewrite Z.sub_0_r in H2.
    destruct (Qle_bool 0 _); congruence. }
  clear H2.
  assert (E : a' = match date_read_raw m, date_raw m with
                   | Some r, Some _ =>
                       if negb (r =? 0) &&
                          negb match next with
                               | Some n =>
                                   Qle_bool 0 (delta_seconds divisor n r) &&
                                   Qle_bool (delta_seconds divisor n r) thr
                               | None => false
                               end
                       then count_left m false a2 else a2
                   | _, _ => a2
                   end).
  { cbv zeta in H.
    destruct (date_read_raw m) as [r|]; [|cbn in H; congruence].
    destruct (r =? 0); cbn [negb andb] in *;
      [destruct (date_raw m); congruence|].
    destruct (date_raw m) as [d|]; [|congruence].
    apply bind_Ok in H as (replied & Hr & H).
    injection H as <-.
    destruct next as [n|].
    - apply bind_Ok in Hr as (dt & Hdt & Hr).
      apply true_div_inv in Hdt. subst dt.
      unfold delta_seconds in *. rewrite Z.sub_0_r in Hr.
      injection Hr as <-.
      destruct (Qle_bool 0 _ && Qle_bool _ thr); simpl;
        [apply count_left_true|reflexivity].
    - now injection Hr as <-. }
  rewrite E, E2.
  destruct (date_read_raw m) as [r|], (date_raw m) as [d|], next as [n|];
    try reflexivity;
    destruct (Qle_bool 0 (delta_seconds divisor n d)); reflexivity.
Qed.

Lemma step_message_ok divisor thr a m next :
  divisor <> 0 -> wf_message m = true -> sqlite_int next = true ->
  step_message divisor thr a m next =
  Ok (message_effect divisor thr a m next).
Proof.
  intros Hd Hwf Hnext.
  assert (H : exists a', step_message divisor thr a m next = Ok a').
  { unfold wf_message in Hwf. apply andb_prop in Hwf as [Hs Hr].
    unfold step_message, truthy_int.
    destruct next as [n|], (date_raw m) as [d|], (date_read_raw m) as [r|];
      rewrite ?true_div_sub by assumption; simpl;
      try destruct (r =? 0); simpl;
      rewrite ?true_div_sub by assumption; simpl;
      try destruct (Qle_bool 0 (delta_seconds divisor n d)); simpl; eauto. }
  destruct H as (a' & H). rewrite H.
  now rewrite (step_message_inv _ _ _ _ _ _ H).
Qed.

Lemma message_effect_fields divisor thr a m next :
  let a' := message_effect divisor thr a m next in
  let lor := left_on_read divisor thr m next in
  sent a' = (sent a + if from_me m then 1 else 0)%nat /\
  received a' = (received a + if from_me m then 0 else 1)%nat /\
  you_left a' = (you_left a + if negb (from_me m) && lor then 1 else 0)%nat /\
  them_left a' = (them_left a + if from_me m && lor then 1 else 0)%nat /\
  you_reply a' = you_reply a ++ samples_of false divisor (m, next) /\
  them_reply a' = them_reply a ++ samples_of true divisor (m, next).
Proof.
  unfold message_effect, samples_of, count_direction, append_reply,
    count_left, from_me. simpl fst. simpl snd.
  destruct (is_from_me m =? 1), (latency_sample divisor m next),
    (left_on_read divisor thr m next); simpl;
    rewrite ?app_nil_r, ?Nat.add_0_r; repeat split; reflexivity.
Qed.

Lemma left_on_read_iff divisor threshold_hours m next :
  left_on_read divisor (float_mul threshold_hours 3600) m next = true <->
  left_on_read_rule divisor threshold_hours m next.
Proof.
  unfold left_on_read, left_on_read_rule, left_on_read_as_specified,
    replied_within.
  destruct (date_read_raw m) as [r|].
  2:{ split; [discriminate|]. intros (_ & r & Hr & _). discriminate. }
  destruct (date_raw m) as [d|].
  2:{ split; [discriminate|]. intros (Hd & _). now contradiction Hd. }
  rewrite andb_true_iff, !negb_true_iff, Z.eqb_neq. split.
  - intros [Hr Hnot]. split; [discriminate|].
    exists r. repeat split; auto.
    intros (n & -> & H0 & Hthr).
    apply Qle_bool_iff in H0, Hthr. now rewrite H0, Hthr in Hnot.
  - intros (_ & r' & [= <-] & Hr & Hnot). split; [exact Hr|].
    destruct next as [n|]; [|reflexivity].
    apply not_true_is_false. intros H. apply Hnot. exists n.
    apply andb_prop in H as [H0 Hthr].
    apply Qle_bool_iff in H0, Hthr. auto.
Qed.

Lemma left_on_read_counts divisor thr a m next :
  counts_exactly_when (left_on_read divisor thr m next = true) m a
    (message_effect divisor thr a m next).
Proof.
  destruct (message_effect_fields divisor thr a m next)
    as (_ & _ & Hy & Ht & _).
  unfold counts_exactly_when, counted_left, not_counted_left.
  rewrite Hy, Ht. split.
  - intros ->. destruct (from_me m); simpl; lia.
  - intros H. apply not_true_is_false in H. rewrite H.
    rewrite !andb_false_r. lia.
Qed.

(** ** One conversation *)

Lemma chat_loop_inv divisor thr msgs : forall a times a',
  chat_loop divisor thr a msgs times = Ok a' ->
  a' = chat_effect divisor thr a (combine msgs times).
Proof.
  induction msgs as [|m msgs IH]; intros a times a' H; simpl in H.
  - now injection H as <-.
  - destruct times as [|t times]; [discriminate|].
    apply bind_Ok in H as (a1 & H1 & H).
    apply step_message_inv in H1. subst a1.
    now apply IH in H.
Qed.

Lemma chat_loop_ok divisor thr msgs : forall a times,
  divisor <> 0 -> forallb wf_message msgs = true ->
  forallb sqlite_int times = true ->
  List.length times = List.length msgs ->
  chat_loop divisor thr a msgs times =
  Ok (chat_effect divisor thr a (combine msgs times)).
Proof.
  induction msgs as [|m msgs IH]; intros a times Hd Hwf Ht Hlen;
    [reflexivity|].
  destruct times as [|t times]; [discriminate|].
  simpl in Hwf, Ht, Hlen.
  apply andb_prop in Hwf as [Hm Hwf]. apply andb_prop in Ht as [Ht1 Ht].
  simpl. rewrite step_message_ok by assumption. simpl.
  apply IH; auto.
Qed.

Lemma first_date_sqlite me l :
  forallb wf_message l = true -> sqlite_int (first_date me l) = true.
Proof.
  induction l as [|m l IH]; intros H; [reflexivity|].
  simpl in H. apply andb_prop in H as [Hm H]. simpl.
  unfold wf_message in Hm. apply andb_prop in Hm as [Hm _].
  destruct (Bool.eqb (from_me m) me); [|now apply IH].
  destruct (date_raw m); [exact Hm|now apply IH].
Qed.

Lemma scan_times_sqlite l :
  forallb wf_message l = true ->
  forallb sqlite_int (next_reply_time_raw (scan l)) = true.
Proof.
  induction l as [|m l IH]; intros H; [reflexivity|].
  rewrite scan_times_cons. simpl in *.
  apply andb_prop in H as [_ H].
  now rewrite first_date_sqlite, IH.
Qed.

Lemma analyze_chat_inv divisor thr msgs a :
  analyze_chat divisor thr msgs = Ok a ->
  a = chat_effect divisor thr (mkChatAcc 0 0 0 0 [] [])
                  (with_next divisor msgs).
Proof. apply chat_loop_inv. Qed.

Lemma analyze_chat_ok divisor thr msgs :
  well_formed msgs divisor ->
  analyze_chat divisor thr msgs =
  Ok (chat_effect divisor thr (mkChatAcc 0 0 0 0 [] [])
                  (with_next divisor msgs)).
Proof.
  intros [Hd Hwf]. apply chat_loop_ok; auto.
  - now apply scan_times_sqlite.
  - apply scan_lengths.
Qed.

Lemma with_next_fst divisor msgs : map fst (with_next divisor msgs) = msgs.
Proof.
  unfold with_next, next_opposite_times. simpl.
  pose proof (proj1 (scan_lengths msgs)) as Hlen.
  revert Hlen. generalize (next_reply_time_raw (scan msgs)).
  induction msgs as [|m msgs IH]; intros [|t ts] Hlen; try discriminate;
    [reflexivity|].
  simpl. f_equal. apply IH. now injection Hlen.
Qed.

Lemma chat_effect_fields divisor thr pairs : forall a,
  let a' := chat_effect divisor thr a pairs in
  let lor p := left_on_read divisor thr (fst p) (snd p) in
  sent a' =
    (sent a + List.length (filter (fun p => from_me (fst p)) pairs))%nat /\
  received a' =
    (received a
     + List.length (filter (fun p => negb (from_me (fst p))) pairs))%nat /\
  you_left a' =
    (you_left a
     + List.length (filter (fun p => negb (from_me (fst p)) && lor p)
                           pairs))%nat /\
  them_left a' =
    (them_left a
     + List.length (filter (fun p => from_me (fst p) && lor p) pairs))%nat /\
  you_reply a' = you_reply a ++ flat_map (samples_of false divisor) pairs /\
  them_reply a' = them_reply a ++ flat_map (samples_of true divisor) pairs.
Proof.
  induction pairs as [|[m next] pairs IH]; intros a.
  - simpl. rewrite !app_nil_r, !Nat.add_0_r. repeat split.
  - cbv zeta in *. unfold chat_effect in *. simpl fold_left.
    destruct (IH (message_effect divisor thr a m next))
      as (H1 & H2 & H3 & H4 & H5 & H6).
    destruct (message_effect_fields divisor thr a m next)
      as (F1 & F2 & F3 & F4 & F5 & F6).
    rewrite H1, H2, H3, H4, H5, H6, F1, F2, F3, F4, F5, F6.
    simpl filter. simpl flat_map. simpl fst. simpl snd.
    rewrite <- !app_assoc.
    destruct (from_me m), (left_on_read divisor thr m next); simpl;
      repeat split; lia.
Qed.

(** ** Left on read *)

(** C10: a message whose read timestamp is present and not zero but whose
    send timestamp is null is processed without error, whatever the
    divisor and the next-opposite timestamp, and is not counted as left on
    read in either direction. *)
Theorem unsent_message_never_left_on_read divisor thr a m next r :
  date_read_raw m = Some r -> r <> 0 -> date_raw m = None ->
  exists a',
    step_message divisor thr a m next = Ok a' /\
    not_counted_left a a' /\ ~ counted_left m a a'.
Proof.
  intros Hr Hr0 Hs.
  assert (H : step_message divisor thr a m next = Ok (count_direction m a)).
  { unfold step_message, truthy_int. rewrite Hs, Hr.
    destruct next; simpl; destruct (r =? 0); reflexivity. }
  eexists. split; [exact H|].
  unfold not_counted_left, counted_left, count_direction, from_me.
  destruct (is_from_me m =? 1); simpl; split; auto; lia.
Qed.

Lemma unsent_message_never_left_on_read_witness :
  exists a',
    step_message 1 (float_mul 24 3600) (mkChatAcc 0 0 0 0 [] [])
                 read_but_undated None = Ok a' /\
    not_counted_left (mkChatAcc 0 0 0 0 [] []) a'.
Proof.
  destruct (unsent_message_never_left_on_read 1 (float_mul 24 3600)
              (mkChatAcc 0 0 0 0 [] []) read_but_undated None 5)
    as (a' & H & Hn & _); try reflexivity; [discriminate|].
  exists a'. split; [exact H|exact Hn].
Defined.

(** ** The whole report *)

Lemma dict_set_absent {V} k (v : V) d :
  ~ In k (map fst d) -> dict_set k v d = d ++ [(k, v)].
Proof.
  induction d as [|[k' v'] d IH]; intros H; [reflexivity|].
  simpl in *. destruct (Z.eqb_spec k' k) as [E|_]; [tauto|].
  f_equal. apply IH. tauto.
Qed.

Lemma step_chat_inv divisor thr r k msgs r' :
  step_chat divisor thr r (k, msgs) = Ok r' ->
  exists a c,
    conversation_result divisor thr (k, msgs) (a, c) /\
    r' = {| totals_sent := totals_sent r + sent a;
            totals_received := totals_received r + received a;
            left_on_read_you := left_on_read_you r + you_left a;
            left_on_read_them := left_on_read_them r + them_left a;
            you_reply_minutes := you_reply_minutes r ++ you_reply a;
            them_reply_minutes := them_reply_minutes r ++ them_reply a;
            chats := dict_set k c (chats r) |}.
Proof.
  unfold step_chat. intros H.
  apply bind_Ok in H as (a & Ha & H).
  apply bind_Ok in H as (you & Hyou & H).
  apply bind_Ok in H as (they & Hthey & H).
  injection H as <-.
  exists a, (chat_dict k msgs a you they). split; [|reflexivity].
  split; [exact Ha|]. exists you, they. auto.
Qed.

Lemma chats_loop_inv divisor thr items : forall r r',
  chats_loop divisor thr r items = Ok r' ->
  NoDup (map fst (chats r) ++ map fst items) ->
  exists results,
    Forall2 (conversation_result divisor thr) items results /\
    chats r' = chats r ++ combine (map fst items) (map snd results) /\
    totals_sent r' =
      (totals_sent r
       + list_sum (map (fun res => sent (fst res)) results))%nat /\
    totals_received r' =
      (totals_received r
       + list_sum (map (fun res => received (fst res)) results))%nat /\
    left_on_read_you r' =
      (left_on_read_you r
       + list_sum (map (fun res => you_left (fst res)) results))%nat /\
    left_on_read_them r' =
      (left_on_read_them r
       + list_sum (map (fun res => them_left (fst res)) results))%nat /\
    you_reply_minutes r' =
      you_reply_minutes r
        ++ flat_map (fun res => you_reply (fst res)) results /\
    them_reply_minutes r' =
      them_reply_minutes r
        ++ flat_map (fun res => them_reply (fst res)) results.
Proof.
  induction items as [|[k msgs] items IH]; intros r r' H Hnd; simpl in H.
  - injection H as <-. exists []. simpl.
    rewrite !app_nil_r, !Nat.add_0_r. repeat split. constructor.
  - apply bind_Ok in H as (r1 & H1 & H).
    apply step_chat_inv in H1 as (a & c & Hres & ->).
    assert (Habs : ~ In k (map fst (chats r))).
    { intros Hin. simpl in Hnd. apply NoDup_remove_2 in Hnd.
      apply Hnd, in_or_app. now left. }
    apply IH in H; simpl chats.
    2:{ rewrite dict_set_absent by exact Habs.
        rewrite map_app. simpl. rewrite <- app_assoc. exact Hnd. }
    destruct H as (results & HF & Hc & H1 & H2 & H3 & H4 & H5 & H6).
    exists ((a, c) :: results). simpl in *.
    rewrite Hc, H1, H2, H3, H4, H5, H6.
    rewrite dict_set_absent by exact Habs.
    rewrite <- !app_assoc. simpl.
    repeat split; try lia. now constructor.
Qed.

Lemma chats_loop_ok divisor thr items : forall r,
  Forall (fun item => well_formed (snd item) divisor) items ->
  exists r', chats_loop divisor thr r items = Ok r'.
Proof.
  induction items as [|[k msgs] items IH]; intros r Hwf; simpl.
  - eauto.
  - inversion Hwf as [|? ? Hm Hwf']; subst. simpl in Hm.
    unfold step_chat. rewrite (analyze_chat_ok _ _ _ Hm). simpl.
    destruct (summarize_total
                (you_reply (chat_effect divisor thr (mkChatAcc 0 0 0 0 [] [])
                                        (with_next divisor msgs))))
      as (you & ->).
    destruct (summarize_total
                (them_reply (chat_effect divisor thr (mkChatAcc 0 0 0 0 [] [])
                                         (with_next divisor msgs))))
      as (they & ->).
    simpl. apply IH, Hwf'.
Qed.

Lemma group_by_chat_wf messages divisor :
  well_formed messages divisor ->
  Forall (fun item => well_formed (snd item) divisor)
         (group_by_chat messages).
Proof.
  intros [Hd Hwf]. apply Forall_forall. intros [k msgs] Hin.
  apply group_by_chat_In in Hin as [-> _]. split; [exact Hd|].
  simpl. unfold conversation. rewrite forallb_forall in *.
  intros m Hm. apply filter_In in Hm as [Hm _]. now apply Hwf.
Qed.

Lemma combine_values {V W} (items : list (Z * V)) (results : list W) :
  List.length items = List.length results ->
  values (combine (map fst items) results) = results.
Proof.
  revert results. induction items as [|i items IH]; intros [|x results] H;
    try discriminate; [reflexivity|].
  unfold values in *. simpl. f_equal. apply IH. now injection H.
Qed.

Lemma build_report_inv messages divisor threshold_hours top report :
  build_report messages divisor threshold_hours top = Ok report ->
  exists results,
    Forall2 (conversation_result divisor (float_mul threshold_hours 3600))
            (group_by_chat messages) results /\
    Report.chats report = slice_to top (sort total_geb (map snd results)) /\
    ReportSummary.totals (Report.summary report) =
      (let s := list_sum (map (fun res => sent (fst res)) results) in
       let r := list_sum (map (fun res => received (fst res)) results) in
       Totals.mk s r (s + r)) /\
    ReportSummary.left_on_read (Report.summary report) =
      LeftOnRead.mk
        (list_sum (map (fun res => you_left (fst res)) results))
        (list_sum (map (fun res => them_left (fst res)) results)) /\
    summarize_response_times
      (flat_map (fun res => you_reply (fst res)) results) =
      Ok (ResponseTimes.you_reply
            (ReportSummary.response_times (Report.summary report))) /\
    summarize_response_times
      (flat_map (fun res => them_reply (fst res)) results) =
      Ok (ResponseTimes.they_reply
            (ReportSummary.response_times (Report.summary report))).
Proof.
  unfold build_report. intros H.
  apply bind_Ok in H as (r & Hr & H).
  apply bind_Ok in H as (you & Hyou & H).
  apply bind_Ok in H as (they & Hthey & H).
  injection H as <-.
  apply chats_loop_inv in Hr.
  2:{ simpl. rewrite group_by_chat_keys. apply first_seen_NoDup. }
  destruct Hr as (results & HF & Hc & H1 & H2 & H3 & H4 & H5 & H6).
  simpl in *. exists results. rewrite H5 in Hyou. rewrite H6 in Hthey.
  rewrite Hc, H1, H2, H3, H4.
  repeat split; auto.
  f_equal. f_equal. apply combine_values.
  rewrite length_map. eapply Forall2_length, HF.
Qed.

Lemma build_report_ok messages divisor threshold_hours top :
  well_formed messages divisor ->
  exists report,
    build_report messages divisor threshold_hours top = Ok report.
Proof.
  intros Hwf. unfold build_report.
  destruct (chats_loop_ok divisor (float_mul threshold_hours 3600)
              (group_by_chat messages) (mkReportAcc 0 0 0 0 [] [] [])
              (group_by_chat_wf _ _ Hwf)) as (r & ->).
  simpl.
  destruct (summarize_total (you_reply_minutes r)) as (you & ->).
  destruct (summarize_total (them_reply_minutes r)) as (they & ->).
  simpl. eauto.
Qed.

Lemma filter_fst_length {A B} (f : A -> bool) (l : list (A * B)) :
  List.length (filter (fun p => f (fst p)) l) =
  List.length (filter f (map fst l)).
Proof.
  induction l as [|[a b] l IH]; [reflexivity|].
  simpl. destruct (f a); simpl; now rewrite IH.
Qed.

Lemma filter_split_length {A} (f : A -> bool) (l : list A) :
  (List.length (filter f l) + List.length (filter (fun x => negb (f x)) l)
   = List.length l)%nat.
Proof.
  induction l as [|x l IH]; [reflexivity|].
  simpl. destruct (f x); simpl; lia.
Qed.

Lemma filter_length_sum {A} (f : A -> bool) (l : list A) :
  List.length (filter f l) =
  list_sum (map (fun x => if f x then 1%nat else 0%nat) l).
Proof.
  induction l as [|x l IH]; [reflexivity|].
  simpl. destruct (f x); simpl; now rewrite IH.
Qed.

Lemma analyze_chat_counts divisor thr msgs a :
  analyze_chat divisor thr msgs = Ok a ->
  sent a = List.length (filter from_me msgs) /\
  received a = List.length (filter (fun m => negb (from_me m)) msgs) /\
  (sent a + received a)%nat = List.length msgs.
Proof.
  intros H. apply analyze_chat_inv in H. subst a.
  destruct (chat_effect_fields divisor thr (with_next divisor msgs)
              (mkChatAcc 0 0 0 0 [] [])) as (Hs & Hr & _).
  cbv zeta in Hs, Hr. simpl sent in Hs. simpl received in Hr.
  rewrite (filter_fst_length from_me) in Hs.
  rewrite (filter_fst_length (fun m => negb (from_me m))) in Hr.
  rewrite with_next_fst in Hs, Hr.
  rewrite Hs, Hr. repeat split.
  apply filter_split_length.
Qed.

Lemma chat_dict_fields k msgs a you they :
  let c := chat_dict k msgs a you they in
  Chat.chat_id c = k /\
  Chat.totals c = Totals.mk (sent a) (received a) (sent a + received a) /\
  Chat.left_on_read c = LeftOnRead.mk (you_left a) (them_left a) /\
  Chat.response_times c = ResponseTimes.mk you they.
Proof. repeat split. Qed.

Lemma results_In divisor thr items results c :
  Forall2 (conversation_result divisor thr) items results ->
  In c (map snd results) ->
  exists k msgs a,
    In (k, msgs) items /\ conversation_result divisor thr (k, msgs) (a, c).
Proof.
  induction 1 as [|[k msgs] [a c'] items results Hres HF IH];
    intros Hin; [destruct Hin|].
  destruct Hin as [<-|Hin].
  - exists k, msgs, a. split; [now left|exact Hres].
  - destruct (IH Hin) as (k' & msgs' & a' & Hin' & Hres').
    exists k', msgs', a'. split; [now right|exact Hres'].
Qed.

Lemma results_sum divisor thr (f : Message -> bool)
    (g : ChatAcc -> nat) items results :
  (forall msgs a, analyze_chat divisor thr msgs = Ok a ->
                  g a = List.length (filter f msgs)) ->
  Forall2 (conversation_result divisor thr) items results ->
  list_sum (map (fun res => g (fst res)) results) =
  list_sum (map (fun item =>
                   list_sum (map (fun m => if f m then 1%nat else 0%nat)
                                 (snd item))) items).
Proof.
  intros Hg. induction 1 as [|item res items results [Ha _] HF IH];
    [reflexivity|].
  simpl. rewrite IH. f_equal.
  rewrite (Hg _ _ Ha). apply filter_length_sum.
Qed.

Lemma slice_to_In {A} top (l : list A) x : In x (slice_to top l) -> In x l.
Proof.
  destruct (slice_to_prefix l top) as (n & ->).
  intros H. rewrite <- (firstn_skipn n l). apply in_or_app. now left.
Qed.

(** ** Totals *)

(** C8: for a well-formed input the report exists; every conversation's
    loop counts each of its messages once, as sent when the flag is set
    and as received otherwise, so [sent + received] is the length of its
    message list; the entries of [chats] carry these totals; and the
    global totals count the input messages. *)
Theorem totals_count_messages messages divisor threshold_hours top :
  well_formed messages divisor ->
  exists report,
    build_report messages divisor threshold_hours top = Ok report /\
    (forall k msgs,
        In (k, msgs) (group_by_chat messages) ->
        msgs = conversation k messages /\
        exists a,
          analyze_chat divisor (float_mul threshold_hours 3600) msgs = Ok a /\
          sent a = List.length (filter from_me msgs) /\
          received a =
            List.length (filter (fun m => negb (from_me m)) msgs) /\
          (sent a + received a)%nat = List.length msgs) /\
    (forall c,
        In c (Report.chats report) ->
        let msgs := conversation (Chat.chat_id c) messages in
        let t := Chat.totals c in
        In (Chat.chat_id c, msgs) (group_by_chat messages) /\
        Totals.sent t = List.length (filter from_me msgs) /\
        Totals.received t =
          List.length (filter (fun m => negb (from_me m)) msgs) /\
        (Totals.sent t + Totals.received t)%nat = List.length msgs /\
        Totals.total t = List.length msgs) /\
    (let t := ReportSummary.totals (Report.summary report) in
     Totals.sent t = List.length (filter from_me messages) /\
     Totals.received t =
       List.length (filter (fun m => negb (from_me m)) messages) /\
     Totals.total t = List.length messages).
Proof.
  intros Hwf.
  destruct (build_report_ok messages divisor threshold_hours top Hwf)
    as (report & Hrep).
  exists report. split; [exact Hrep|].
  destruct (build_report_inv _ _ _ _ _ Hrep)
    as (results & HF & Hchats & Htot & _).
  split; [|split].
  - intros k msgs Hin. split; [now apply group_by_chat_In in Hin|].
    pose proof (group_by_chat_wf _ _ Hwf) as Hall.
    rewrite Forall_forall in Hall. specialize (Hall _ Hin). simpl in Hall.
    eexists. split; [apply analyze_chat_ok, Hall|].
    apply (analyze_chat_counts divisor (float_mul threshold_hours 3600)).
    apply analyze_chat_ok, Hall.
  - intros c Hc. cbv zeta. rewrite Hchats in Hc.
    apply slice_to_In in Hc.
    apply (Permutation_in _ (sort_perm total_geb _)) in Hc.
    destruct (results_In _ _ _ _ _ HF Hc)
      as (k & msgs & a & Hin & Ha & you & they & _ & _ & Hcd).
    simpl in Ha, Hcd. subst c.
    destruct (chat_dict_fields k msgs a you they) as (-> & -> & _).
    simpl. apply group_by_chat_In in Hin as Hmsgs.
    destruct Hmsgs as [<- _]. split; [exact Hin|].
    destruct (analyze_chat_counts _ _ _ _ Ha) as (Hs & Hr & Hsum).
    now rewrite <- Hs, <- Hr.
  - rewrite Htot. cbv zeta. simpl.
    rewrite (results_sum divisor (float_mul threshold_hours 3600) from_me sent
               _ _ (fun msgs a H => proj1 (analyze_chat_counts _ _ _ _ H)) HF).
    rewrite (results_sum divisor (float_mul threshold_hours 3600)
               (fun m => negb (from_me m)) received _ _
               (fun msgs a H =>
                  proj1 (proj2 (analyze_chat_counts _ _ _ _ H))) HF).
    rewrite !group_by_chat_weight, <- !filter_length_sum.
    repeat split. apply filter_split_length.
Qed.

Lemma totals_count_messages_witness :
  exists report,
    build_report ten_and_three 1 24 20 = Ok report /\
    Totals.total (ReportSummary.totals (Report.summary report)) = 13%nat.
Proof.
  destruct (totals_count_messages ten_and_three 1 24 20)
    as (report & H & _ & _ & _ & _ & Ht).
  { split; [discriminate|reflexivity]. }
  exists report. split; [exact H|exact Ht].
Defined.

(** ** Ranking *)

Lemma StronglySorted_firstn {A} (R : A -> A -> Prop) l : forall n,
  StronglySorted R l -> StronglySorted R (firstn n l).
Proof.
  induction l as [|x l IH]; intros [|n] H; simpl; try constructor.
  - apply IH. now inversion H.
  - inversion H as [|? ? _ Hall]; subst.
    rewrite Forall_forall in *. intros y Hy. apply Hall.
    rewrite <- (firstn_skipn n l). apply in_or_app. now left.
Qed.

Lemma results_ids divisor thr items results :
  Forall2 (conversation_result divisor thr) items results ->
  map Chat.chat_id (map snd results) = map fst items.
Proof.
  induction 1 as [|[k msgs] [a c] items results Hres HF IH];
    [reflexivity|].
  destruct Hres as (_ & you & they & _ & _ & Hc). simpl in Hc. subst c.
  simpl. now rewrite IH.
Qed.

Lemma entry_total divisor thr messages results c :
  Forall2 (conversation_result divisor thr) (group_by_chat messages)
          results ->
  In c (map snd results) ->
  total_of c =
    (Totals.sent (Chat.totals c) + Totals.received (Chat.totals c))%nat /\
  total_of c = List.length (conversation (Chat.chat_id c) messages).
Proof.
  intros HF Hc.
  destruct (results_In _ _ _ _ _ HF Hc)
    as (k & msgs & a & Hin & Ha & you & they & _ & _ & Hcd).
  simpl in Ha, Hcd. subst c. unfold total_of.
  destruct (chat_dict_fields k msgs a you they) as (-> & -> & _). simpl.
  apply group_by_chat_In in Hin as [<- _].
  split; [reflexivity|]. now apply analyze_chat_counts in Ha.
Qed.

Lemma ranking_stable (entries : list Chat.t) n :
  filter (fun c => (total_of c =? n)%nat) (sort total_geb entries) =
  filter (fun c => (total_of c =? n)%nat) entries.
Proof. exact (sort_stable total_of n entries). Qed.

Lemma ranking_descending (entries : list Chat.t) :
  StronglySorted (fun c1 c2 => (total_of c2 <= total_of c1)%nat)
                 (sort total_geb entries).
Proof. exact (sort_descending total_of entries). Qed.

(** C5: the entries of the conversations, taken in the order in which the
    conversations are first met in the input, are sorted by total with the
    largest first; entries of equal total keep their order; [chats] is the
    slice [[:top]] of that ranking, for a non-negative [top] its first
    [top] entries, at most 20 for the default.  With two conversations of
    ten and of three messages and [top = 1], [chats] holds the entry of
    the ten-message conversation only. *)
Theorem chats_ranked_top messages divisor threshold_hours top :
  well_formed messages divisor ->
  (exists report entries ranked,
      build_report messages divisor threshold_hours top = Ok report /\
      map Chat.chat_id entries = first_seen (map chat_id messages) /\
      (forall c, In c entries ->
         total_of c =
           (Totals.sent (Chat.totals c)
            + Totals.received (Chat.totals c))%nat /\
         total_of c = List.length (conversation (Chat.chat_id c) messages)) /\
      Permutation ranked entries /\
      StronglySorted (fun c1 c2 => (total_of c2 <= total_of c1)%nat) ranked /\
      (forall n,
          filter (fun c => (total_of c =? n)%nat) ranked =
          filter (fun c => (total_of c =? n)%nat) entries) /\
      Report.chats report = slice_to top ranked /\
      StronglySorted (fun c1 c2 => (total_of c2 <= total_of c1)%nat)
                     (Report.chats report) /\
      (0 <= top ->
       Report.chats report = firstn (Z.to_nat top) ranked /\
       List.length (Report.chats report) =
         Nat.min (Z.to_nat top) (List.length entries)) /\
      (top = default_top -> (List.length (Report.chats report) <= 20)%nat)) /\
  (forall big small,
      top = 1 ->
      Permutation (first_seen (map chat_id messages)) [big; small] ->
      List.length (conversation big messages) = 10%nat ->
      List.length (conversation small messages) = 3%nat ->
      exists report c,
        build_report messages divisor threshold_hours top = Ok report /\
        Report.chats report = [c] /\
        Chat.chat_id c = big /\ total_of c = 10%nat).
Proof.
  intros Hwf.
  destruct (build_report_ok messages divisor threshold_hours top Hwf)
    as (report & Hrep).
  destruct (build_report_inv _ _ _ _ _ Hrep)
    as (results & HF & Hchats & _).
  set (entries := map snd results) in *.
  assert (Hids : map Chat.chat_id entries = first_seen (map chat_id messages)).
  { unfold entries. rewrite (results_ids _ _ _ _ HF).
    apply group_by_chat_keys. }
  assert (Hfirst : forall n,
            Report.chats report = firstn n (sort total_geb entries) ->
            List.length (Report.chats report) =
            Nat.min n (List.length entries)).
  { intros n ->. rewrite length_firstn. now rewrite sort_length. }
  split.
  - exists report, entries, (sort total_geb entries).
    split; [exact Hrep|]. split; [exact Hids|].
    split; [intros c Hc; eapply entry_total; eauto|].
    split; [apply sort_perm|].
    split; [apply ranking_descending|].
    split; [intros n; apply ranking_stable|].
    split; [exact Hchats|].
    split.
    { rewrite Hchats. destruct (slice_to_prefix (sort total_geb entries) top)
        as (n & ->).
      apply StronglySorted_firstn, ranking_descending. }
    split.
    + intros Htop. rewrite slice_to_nonneg in Hchats by exact Htop.
      split; [exact Hchats|now apply Hfirst].
    + intros ->. rewrite slice_to_nonneg in Hchats by (unfold default_top; lia).
      rewrite (Hfirst _ Hchats). apply Nat.le_trans with (Z.to_nat default_top).
      * apply Nat.le_min_l.
      * unfold default_top. lia.
  - intros big small -> Hperm Hbig Hsmall.
    rewrite <- Hids in Hperm. apply Permutation_sym in Hperm.
    assert (Htot : forall c, In c entries ->
              total_of c = List.length (conversation (Chat.chat_id c) messages))
      by (intros c Hc; eapply entry_total; eauto).
    change (slice_to 1 (sort total_geb entries))
      with (firstn 1 (sort total_geb entries)) in Hchats.
    exists report.
    destruct entries as [|e1 [|e2 [|e3 rest]]];
      try (apply Permutation_length in Hperm; discriminate).
    pose proof (Htot e1 (or_introl eq_refl)) as H1.
    pose proof (Htot e2 (or_intror (or_introl eq_refl))) as H2.
    simpl in Hperm. apply Permutation_length_2_inv in Hperm.
    simpl in Hchats. unfold total_geb in Hchats. fold (total_of e1) in Hchats.
    fold (total_of e2) in Hchats.
    destruct Hperm as [[= E1 E2]|[= E1 E2]];
      rewrite <- E1, <- E2 in *; rewrite ?Hbig, ?Hsmall in *;
      rewrite H1, H2 in Hchats; simpl in Hchats.
    + exists e1. repeat split; auto.
    + exists e2. repeat split; auto.
Qed.

Lemma chats_ranked_top_witness :
  exists report c,
    build_report ten_and_three 1 24 1 = Ok report /\
    Report.chats report = [c] /\ Chat.chat_id c = 9 /\ total_of c = 10%nat.
Proof.
  destruct (chats_ranked_top ten_and_three 1 24 1) as [_ H].
  { split; [discriminate|reflexivity]. }
  apply (H 9 7); try reflexivity.
  apply perm_swap.
Defined.

(** ** Reply latency *)

Lemma latency_sample_iff divisor m next minutes :
  latency_sample divisor m next = Some minutes <->
  has_latency divisor m next minutes.
Proof.
  unfold latency_sample, has_latency.
  destruct next as [n|], (date_raw m) as [s|]; cbv zeta.
  - destruct (Qle_bool 0 (delta_seconds divisor n s)) eqn:E.
    + apply Qle_bool_iff in E. split.
      * intros [= <-]. exists n, s. auto.
      * intros (n' & s' & [= <-] & [= <-] & _ & ->). reflexivity.
    + split; [discriminate|].
      intros (n' & s' & [= <-] & [= <-] & H & _).
      apply Qle_bool_iff in H. congruence.
  - split; [discriminate|]. intros (? & ? & _ & ? & _). discriminate.
  - split; [discriminate|]. intros (? & ? & ? & _). discriminate.
  - split; [discriminate|]. intros (? & ? & ? & _). discriminate.
Qed.

Lemma results_summaries divisor thr items results res :
  Forall2 (conversation_result divisor thr) items results ->
  In res results ->
  exists item,
    In item items /\ conversation_result divisor thr item res /\
    summarize_response_times (you_reply (fst res)) =
      Ok (ResponseTimes.you_reply (Chat.response_times (snd res))) /\
    summarize_response_times (them_reply (fst res)) =
      Ok (ResponseTimes.they_reply (Chat.response_times (snd res))).
Proof.
  induction 1 as [|item0 res0 items results Hres HF IH];
    intros Hin; [destruct Hin|].
  destruct Hin as [->|Hin].
  - exists item0. split; [now left|]. split; [exact Hres|].
    destruct Hres as (_ & you & they & Hy & Ht & ->). auto.
  - destruct (IH Hin) as (item & Hi & H').
    exists item. split; [now right|exact H'].
Qed.

(** C6: for a non-zero divisor and SQLite timestamps, the loop body adds
    a latency sample for a message exactly when a next-opposite timestamp
    exists, the send timestamp is present and
    [(next - date_raw) / divisor] is not negative; the sample is that
    delta divided by 60 and goes to [them_reply] (reported as
    [they_reply]) for a message from me and to [you_reply] otherwise; the
    two lists of a conversation hold the samples of its messages in
    order.  The global summaries are the summaries of the concatenation of the
    per-conversation sample lists, while each entry of [chats] summarises
    its own lists; in [uneven_replies] the pooled average 2.33 differs
    from the average 2 of the per-conversation averages 3 and 1. *)
Theorem reply_latency_samples divisor threshold_hours :
  divisor <> 0 ->
  (forall a m next,
      wf_message m = true -> sqlite_int next = true ->
      exists a',
        step_message divisor (float_mul threshold_hours 3600) a m next
          = Ok a' /\
        (forall minutes,
            has_latency divisor m next minutes -> contributes m minutes a a') /\
        ((~ exists minutes, has_latency divisor m next minutes) ->
         no_contribution a a')) /\
  (forall m next minutes,
      latency_sample divisor m next = Some minutes <->
      has_latency divisor m next minutes) /\
  (forall msgs,
      forallb wf_message msgs = true ->
      exists a,
        analyze_chat divisor (float_mul threshold_hours 3600) msgs = Ok a /\
        you_reply a =
          flat_map (samples_of false divisor) (with_next divisor msgs) /\
        them_reply a =
          flat_map (samples_of true divisor) (with_next divisor msgs)) /\
  (forall messages top,
      forallb wf_message messages = true ->
      exists report results,
        build_report messages divisor threshold_hours top = Ok report /\
        Forall2 (conversation_result divisor (float_mul threshold_hours 3600))
                (group_by_chat messages) results /\
        summarize_response_times
          (flat_map (fun res => you_reply (fst res)) results) =
          Ok (ResponseTimes.you_reply
                (ReportSummary.response_times (Report.summary report))) /\
        summarize_response_times
          (flat_map (fun res => them_reply (fst res)) results) =
          Ok (ResponseTimes.they_reply
                (ReportSummary.response_times (Report.summary report))) /\
        (forall res, In res results ->
           summarize_response_times (you_reply (fst res)) =
             Ok (ResponseTimes.you_reply (Chat.response_times (snd res))) /\
           summarize_response_times (them_reply (fst res)) =
             Ok (ResponseTimes.they_reply (Chat.response_times (snd res)))) /\
        (forall c, In c (Report.chats report) -> In c (map snd results))) /\
  (exists report,
      build_report uneven_replies 1 24 20 = Ok report /\
      Summary.avg_minutes
        (ResponseTimes.you_reply
           (ReportSummary.response_times (Report.summary report)))
        = Some (fl (233 # 100)) /\
      map (fun c => Summary.avg_minutes
                      (ResponseTimes.you_reply (Chat.response_times c)))
          (Report.chats report)
        = [Some 3%Q; Some 1%Q]).
Proof.
  intros Hd. split; [|split; [|split; [|split]]].
  2:{ intros m next minutes. apply latency_sample_iff. }
  2:{ intros msgs Hwf. eexists. split; [apply analyze_chat_ok; now split|].
      destruct (chat_effect_fields divisor (float_mul threshold_hours 3600)
                  (with_next divisor msgs) (mkChatAcc 0 0 0 0 [] []))
        as (_ & _ & _ & _ & Hy & Ht).
      now rewrite Hy, Ht. }
  - intros a m next Hm Hn.
    exists (message_effect divisor (float_mul threshold_hours 3600) a m next).
    split; [now apply step_message_ok|].
    destruct (message_effect_fields divisor (float_mul threshold_hours 3600)
                                    a m next) as (_ & _ & _ & _ & Hy & Ht).
    unfold contributes, no_contribution. rewrite Hy, Ht.
    unfold samples_of. simpl fst. simpl snd. split.
    + intros minutes H. apply latency_sample_iff in H. rewrite H.
      destruct (from_me m); simpl; now rewrite app_nil_r.
    + intros H.
      destruct (latency_sample divisor m next) as [minutes|] eqn:E.
      * exfalso. apply H. exists minutes. now apply latency_sample_iff.
      * destruct (from_me m); simpl; now rewrite !app_nil_r.
  - intros messages top Hwf.
    destruct (build_report_ok messages divisor threshold_hours top
                (conj Hd Hwf)) as (report & Hrep).
    destruct (build_report_inv _ _ _ _ _ Hrep)
      as (results & HF & Hchats & _ & _ & Hyou & Hthey).
    exists report, results. repeat split; auto.
    + destruct (results_summaries _ _ _ _ _ HF H) as (_ & _ & _ & Hy & _).
      exact Hy.
    + destruct (results_summaries _ _ _ _ _ HF H) as (_ & _ & _ & _ & Ht).
      exact Ht.
    + intros c Hc. rewrite Hchats in Hc. apply slice_to_In in Hc.
      now apply (Permutation_in _ (sort_perm total_geb _)) in Hc.
  - eexists. split; [vm_compute; reflexivity|]. split; reflexivity.
Qed.

Lemma reply_latency_samples_witness :
  exists a',
    step_message 1 (float_mul 24 3600) (mkChatAcc 0 0 0 0 [] [])
                 (sample 1 1 (Some 0) None 0) (Some 60) = Ok a' /\
    you_reply a' = [float_div (delta_seconds 1 60 0) 60].
Proof.
  destruct (reply_latency_samples 1 24) as (H & _); [discriminate|].
  destruct (H (mkChatAcc 0 0 0 0 [] []) (sample 1 1 (Some 0) None 0)
              (Some 60) eq_refl eq_refl) as (a' & Hstep & Hyes & _).
  exists a'. split; [exact Hstep|].
  apply (Hyes (float_div (delta_seconds 1 60 0) 60)).
  exists 60, 0. repeat split. discriminate.
Defined.

(** ** Totality *)

(** C9: for a well-formed input (a non-zero divisor, as every divisor of
    [detect_date_scale] is, and timestamps that are null or SQLite
    integers) [build_report] returns a report.  A message without send
    timestamp only adds to the sent or received count, whatever the
    divisor.  The input without messages yields the report with zero
    totals, empty summaries and no chats, for every divisor, threshold
    and [top]. *)
Theorem build_report_total messages divisor threshold_hours top :
  well_formed messages divisor ->
  (exists report,
      build_report messages divisor threshold_hours top = Ok report) /\
  (forall v, well_formed messages (fst (detect_date_scale v))) /\
  (forall d thr a m next,
      date_raw m = None ->
      step_message d thr a m next = Ok (count_direction m a)) /\
  (forall d thr n, build_report [] d thr n = Ok empty_report) /\
  summarize_response_times [] = Ok empty_summary.
Proof.
  intros Hwf. split; [now apply build_report_ok|].
  split; [|split; [|split; [|reflexivity]]].
  3:{ intros d thr n. unfold build_report. simpl. unfold slice_to.
      now rewrite firstn_nil. }
  - intros v. split; [|apply Hwf].
    unfold detect_date_scale.
    destruct (negb (truthy_int v)); [discriminate|].
    destruct v as [z|]; [|discriminate].
    destruct (10 ^ 17 <? z); [discriminate|].
    destruct (10 ^ 14 <? z); [discriminate|].
    destruct (10 ^ 11 <? z); discriminate.
  - intros d thr a m next Hs. unfold step_message, truthy_int.
    rewrite Hs. destruct next, (date_read_raw m) as [r|]; simpl;
      try destruct (r =? 0); reflexivity.
Qed.

Lemma build_report_total_witness :
  exists report, build_report read_and_answered 1 24 20 = Ok report.
Proof.
  destruct (build_report_total read_and_answered 1 24 20) as [H _].
  - split; [discriminate|reflexivity].
  - exact H.
Defined.

(** ** Left on read, from the loop to the report *)

(** Every entry of a report is the outcome of one conversation of the
    input, which is never empty. *)
Lemma build_report_entries messages divisor threshold_hours top report c :
  build_report messages divisor threshold_hours top = Ok report ->
  In c (Report.chats report) ->
  exists k msgs a,
    msgs = conversation k messages /\ msgs <> [] /\
    conversation_result divisor (float_mul threshold_hours 3600)
                        (k, msgs) (a, c).
Proof.
  intros H Hc.
  destruct (build_report_inv _ _ _ _ _ H) as (results & HF & Hch & _).
  rewrite Hch in Hc. apply slice_to_In in Hc.
  apply (Permutation_in _ (sort_perm _ _)) in Hc.
  destruct (results_In _ _ _ _ _ HF Hc) as (k & msgs & a & Hin & Hres).
  destruct (group_by_chat_In _ _ _ Hin) as [Hm Hne].
  now exists k, msgs, a.
Qed.

Lemma analyze_chat_left divisor thr msgs a :
  analyze_chat divisor thr msgs = Ok a ->
  them_left a = left_count true divisor thr msgs /\
  you_left a = left_count false divisor thr msgs.
Proof.
  intros H. apply analyze_chat_inv in H.
  pose proof (chat_effect_fields divisor thr (with_next divisor msgs)
                (mkChatAcc 0 0 0 0 [] [])) as F.
  cbv zeta in F. rewrite <- H in F.
  destruct F as (_ & _ & Hy & Ht & _).
  cbn [you_left them_left Nat.add] in Hy, Ht. unfold left_count.
  rewrite Hy, Ht. split; f_equal; apply filter_ext; intros p;
    now destruct (from_me (fst p)).
Qed.

Lemma results_sum_by divisor thr (g : ChatAcc -> nat)
    (h : list Message -> nat) items results :
  (forall msgs a, analyze_chat divisor thr msgs = Ok a -> g a = h msgs) ->
  Forall2 (conversation_result divisor thr) items results ->
  list_sum (map (fun res => g (fst res)) results) =
  list_sum (map (fun item => h (snd item)) items).
Proof.
  intros Hg HF. induction HF as [|item res items results [Ha _] _ IH].
  - reflexivity.
  - cbn [map]. unfold list_sum in *. cbn [fold_right].
    now rewrite (Hg _ _ Ha), IH.
Qed.

(** C2, as the code has it.  For a non-zero divisor and SQLite
    timestamps, the loop body counts a message as left on read, for the
    party opposite to its sender, exactly when its send timestamp is
    present, its read timestamp is present and not zero, and it is not the
    case that a next-opposite timestamp exists with
    [0 <= (next - read) / divisor <= threshold_hours * 3600].  A message
    without read timestamp is never counted; an eligible message without
    reply is counted; an eligible message with a negative delta is
    counted.  The counters of a conversation are the numbers of its
    messages that satisfy the rule, and they are what the report holds:
    in every entry, [they_left_you] is the number of such messages from
    me and [you_left_them] the number of such messages from them, and the
    two numbers of the summary are their sums over the conversations. *)
Theorem left_on_read_classification divisor threshold_hours :
  divisor <> 0 ->
  (forall a m next,
      wf_message m = true -> sqlite_int next = true ->
      exists a',
        step_message divisor (float_mul threshold_hours 3600) a m next
          = Ok a' /\
        counts_exactly_when
          (left_on_read_rule divisor threshold_hours m next) m a a' /\
        (date_read_raw m = None -> not_counted_left a a') /\
        (forall r, date_raw m <> None -> date_read_raw m = Some r ->
                   r <> 0 -> next = None -> counted_left m a a') /\
        (forall r n, date_raw m <> None -> date_read_raw m = Some r ->
                     r <> 0 -> next = Some n ->
                     (delta_seconds divisor n r < 0)%Q ->
                     counted_left m a a')) /\
  (forall m next,
      left_on_read divisor (float_mul threshold_hours 3600) m next = true <->
      left_on_read_rule divisor threshold_hours m next) /\
  (forall msgs,
      forallb wf_message msgs = true ->
      exists a,
        analyze_chat divisor (float_mul threshold_hours 3600) msgs = Ok a /\
        them_left a =
        List.length
          (filter (fun p =>
                     from_me (fst p) &&
                     left_on_read divisor (float_mul threshold_hours 3600)
                                  (fst p) (snd p))
                  (with_next divisor msgs)) /\
        you_left a =
        List.length
          (filter (fun p =>
                     negb (from_me (fst p)) &&
                     left_on_read divisor (float_mul threshold_hours 3600)
                                  (fst p) (snd p))
                  (with_next divisor msgs))) /\
  (forall messages top,
      forallb wf_message messages = true ->
      exists report,
        build_report messages divisor threshold_hours top = Ok report /\
        (forall c,
            In c (Report.chats report) ->
            let msgs := conversation (Chat.chat_id c) messages in
            LeftOnRead.they_left_you (Chat.left_on_read c) =
            left_count true divisor (float_mul threshold_hours 3600) msgs /\
            LeftOnRead.you_left_them (Chat.left_on_read c) =
            left_count false divisor (float_mul threshold_hours 3600) msgs) /\
        (let s := ReportSummary.left_on_read (Report.summary report) in
         let total me :=
           list_sum
             (map (fun k => left_count me divisor
                              (float_mul threshold_hours 3600)
                              (conversation k messages))
                  (first_seen (map chat_id messages))) in
         LeftOnRead.they_left_you s = total true /\
         LeftOnRead.you_left_them s = total false)).
Proof.
  intros Hd. split; [|split; [|split]].
  - intros a m next Hm Hn.
    exists (message_effect divisor (float_mul threshold_hours 3600) a m next).
    split; [now apply step_message_ok|].
    pose proof (left_on_read_counts divisor (float_mul threshold_hours 3600)
                                    a m next) as [Hyes Hno].
    pose proof (left_on_read_iff divisor threshold_hours m next) as Hiff.
    assert (Hc : counts_exactly_when
                   (left_on_read_rule divisor threshold_hours m next) m a
                   (message_effect divisor (float_mul threshold_hours 3600)
                                   a m next)).
    { split; intros H; [apply Hyes|apply Hno]; tauto. }
    split; [exact Hc|]. destruct Hc as [Hyes' Hno'].
    split; [|split].
    + intros Hnone. apply Hno'. intros (_ & r & Hr & _). congruence.
    + intros r Hs Hr Hr0 ->. apply Hyes'. split; [exact Hs|].
      exists r. repeat split; auto. intros (n & Hn' & _). discriminate.
    + intros r n Hs Hr Hr0 -> Hneg. apply Hyes'. split; [exact Hs|].
      exists r. repeat split; auto. intros (n' & [= <-] & H0 & _).
      apply (Qlt_irrefl 0). eapply Qle_lt_trans; eauto.
  - intros m next. apply left_on_read_iff.
  - intros msgs Hwf. eexists. split; [apply analyze_chat_ok; now split|].
    destruct (chat_effect_fields divisor (float_mul threshold_hours 3600)
                (with_next divisor msgs) (mkChatAcc 0 0 0 0 [] []))
      as (_ & _ & Hy & Ht & _).
    now rewrite Hy, Ht.
  - intros messages top Hwf.
    destruct (build_report_ok messages divisor threshold_hours top)
      as [report H]; [now split|].
    exists report. split; [exact H|]. split.
    + intros c Hc. cbv zeta.
      destruct (build_report_entries _ _ _ _ _ _ H Hc)
        as (k & msgs & a & Hm & _ & Ha & you & they & _ & _ & Hdict).
      cbn [fst snd] in *.
      destruct (chat_dict_fields k msgs a you they) as (Ek & _ & El & _).
      rewrite <- Hdict in Ek, El. rewrite Ek, El, <- Hm.
      cbn [LeftOnRead.they_left_you LeftOnRead.you_left_them].
      destruct (analyze_chat_left _ _ _ _ Ha) as [Ht Hy]. now split.
    + cbv zeta.
      destruct (build_report_inv _ _ _ _ _ H) as (results & HF & _ & _ & Hl & _).
      rewrite Hl.
      cbn [LeftOnRead.they_left_you LeftOnRead.you_left_them].
      rewrite (results_sum_by divisor (float_mul threshold_hours 3600)
                 them_left
                 (left_count true divisor (float_mul threshold_hours 3600))
                 _ _ (fun msgs a Ha => proj1 (analyze_chat_left _ _ _ _ Ha)) HF).
      rewrite (results_sum_by divisor (float_mul threshold_hours 3600)
                 you_left
                 (left_count false divisor (float_mul threshold_hours 3600))
                 _ _ (fun msgs a Ha => proj2 (analyze_chat_left _ _ _ _ Ha)) HF).
      rewrite group_by_chat_spec, !map_map. cbn [snd]. split; reflexivity.
Qed.

Lemma left_on_read_classification_witness :
  exists report,
    build_report read_and_answered 1 24 20 = Ok report /\
    ReportSummary.left_on_read (Report.summary report) =
    {| LeftOnRead.you_left_them := 0; LeftOnRead.they_left_you := 1 |} /\
    map Chat.left_on_read (Report.chats report) =
    [{| LeftOnRead.you_left_them := 0; LeftOnRead.they_left_you := 1 |}].
Proof.
  destruct (left_on_read_classification 1 24) as (_ & _ & _ & H);
    [discriminate|].
  destruct (H read_and_answered 20 eq_refl) as (report & Hr & Hc & Ht & Hy).
  exists report. split; [exact Hr|]. split.
  - destruct (ReportSummary.left_on_read (Report.summary report))
      as [you they].
    cbn [LeftOnRead.they_left_you LeftOnRead.you_left_them] in Ht, Hy.
    rewrite Ht, Hy. vm_compute. reflexivity.
  - assert (Hlen : List.length (Report.chats report) = 1%nat).
    { vm_compute in Hr. injection Hr as <-. reflexivity. }
    destruct (Report.chats report) as [|c [|c' cs]] eqn:Ec;
      try discriminate Hlen.
    destruct (Hc c (or_introl eq_refl)) as [Hct Hcy].
    assert (Hk : Chat.chat_id c = 1).
    { vm_compute in Hr. injection Hr as <-. cbn in Ec.
      injection Ec as <-. reflexivity. }
    rewrite Hk in Hct, Hcy. cbn [map].
    destruct (Chat.left_on_read c) as [you they].
    cbn [LeftOnRead.they_left_you LeftOnRead.you_left_them] in Hct, Hcy.
    rewrite Hct, Hcy. vm_compute. reflexivity.
Defined.

(** The statement of C2 without the send-timestamp guard fails: the
    message [read_but_undated] was read, got no reply, and is not
    counted, neither by the loop body nor in the report. *)
Lemma read_but_undated_not_counted :
  exists a' report,
    step_message 1 (float_mul 24 3600) (mkChatAcc 0 0 0 0 [] [])
                 read_but_undated None = Ok a' /\
    ~ counts_exactly_when
        (left_on_read_as_specified 1 24 read_but_undated None)
        read_but_undated (mkChatAcc 0 0 0 0 [] []) a' /\
    left_on_read_as_specified 1 24 read_but_undated None /\
    from_me read_but_undated = true /\
    build_report [read_but_undated] 1 24 20 = Ok report /\
    ReportSummary.left_on_read (Report.summary report) =
    {| LeftOnRead.you_left_them := 0; LeftOnRead.they_left_you := 0 |} /\
    map Chat.left_on_read (Report.chats report) =
    [{| LeftOnRead.you_left_them := 0; LeftOnRead.they_left_you := 0 |}].
Proof.
  assert (H : left_on_read_as_specified 1 24 read_but_undated None).
  { exists 5. repeat split; [discriminate|].
    intros (n & Hn & _). discriminate. }
  eexists _, _. split; [reflexivity|]. split; [|split; [exact H|]].
  - intros [Hyes _]. apply Hyes in H. destruct H as [H' _]. discriminate.
  - split; [reflexivity|]. split; [vm_compute; reflexivity|].
    split; reflexivity.
Qed.

(** * Further properties *)

(** ** More on the rounding *)

Lemma round_half_even_inject k : round_half_even (inject_Z k) = k.
Proof.
  apply round_half_even_near.
  setoid_replace (inject_Z k - inject_Z k)%Q with 0%Q by ring. reflexivity.
Qed.

Lemma round_half_even_mono x y :
  (x <= y)%Q -> round_half_even x <= round_half_even y.
Proof.
  intros Hxy.
  destruct (round_half_even_bounds x) as [Hx _].
  destruct (round_half_even_bounds y) as [_ Hy].
  destruct (Z_lt_le_dec (round_half_even y) (round_half_even x)) as [Hlt|Hle];
    [|exact Hle].
  exfalso.
  assert (H1 : (inject_Z (round_half_even y + 1)
                <= inject_Z (round_half_even x))%Q)
    by (rewrite <- Zle_Qle; lia).
  rewrite inject_Z_plus in H1. change (inject_Z 1) with 1%Q in H1.
  assert (E : (x == y)%Q) by lra.
  apply round_half_even_comp in E. lia.
Qed.

Lemma Qfloor_half f : Qfloor (inject_Z f + (1 # 2)) = f.
Proof.
  pose proof (Qfloor_le (inject_Z f + (1 # 2))) as Hlo.
  pose proof (Qlt_floor (inject_Z f + (1 # 2))) as Hhi.
  set (g := Qfloor (inject_Z f + (1 # 2))) in *.
  rewrite inject_Z_plus in Hhi. change (inject_Z 1) with 1%Q in Hhi.
  assert (H1 : (inject_Z g < inject_Z (f + 1))%Q).
  { rewrite inject_Z_plus. change (inject_Z 1) with 1%Q. lra. }
  assert (H2 : (inject_Z f < inject_Z (g + 1))%Q).
  { rewrite inject_Z_plus. change (inject_Z 1) with 1%Q. lra. }
  rewrite <- Zlt_Qlt in H1, H2. lia.
Qed.

Lemma round_half_even_tie f :
  round_half_even (inject_Z f + (1 # 2)) = if Z.even f then f else f + 1.
Proof.
  unfold round_half_even. rewrite Qfloor_half.
  assert (E : (inject_Z f + (1 # 2) - inject_Z f ?= 1 # 2)%Q = Eq).
  { apply Qeq_alt. ring. }
  now rewrite E.
Qed.

Lemma inject_Z_sub a b : (inject_Z (a - b) == inject_Z a - inject_Z b)%Q.
Proof.
  unfold Z.sub. rewrite inject_Z_plus, inject_Z_opp. ring.
Qed.

Lemma round_half_even_opp y : round_half_even (- y) = - round_half_even y.
Proof.
  destruct (round_half_even_bounds y) as [Hlo Hhi].
  set (r := round_half_even y) in *.
  destruct (Qlt_le_dec (inject_Z r - (1 # 2)) y) as [H1|H1].
  - destruct (Qlt_le_dec y (inject_Z r + (1 # 2))) as [H2|H2].
    + apply round_half_even_near. rewrite inject_Z_opp.
      apply Qabs_Qlt_condition. split; lra.
    + (* y = r + 1/2: r is the even one of floor and floor + 1 *)
      assert (E : (y == inject_Z r + (1 # 2))%Q) by lra.
      assert (Er : r = if Z.even r then r else r + 1).
      { unfold r at 1. rewrite (round_half_even_comp _ _ E).
        apply round_half_even_tie. }
      assert (Hev : Z.even r = true)
        by (destruct (Z.even r); [reflexivity|lia]).
      assert (E' : (- y == inject_Z (- r - 1) + (1 # 2))%Q).
      { rewrite E, inject_Z_sub, inject_Z_opp.
        change (inject_Z 1) with 1%Q. ring. }
      rewrite (round_half_even_comp _ _ E'), round_half_even_tie.
      replace (Z.even (- r - 1)) with false; [lia|].
      symmetry. rewrite <- Z.negb_odd. apply negb_false_iff.
      replace (- r - 1) with (- (r + 1)) by lia.
      rewrite Z.odd_opp, Z.add_1_r, Z.odd_succ. exact Hev.
  - (* y = r - 1/2 *)
    assert (E : (y == inject_Z (r - 1) + (1 # 2))%Q).
    { rewrite inject_Z_sub. change (inject_Z 1) with 1%Q. lra. }
    assert (Er : r = if Z.even (r - 1) then r - 1 else r - 1 + 1).
    { unfold r at 1. rewrite (round_half_even_comp _ _ E).
      apply round_half_even_tie. }
    assert (Hev : Z.even (r - 1) = false)
      by (destruct (Z.even (r - 1)); [lia|reflexivity]).
    assert (E' : (- y == inject_Z (- r) + (1 # 2))%Q).
    { rewrite E, inject_Z_sub, inject_Z_opp.
      change (inject_Z 1) with 1%Q. ring. }
    rewrite (round_half_even_comp _ _ E'), round_half_even_tie.
    replace (Z.even (- r)) with true; [reflexivity|].
    rewrite Z.even_opp. symmetry.
    replace r with (Z.succ (r - 1)) by lia.
    rewrite Z.even_succ, <- Z.negb_even, Hev. reflexivity.
Qed.

(** ** Order, sign and fixed points of the binary64 rounding *)

Lemma pow2_lt a b : a < b -> (pow2 a < pow2 b)%Q.
Proof.
  intros H. assert (Hle : (pow2 (a + 1) <= pow2 b)%Q) by (apply pow2_le; lia).
  rewrite pow2_plus in Hle. change (pow2 1) with (2 # 1)%Q in Hle.
  pose proof (pow2_pos a). lra.
Qed.

Lemma pow2_lt_inv a b : (pow2 a < pow2 b)%Q -> a < b.
Proof.
  intros H. destruct (Z_lt_le_dec a b) as [Hlt|Hle]; [exact Hlt|].
  apply pow2_le in Hle. lra.
Qed.

Lemma pow2_split k e : (pow2 k == pow2 (k - e) * pow2 e)%Q.
Proof. rewrite <- pow2_plus. now replace (k - e + e) with k by lia. Qed.

Lemma Qabs_opp_eq q : Qabs (- q) = Qabs q.
Proof. destruct q as [n d]. unfold Qabs, Qopp. simpl. now rewrite Z.abs_opp. Qed.

Lemma Qabs_pos_eq q : (0 <= q)%Q -> Qabs q = q.
Proof.
  destruct q as [n d]. unfold Qle, Qabs. simpl. intros H.
  rewrite Z.abs_eq by lia. reflexivity.
Qed.

Lemma fl_nonneg x : (0 <= x)%Q -> (0 <= fl x)%Q.
Proof.
  intros Hx. rewrite fl_value. cbv zeta.
  assert (Hxq : (x == Qred x)%Q) by (symmetry; apply Qred_correct).
  remember (Qred x) as q eqn:Eq. rewrite Hxq in Hx. clear Eq Hxq x.
  set (e := binade (Qabs q)). pose proof (pow2_pos e) as Hp.
  assert (H0 : 0 <= round_half_even (q / pow2 e)).
  { rewrite <- (round_half_even_inject 0). apply round_half_even_mono.
    apply Qle_shift_div_l; [exact Hp|]. change (inject_Z 0) with 0%Q. lra. }
  apply Qmult_le_0_compat; [|lra].
  change 0%Q with (inject_Z 0). now rewrite <- Zle_Qle.
Qed.

Lemma fl_opp x : fl (- x) = (- fl x)%Q.
Proof.
  unfold fl. rewrite Qred_opp, Qabs_opp_eq.
  set (q := Qred x). set (e := binade (Qabs q)).
  rewrite <- Qred_opp. apply Qred_complete.
  assert (E : (- q / pow2 e == - (q / pow2 e))%Q)
    by (field; pose proof (pow2_pos e); lra).
  rewrite (round_half_even_comp _ _ E), round_half_even_opp, inject_Z_opp.
  ring.
Qed.

Lemma fl_mono_pos x y : (0 < x)%Q -> (x <= y)%Q -> (fl x <= fl y)%Q.
Proof.
  intros Hx Hxy. rewrite (fl_value x), (fl_value y). cbv zeta.
  assert (Hxq : (x == Qred x)%Q) by (symmetry; apply Qred_correct).
  assert (Hyq : (y == Qred y)%Q) by (symmetry; apply Qred_correct).
  remember (Qred x) as p eqn:Ep. remember (Qred y) as q eqn:Eq.
  rewrite Hxq in Hx, Hxy. rewrite Hyq in Hxy. clear Ep Eq Hxq Hyq x y.
  assert (Hq : (0 < q)%Q) by lra.
  rewrite (Qabs_pos_eq p), (Qabs_pos_eq q) by lra.
  destruct (binade_spec p Hx) as (Hp0 & Hp1 & Hp2).
  destruct (binade_spec q Hq) as (Hq0 & Hq1 & Hq2).
  set (ep := binade p) in *. set (eq := binade q) in *.
  pose proof (pow2_pos ep) as HPp. pose proof (pow2_pos eq) as HPq.
  assert (Hle : ep <= eq).
  { destruct (Z_le_gt_dec ep eq) as [H|H]; [exact H|]. exfalso.
    destruct Hp1 as [Hp1|Hp1]; [lia|].
    assert (H' : (pow2 (53 + eq) <= pow2 (52 + ep))%Q) by (apply pow2_le; lia).
    lra. }
  destruct (Z.eq_dec ep eq) as [He|Hne].
  - rewrite He. apply Qmult_le_compat_r; [|lra].
    rewrite <- Zle_Qle. apply round_half_even_mono.
    apply Qmult_le_compat_r; [exact Hxy|].
    apply Qinv_le_0_compat. rewrite <- He. lra.
  - assert (Hlt : ep < eq) by lia. clear Hle Hne.
    assert (Hrp : round_half_even (p / pow2 ep) <= 2 ^ 53).
    { rewrite <- (round_half_even_inject (2 ^ 53)).
      apply round_half_even_mono. apply Qle_shift_div_r; [exact HPp|].
      rewrite pow2_plus in Hp2. change (inject_Z (2 ^ 53)) with (pow2 53).
      lra. }
    assert (Hrq : 2 ^ 52 <= round_half_even (q / pow2 eq)).
    { rewrite <- (round_half_even_inject (2 ^ 52)).
      apply round_half_even_mono. apply Qle_shift_div_l; [exact HPq|].
      destruct Hq1 as [Hq1|Hq1]; [lia|].
      rewrite pow2_plus in Hq1. change (inject_Z (2 ^ 52)) with (pow2 52).
      lra. }
    rewrite Zle_Qle in Hrp, Hrq.
    change (inject_Z (2 ^ 53)) with (pow2 53) in Hrp.
    change (inject_Z (2 ^ 52)) with (pow2 52) in Hrq.
    assert (Hmid : (pow2 (53 + ep) <= pow2 (52 + eq))%Q)
      by (apply pow2_le; lia).
    rewrite !pow2_plus in Hmid.
    apply Qle_trans with (pow2 53 * pow2 ep)%Q.
    + apply Qmult_le_compat_r; [exact Hrp|lra].
    + apply Qle_trans with (pow2 52 * pow2 eq)%Q; [exact Hmid|].
      apply Qmult_le_compat_r; [exact Hrq|lra].
Qed.

(** Rounding to binary64 is monotone. *)
Lemma fl_mono x y : (x <= y)%Q -> (fl x <= fl y)%Q.
Proof.
  intros Hxy. destruct (Qlt_le_dec 0 x) as [Hx|Hx].
  - now apply fl_mono_pos.
  - destruct (Qlt_le_dec y 0) as [Hy|Hy].
    + assert (H : (fl (- y) <= fl (- x))%Q) by (apply fl_mono_pos; lra).
      rewrite !fl_opp in H. lra.
    + pose proof (fl_nonneg y Hy) as H1.
      assert (H2 : (0 <= fl (- x))%Q) by (apply fl_nonneg; lra).
      rewrite fl_opp in H2. lra.
Qed.

Lemma fl_exact_lt x m k :
  (x == inject_Z m * pow2 k)%Q -> Z.abs m < 2 ^ 53 -> -1074 <= k ->
  (fl x == x)%Q.
Proof.
  intros Hx Hm Hk. rewrite fl_value. cbv zeta.
  assert (Hxq : (x == Qred x)%Q) by (symmetry; apply Qred_correct).
  remember (Qred x) as q eqn:Eq. rewrite Hxq in Hx. rewrite Hxq.
  clear Eq Hxq x.
  set (e := binade (Qabs q)).
  pose proof (pow2_pos e) as Hp. pose proof (pow2_pos k) as Hpk.
  assert (He : e <= k).
  { destruct (binade_inv (Qabs q)) as [H|H]; fold e in H; [lia|].
    assert (Habs : (Qabs q == inject_Z (Z.abs m) * pow2 k)%Q).
    { rewrite Hx, Qabs_Qmult, (Qabs_pos (pow2 k)) by lra.
      reflexivity. }
    assert (Hlt : (inject_Z (Z.abs m) < pow2 53)%Q).
    { change (pow2 53) with (inject_Z (2 ^ 53)). now rewrite <- Zlt_Qlt. }
    assert (H' : (pow2 (52 + e) < pow2 (53 + k))%Q).
    { rewrite (pow2_plus 53 k). rewrite Habs in H.
      apply Qle_lt_trans with (1 := H).
      apply Qmult_lt_compat_r; [exact Hpk|exact Hlt]. }
    apply pow2_lt_inv in H'. lia. }
  assert (Hi : (q / pow2 e == inject_Z (m * 2 ^ (k - e)))%Q).
  { rewrite Hx, (pow2_split k e), inject_Z_mult, pow2_inject by lia.
    field. lra. }
  rewrite (round_half_even_comp _ _ Hi), round_half_even_inject.
  rewrite Hx, (pow2_split k e), inject_Z_mult, pow2_inject by lia. ring.
Qed.

(** A number [m * 2^k] with [|m| <= 2^53] and [k >= -1074] is a float. *)
Lemma fl_exact x m k :
  (x == inject_Z m * pow2 k)%Q -> Z.abs m <= 2 ^ 53 -> -1074 <= k ->
  (fl x == x)%Q.
Proof.
  intros Hx Hm Hk.
  destruct (Z_lt_le_dec (Z.abs m) (2 ^ 53)) as [Hlt|Hge].
  - now apply (fl_exact_lt x m k).
  - assert (Habs : Z.abs m = 2 ^ 53) by lia.
    apply (fl_exact_lt x (m / 2) (k + 1)); [| |lia].
    + rewrite Hx, pow2_plus. change (pow2 1) with (2 # 1)%Q.
      assert (E : m = m / 2 * 2).
      { destruct (Z.abs_eq_or_opp m) as [E|E]; rewrite Habs in E.
        - rewrite <- E. reflexivity.
        - assert (E' : m = - 2 ^ 53) by lia. rewrite E'. reflexivity. }
      rewrite E at 1. rewrite inject_Z_mult.
      change (inject_Z 2) with (2 # 1)%Q. ring.
    + destruct (Z.abs_eq_or_opp m) as [E|E]; rewrite Habs in E.
      * rewrite <- E. reflexivity.
      * assert (E' : m = - 2 ^ 53) by lia. rewrite E'. reflexivity.
Qed.

Lemma Qred_idem q : Qred (Qred q) = Qred q.
Proof. apply Qred_complete, Qred_correct. Qed.

Lemma Qred_inject_Z k : Qred (inject_Z k) = inject_Z k.
Proof.
  unfold Qred, inject_Z.
  pose proof (Z.ggcd_gcd k 1) as Hg.
  pose proof (Z.ggcd_correct_divisors k 1) as Hd.
  destruct (Z.ggcd k 1) as [g [a b]]. simpl in Hg, Hd.
  rewrite Z.gcd_1_r in Hg. subst g. destruct Hd as [Ha Hb].
  replace a with k by lia. replace b with 1 by lia. reflexivity.
Qed.

Lemma fl_reduced x : Qred (fl x) = fl x.
Proof. unfold fl. apply Qred_idem. Qed.

Lemma fl_integer k : Z.abs k <= 2 ^ 53 -> fl (inject_Z k) = inject_Z k.
Proof.
  intros Hk.
  assert (E : (fl (inject_Z k) == inject_Z k)%Q).
  { apply (fl_exact _ k 0); [|exact Hk|lia].
    change (pow2 0) with 1%Q. ring. }
  apply Qred_complete in E. now rewrite fl_reduced, Qred_inject_Z in E.
Qed.

Lemma fl_idem x : fl (fl x) = fl x.
Proof.
  destruct (fl_spec x) as (m & Hm & _ & Hb). cbv zeta in Hm.
  assert (E : (fl (fl x) == fl x)%Q).
  { apply (fl_exact _ m (binade (Qabs (Qred x)))); [exact Hm|exact Hb|].
    unfold binade. lia. }
  apply Qred_complete in E. now rewrite !fl_reduced in E.
Qed.

Lemma fl_zero : fl 0 = 0%Q.
Proof. vm_compute. reflexivity. Qed.

(** ** [detect_date_scale]: the scale in seconds *)

Lemma detect_date_scale_fst v :
  fst (detect_date_scale (Some v)) =
  if 10 ^ 17 <? v then 1000000000
  else if 10 ^ 14 <? v then 1000000
  else if 10 ^ 11 <? v then 1000 else 1.
Proof.
  unfold detect_date_scale, truthy_int.
  destruct (Z.eqb_spec v 0) as [->|_]; [reflexivity|]. cbn [negb].
  destruct (10 ^ 17 <? v); [reflexivity|].
  destruct (10 ^ 14 <? v); [reflexivity|].
  destruct (10 ^ 11 <? v); reflexivity.
Qed.

(** X1: the divisor is positive and grows with the value it is chosen for;
    the value of an SQLite integer divided by it is at most [10^11]
    seconds, and more than [10^8] seconds when the divisor is not 1. *)
Theorem detect_date_scale_seconds v w :
  v <= w -> w < 2 ^ 63 ->
  let d := fst (detect_date_scale (Some w)) in
  0 < fst (detect_date_scale (Some v)) <= d /\
  w <= 10 ^ 11 * d /\
  (d <> 1 -> 10 ^ 8 * d < w).
Proof.
  intros Hvw Hw. cbv zeta. rewrite !detect_date_scale_fst.
  change (2 ^ 63) with 9223372036854775808 in Hw.
  change (10 ^ 17) with 100000000000000000.
  change (10 ^ 14) with 100000000000000.
  change (10 ^ 11) with 100000000000.
  change (10 ^ 8) with 100000000.
  destruct (Z.ltb_spec 100000000000000000 v),
           (Z.ltb_spec 100000000000000 v),
           (Z.ltb_spec 100000000000 v),
           (Z.ltb_spec 100000000000000000 w),
           (Z.ltb_spec 100000000000000 w),
           (Z.ltb_spec 100000000000 w); lia.
Qed.

Lemma detect_date_scale_seconds_witness :
  0 < fst (detect_date_scale (Some 1700000000)) <=
  fst (detect_date_scale (Some 700000000000000000)) /\
  700000000000000000 <=
  10 ^ 11 * fst (detect_date_scale (Some 700000000000000000)).
Proof.
  destruct (detect_date_scale_seconds 1700000000 700000000000000000)
    as (H1 & H2 & _); [discriminate|reflexivity|].
  split; assumption.
Defined.

(** ** [apple_time_to_datetime] and [datetime_to_apple] *)

Lemma trunc_inject k : trunc (inject_Z k) = k.
Proof.
  unfold trunc. rewrite Qfloor_Z, Qceiling_Z.
  now destruct (Qle_bool 0 (inject_Z k)).
Qed.

Lemma trunc_comp x y : (x == y)%Q -> trunc x = trunc y.
Proof.
  intros H. unfold trunc.
  rewrite (Qleb_comp 0%Q 0%Q (Qeq_refl 0%Q) x y H).
  now rewrite (Qfloor_comp _ _ H), (Qceiling_comp _ _ H).
Qed.

Lemma trunc_mono x y : (x <= y)%Q -> trunc x <= trunc y.
Proof.
  intros H. unfold trunc.
  destruct (Qle_bool 0 x) eqn:Ex, (Qle_bool 0 y) eqn:Ey.
  - now apply Qfloor_resp_le.
  - apply Qle_bool_iff in Ex.
    assert (~ (0 <= y)%Q) by (rewrite <- Qle_bool_iff; congruence). lra.
  - apply Qle_bool_iff in Ey.
    assert (Hx : ~ (0 <= x)%Q) by (rewrite <- Qle_bool_iff; congruence).
    apply Z.le_trans with 0.
    + rewrite <- (Qceiling_Z 0). apply Qceiling_resp_le.
      change (inject_Z 0) with 0%Q. lra.
    + rewrite <- (Qfloor_Z 0) at 1. now apply Qfloor_resp_le.
  - now apply Qceiling_resp_le.
Qed.

Lemma trunc_near x : (Qabs (x - inject_Z (trunc x)) < 1)%Q.
Proof.
  unfold trunc. apply Qabs_Qlt_condition.
  destruct (Qle_bool 0 x).
  - pose proof (Qfloor_le x) as H1. pose proof (Qlt_floor x) as H2.
    rewrite inject_Z_plus in H2. change (inject_Z 1) with 1%Q in H2.
    split; lra.
  - pose proof (Qle_ceiling x) as H1. pose proof (Qceiling_lt x) as H2.
    rewrite inject_Z_sub in H2. change (inject_Z 1) with 1%Q in H2.
    split; lra.
Qed.

Lemma trunc_below x k :
  0 <= k -> (x < inject_Z (k + 1))%Q -> trunc x <= k.
Proof.
  intros Hk H. unfold trunc. destruct (Qle_bool 0 x) eqn:E.
  - pose proof (Qfloor_le x) as Hf.
    assert (Hlt : (inject_Z (Qfloor x) < inject_Z (k + 1))%Q) by lra.
    rewrite <- Zlt_Qlt in Hlt. lia.
  - assert (Hx : ~ (0 <= x)%Q) by (rewrite <- Qle_bool_iff; congruence).
    apply Z.le_trans with 0; [|exact Hk].
    rewrite <- (Qceiling_Z 0). apply Qceiling_resp_le.
    change (inject_Z 0) with 0%Q. lra.
Qed.

Lemma fl_inject_exact n m k :
  n = m * 2 ^ k -> 0 <= k -> Z.abs m <= 2 ^ 53 ->
  fl (inject_Z n) = inject_Z n.
Proof.
  intros Hn Hk Hm.
  assert (E : (fl (inject_Z n) == inject_Z n)%Q).
  { apply (fl_exact _ m k); [|exact Hm|lia].
    rewrite Hn, inject_Z_mult, pow2_inject by exact Hk. reflexivity. }
  apply Qred_complete in E. now rewrite fl_reduced, Qred_inject_Z in E.
Qed.

Lemma fl_abs_bound x k :
  0 <= k -> (Qabs x <= inject_Z (2 ^ k))%Q ->
  (Qabs (fl x) <= inject_Z (2 ^ k))%Q.
Proof.
  intros Hk H. apply Qabs_Qle_condition in H. destruct H as [H1 H2].
  assert (E : fl (inject_Z (2 ^ k)) = inject_Z (2 ^ k)).
  { apply (fl_inject_exact _ 1 k); [lia|exact Hk|].
    change (Z.abs 1) with 1. change (2 ^ 53) with 9007199254740992. lia. }
  apply fl_mono in H1, H2. rewrite fl_opp in H1. rewrite E in H1, H2.
  apply Qabs_Qle_condition. split; assumption.
Qed.

Lemma below_inf x k :
  0 <= k < 1024 -> (Qabs x <= inject_Z (2 ^ k))%Q -> (Qabs x < inf)%Q.
Proof.
  intros Hk H. apply Qle_lt_trans with (1 := H).
  unfold inf. rewrite <- Zlt_Qlt. apply Z.pow_lt_mono_r; lia.
Qed.

(** A product that stays within the floats does not overflow. *)
Lemma float_mul_finite x y k :
  0 <= k < 1024 -> (Qabs (x * y) <= inject_Z (2 ^ k))%Q ->
  float_mul x y = fl (x * y).
Proof.
  intros Hk H. unfold float_mul. apply overflow_finite.
  apply (below_inf _ k Hk). apply fl_abs_bound; [lia|exact H].
Qed.

Lemma float_mul_us frac :
  (Qabs frac <= 1)%Q ->
  float_mul (inject_Z us_per_second) frac
  = fl (inject_Z us_per_second * frac) /\
  (Qabs (fl (inject_Z us_per_second * frac)) <= inject_Z (2 ^ 20))%Q.
Proof.
  intros H.
  assert (Hb : (Qabs (inject_Z us_per_second * frac) <= inject_Z (2 ^ 20))%Q).
  { rewrite Qabs_Qmult.
    change (Qabs (inject_Z us_per_second)) with 1000000%Q.
    change (inject_Z (2 ^ 20)) with 1048576%Q.
    remember (Qabs frac) as a eqn:Ea. clear Ea. lra. }
  split.
  - apply (float_mul_finite _ _ 20); [lia|exact Hb].
  - apply fl_abs_bound; [lia|exact Hb].
Qed.

Lemma timedelta_of_whole_seconds s :
  timedelta_of_seconds (inject_Z s) = s * us_per_second.
Proof.
  unfold timedelta_of_seconds. rewrite trunc_inject.
  assert (E0 : (inject_Z s - inject_Z s == 0)%Q) by ring.
  assert (Hf : (Qabs (inject_Z s - inject_Z s) <= 1)%Q)
    by (rewrite E0; discriminate).
  rewrite (proj1 (float_mul_us _ Hf)).
  assert (E : (inject_Z us_per_second * (inject_Z s - inject_Z s) == 0)%Q)
    by ring.
  rewrite (fl_comp _ _ E), fl_zero.
  change (round_half_even 0) with 0. lia.
Qed.

(** The microseconds of [timedelta(seconds=s)] when [s] is so near to a
    number of whole microseconds that the error of the product with [1e6]
    keeps the total below a half. *)
Lemma timedelta_of_seconds_near s us :
  (Qabs (inject_Z us_per_second * s - inject_Z us) < 4999 # 10000)%Q ->
  timedelta_of_seconds s = us.
Proof.
  intros H. unfold timedelta_of_seconds.
  pose proof (trunc_near s) as Hf.
  set (I := trunc s) in *.
  rewrite (proj1 (float_mul_us (s - inject_Z I) (Qlt_le_weak _ _ Hf))).
  assert (E : round_half_even
                (fl (inject_Z us_per_second * (s - inject_Z I)))
              = us - I * us_per_second).
  { apply round_half_even_near.
    pose proof (fl_error (inject_Z us_per_second * (s - inject_Z I))) as He.
    assert (Hm : (Qabs (inject_Z us_per_second * (s - inject_Z I))
                  <= 1000000)%Q).
    { rewrite Qabs_Qmult.
      change (Qabs (inject_Z us_per_second)) with 1000000%Q.
      remember (Qabs (s - inject_Z I)) as a eqn:Ea. clear Ea. lra. }
    assert (Hm' : (Qabs (inject_Z us_per_second * (s - inject_Z I))
                   * half_ulp <= 1000000 * half_ulp)%Q).
    { apply Qmult_le_compat_r; [exact Hm|discriminate]. }
    rewrite inject_Z_sub, inject_Z_mult.
    change (inject_Z us_per_second) with 1000000%Q in *.
    apply Qabs_Qle_condition in He. destruct He as [He1 He2].
    apply Qabs_Qlt_condition in H. destruct H as [H1 H2].
    apply Qabs_Qlt_condition.
    remember (fl (1000000 * (s - inject_Z I))) as p eqn:Ep. clear Ep.
    remember (Qabs (1000000 * (s - inject_Z I))) as A eqn:EA. clear EA.
    clear Hf. clearbody I.
    remember (inject_Z I) as i eqn:Ei. clear Ei.
    remember (inject_Z us) as u eqn:Eu. clear Eu.
    unfold half_ulp, tiny in *. split; lra. }
  rewrite E. lia.
Qed.

(** Far from the epoch [timedelta(seconds=s)] is far from it as well. *)
Lemma timedelta_of_seconds_far s :
  ((inject_Z (2 ^ 53) <= s)%Q ->
   2 ^ 53 * us_per_second - 2 ^ 20 - 1 <= timedelta_of_seconds s) /\
  ((s <= - inject_Z (2 ^ 53))%Q ->
   timedelta_of_seconds s <= - (2 ^ 53 * us_per_second) + 2 ^ 20 + 1).
Proof.
  unfold timedelta_of_seconds.
  pose proof (trunc_near s) as Hf.
  destruct (float_mul_us _ (Qlt_le_weak _ _ Hf)) as [-> Hb].
  apply Qabs_Qle_condition in Hb. destruct Hb as [Hb1 Hb2].
  destruct (round_half_even_bounds
              (fl (inject_Z us_per_second * (s - inject_Z (trunc s)))))
    as [Hr1 Hr2].
  set (r := round_half_even _) in *.
  assert (Hr : - 2 ^ 20 - 1 <= r <= 2 ^ 20 + 1).
  { assert (H1 : (inject_Z (- 2 ^ 20 - 1) < inject_Z (r + 1))%Q).
    { rewrite inject_Z_sub, inject_Z_plus.
      change (inject_Z 1) with 1%Q.
      change (inject_Z (- 2 ^ 20)) with (- inject_Z (2 ^ 20))%Q. lra. }
    assert (H2 : (inject_Z (r - 1) < inject_Z (2 ^ 20 + 1))%Q).
    { rewrite inject_Z_sub, inject_Z_plus. change (inject_Z 1) with 1%Q. lra. }
    rewrite <- Zlt_Qlt in H1. rewrite <- Zlt_Qlt in H2. lia. }
  change us_per_second with 1000000. split; intros H.
  - apply trunc_mono in H. rewrite trunc_inject in H. lia.
  - change (- inject_Z (2 ^ 53))%Q with (inject_Z (- 2 ^ 53)) in H.
    apply trunc_mono in H. rewrite trunc_inject in H. lia.
Qed.

Lemma true_div_value a d :
  d <> 0 -> Z.abs a < DBL_OVERFLOW * Z.abs d ->
  true_div a d = Ok (fl (inject_Z a / inject_Z d)).
Proof.
  intros Hd Ha. unfold true_div.
  destruct (Z.eqb_spec d 0) as [|_]; [contradiction|].
  destruct (Z.leb_spec (DBL_OVERFLOW * Z.abs d) (Z.abs a)) as [Hle|_];
    [lia|reflexivity].
Qed.

Lemma true_div_multiple s d :
  d <> 0 -> Z.abs s < DBL_OVERFLOW ->
  true_div (s * d) d = Ok (fl (inject_Z s)).
Proof.
  intros Hd Hs. rewrite true_div_value; [|exact Hd|].
  - f_equal. apply fl_comp. rewrite inject_Z_mult. field. intros E.
    exact (Hd (proj1 (inject_Z_injective d 0) E)).
  - rewrite Z.abs_mul. apply Z.mul_lt_mono_pos_r; lia.
Qed.

Lemma true_div_exact s d :
  d <> 0 -> Z.abs s <= 2 ^ 53 -> true_div (s * d) d = Ok (inject_Z s).
Proof.
  intros Hd Hs. rewrite true_div_multiple; [|exact Hd|].
  - now rewrite fl_integer.
  - pose proof DBL_OVERFLOW_large as HD.
    assert (2 ^ 53 < 2 ^ 64) by reflexivity. lia.
Qed.

Lemma datetime_add_epoch us :
  datetime_add APPLE_EPOCH us =
  if in_datetime_range us then Ok (utc_datetime us) else Raise OverflowError.
Proof. reflexivity. Qed.

Lemma apple_time_to_datetime_value v d seconds :
  true_div v d = Ok seconds ->
  apple_time_to_datetime (Some v) d =
  if in_datetime_range (timedelta_of_seconds seconds)
  then Ok (Some (utc_datetime (timedelta_of_seconds seconds)))
  else Raise OverflowError.
Proof.
  intros H. unfold apple_time_to_datetime. rewrite H, datetime_add_epoch.
  now destruct (in_datetime_range (timedelta_of_seconds seconds)).
Qed.

Lemma apple_time_to_datetime_exact s d :
  d <> 0 -> Z.abs s <= 2 ^ 53 ->
  apple_time_to_datetime (Some (s * d)) d =
  if in_datetime_range (s * us_per_second)
  then Ok (Some (utc_datetime (s * us_per_second)))
  else Raise OverflowError.
Proof.
  intros Hd Hs.
  rewrite (apple_time_to_datetime_value _ _ _ (true_div_exact s d Hd Hs)).
  now rewrite timedelta_of_whole_seconds.
Qed.

Lemma int_of_float_inject k :
  Z.abs k < 2 ^ 1024 -> int_of_float (inject_Z k) = Ok k.
Proof.
  intros Hk. unfold int_of_float.
  replace (Qle_bool inf (Qabs (inject_Z k))) with false.
  - now rewrite trunc_inject.
  - symmetry. apply not_true_is_false. intros H.
    apply Qle_bool_iff in H. unfold inf in H.
    change (Qabs (inject_Z k)) with (inject_Z (Z.abs k)) in H.
    rewrite <- Zle_Qle in H. lia.
Qed.

Lemma float_of_int_small d :
  Z.abs d <= 2 ^ 53 -> float_of_int d = Ok (inject_Z d).
Proof.
  intros Hd. unfold float_of_int. pose proof DBL_OVERFLOW_large as HD.
  assert (2 ^ 53 < 2 ^ 64) by reflexivity.
  destruct (Z.leb_spec DBL_OVERFLOW (Z.abs d)) as [Hle|_].
  - exfalso. generalize dependent DBL_OVERFLOW. intros D. lia.
  - now rewrite fl_integer.
Qed.

(** [astimezone] first: a value whose instant has no wall clock in UTC
    raises, any other value is measured from the epoch. *)
Lemma datetime_to_apple_instant value d :
  datetime_to_apple value d =
  if in_datetime_range (instant value)
  then total_seconds <- true_div (instant value) us_per_second ;;
       d' <- float_of_int d ;;
       int_of_float (float_mul total_seconds d')
  else Raise OverflowError.
Proof.
  unfold datetime_to_apple, astimezone_utc, datetime_add.
  change (wall value + - utcoffset value) with (instant value).
  destruct (in_datetime_range (instant value)); [|reflexivity].
  cbn [bind wall]. unfold datetime_sub, instant, APPLE_EPOCH, utc_datetime.
  cbn [wall utcoffset].
  now replace (wall value - utcoffset value - 0 - (0 - 0))
    with (wall value - utcoffset value) by lia.
Qed.

Lemma datetime_to_apple_exact value s d m k :
  instant value = s * us_per_second ->
  in_datetime_range (s * us_per_second) = true ->
  Z.abs s <= 2 ^ 53 -> Z.abs d <= 2 ^ 53 ->
  s * d = m * 2 ^ k -> 0 <= k -> Z.abs m <= 2 ^ 53 ->
  datetime_to_apple value d = Ok (s * d).
Proof.
  intros Hi Hr Hs Hd Hsd Hk Hm.
  rewrite datetime_to_apple_instant, Hi, Hr.
  rewrite (true_div_exact s us_per_second) by (discriminate || assumption).
  cbn [bind]. rewrite (float_of_int_small d Hd). cbn [bind].
  assert (Hb : Z.abs (s * d) <= 2 ^ 106).
  { rewrite Z.abs_mul. change (2 ^ 106) with (2 ^ 53 * 2 ^ 53).
    apply Z.mul_le_mono_nonneg; lia. }
  assert (E : (inject_Z s * inject_Z d == inject_Z (s * d))%Q)
    by (now rewrite inject_Z_mult).
  rewrite (float_mul_finite _ _ 106);
    [|lia
     |rewrite E; change (Qabs (inject_Z (s * d)))
        with (inject_Z (Z.abs (s * d))); now rewrite <- Zle_Qle].
  rewrite (fl_comp _ _ E), (fl_inject_exact _ m k Hsd Hk Hm).
  apply int_of_float_inject.
  apply Z.le_lt_trans with (1 := Hb). apply Z.pow_lt_mono_r; lia.
Qed.

Lemma in_datetime_range_seconds s :
  in_datetime_range (s * us_per_second) = true <->
  -63113904000 <= s <= 252423993599.
Proof.
  unfold in_datetime_range. rewrite andb_true_iff, Z.leb_le, Z.leb_le.
  change datetime_min with (-63113904000 * 1000000).
  change datetime_max with (252423993600 * 1000000 - 1).
  change us_per_second with 1000000. lia.
Qed.

Lemma in_datetime_range_bound us :
  in_datetime_range us = true -> Z.abs us <= 2 ^ 58.
Proof.
  unfold in_datetime_range. rewrite andb_true_iff, Z.leb_le, Z.leb_le.
  change datetime_min with (-63113904000000000).
  change datetime_max with 252423993599999999.
  change (2 ^ 58) with 288230376151711744. lia.
Qed.

Lemma datetime_to_apple_value value d :
  in_datetime_range (instant value) = true -> Z.abs d <= 2 ^ 53 ->
  datetime_to_apple value d =
  Ok (trunc (fl (fl (inject_Z (instant value) / inject_Z us_per_second)
                 * inject_Z d))).
Proof.
  intros Hr Hd. rewrite datetime_to_apple_instant, Hr.
  apply in_datetime_range_bound in Hr.
  set (us := instant value) in *.
  rewrite true_div_ok;
    [|discriminate
     |change (2 ^ 64) with 18446744073709551616;
      change (2 ^ 58) with 288230376151711744 in Hr; lia].
  cbn [bind]. rewrite (float_of_int_small d Hd). cbn [bind].
  set (ts := fl (inject_Z us / inject_Z us_per_second)).
  assert (Hts : (Qabs ts <= inject_Z (2 ^ 58))%Q).
  { apply fl_abs_bound; [lia|].
    unfold Qdiv. rewrite Qabs_Qmult.
    change (Qabs (/ inject_Z us_per_second)) with (1 # 1000000)%Q.
    change (Qabs (inject_Z us)) with (inject_Z (Z.abs us)).
    rewrite Zle_Qle in Hr.
    pose proof (Qabs_nonneg (inject_Z us)) as Hnn.
    change (Qabs (inject_Z us)) with (inject_Z (Z.abs us)) in Hnn.
    remember (inject_Z (Z.abs us)) as a eqn:Ea. clear Ea.
    change (inject_Z (2 ^ 58)) with 288230376151711744%Q in *. lra. }
  assert (Hp : (Qabs (ts * inject_Z d) <= inject_Z (2 ^ 111))%Q).
  { rewrite Qabs_Qmult.
    change (Qabs (inject_Z d)) with (inject_Z (Z.abs d)).
    rewrite Zle_Qle in Hd.
    assert (Hd0 : (0 <= inject_Z (Z.abs d))%Q).
    { change 0%Q with (inject_Z 0). rewrite <- Zle_Qle. lia. }
    pose proof (Qabs_nonneg ts) as Hnn.
    change (inject_Z (2 ^ 111)) with (inject_Z (2 ^ 58) * inject_Z (2 ^ 53))%Q.
    remember (inject_Z (Z.abs d)) as b eqn:Eb. clear Eb.
    remember (Qabs ts) as a eqn:Ea. clear Ea.
    change (inject_Z (2 ^ 58)) with 288230376151711744%Q in *.
    change (inject_Z (2 ^ 53)) with 9007199254740992%Q in *. nra. }
  rewrite (float_mul_finite _ _ 111 ltac:(lia) Hp).
  unfold int_of_float.
  replace (Qle_bool inf (Qabs (fl (ts * inject_Z d)))) with false;
    [reflexivity|].
  symmetry. apply not_true_is_false. intros H. apply Qle_bool_iff in H.
  assert (Hlt : (Qabs (fl (ts * inject_Z d)) < inf)%Q).
  { apply (below_inf _ 111); [lia|]. apply fl_abs_bound; [lia|exact Hp]. }
  apply (Qlt_not_le _ _ Hlt H).
Qed.

(** X2: [apple_time_to_datetime] gives [None] for a missing value and
    whenever the division raises, that is for a zero divisor and for a
    quotient beyond the floats, and in no other case; the only exception
    that leaves it is the [OverflowError] of the date arithmetic. *)
Theorem apple_time_to_datetime_none value divisor :
  (apple_time_to_datetime value divisor = Ok None <->
   value = None \/ divisor = 0 \/
   exists v, value = Some v /\ DBL_OVERFLOW * Z.abs divisor <= Z.abs v) /\
  (forall e, apple_time_to_datetime value divisor = Raise e ->
             e = OverflowError).
Proof.
  destruct value as [v|]; [|split; [split; auto|discriminate]].
  destruct (Z.eq_dec divisor 0) as [E0|E0].
  { subst divisor. unfold apple_time_to_datetime, true_div.
    cbn [Z.eqb]. split; [split; auto|discriminate]. }
  destruct (Z.le_gt_cases (DBL_OVERFLOW * Z.abs divisor) (Z.abs v))
    as [Hle|Hgt].
  { unfold apple_time_to_datetime, true_div.
    destruct (Z.eqb_spec divisor 0) as [|_]; [contradiction|].
    destruct (Z.leb_spec (DBL_OVERFLOW * Z.abs divisor) (Z.abs v))
      as [_|Hgt]; [|lia].
    split; [split; eauto|discriminate]. }
  rewrite (apple_time_to_datetime_value _ _ _
             (true_div_value v divisor E0 Hgt)).
  destruct (in_datetime_range _).
  - split; [|discriminate]. split; [discriminate|].
    intros [H|[H|(v' & H & Hle)]]; try discriminate; try contradiction.
    injection H as <-. lia.
  - split; [|intros e H; injection H as <-; reflexivity].
    split; [discriminate|].
    intros [H|[H|(v' & H & Hle)]]; try discriminate; try contradiction.
    injection H as <-. lia.
Qed.

Lemma apple_time_to_datetime_none_witness :
  apple_time_to_datetime (Some 5) 0 = Ok None.
Proof.
  apply (apple_time_to_datetime_none (Some 5) 0). right. left. reflexivity.
Defined.

Lemma fl_pow2_53 : fl (inject_Z (2 ^ 53)) = inject_Z (2 ^ 53).
Proof.
  apply (fl_inject_exact _ 1 53); [reflexivity|discriminate|discriminate].
Qed.

(** X3: on a whole number of seconds [apple_time_to_datetime] is exact, for
    any divisor but zero; from year 10000 on, and before year 1, it
    raises [OverflowError], which its [try] does not cover, as long as
    the seconds are a float; beyond the floats the division raises inside
    the [try] and the result is [None]. *)
Theorem apple_time_to_datetime_whole_seconds s d :
  d <> 0 ->
  (-63113904000 <= s <= 252423993599 ->
   apple_time_to_datetime (Some (s * d)) d
   = Ok (Some (utc_datetime (s * us_per_second)))) /\
  (s < -63113904000 \/ 252423993599 < s ->
   Z.abs s < DBL_OVERFLOW ->
   apple_time_to_datetime (Some (s * d)) d = Raise OverflowError) /\
  (DBL_OVERFLOW <= Z.abs s ->
   apple_time_to_datetime (Some (s * d)) d = Ok None).
Proof.
  intros Hd. pose proof (in_datetime_range_seconds s) as Hr.
  split; [|split].
  - intros H. rewrite apple_time_to_datetime_exact;
      [|exact Hd|change (2 ^ 53) with 9007199254740992; lia].
    now rewrite (proj2 Hr H).
  - intros H Hs.
    destruct (Z.le_gt_cases (Z.abs s) (2 ^ 53)) as [Hsmall|Hbig].
    + rewrite (apple_time_to_datetime_exact s d Hd Hsmall).
      destruct (in_datetime_range (s * us_per_second)); [|reflexivity].
      assert (-63113904000 <= s <= 252423993599) by now apply Hr. lia.
    + rewrite (apple_time_to_datetime_value _ _ _
                 (true_div_multiple s d Hd Hs)).
      replace (in_datetime_range (timedelta_of_seconds (fl (inject_Z s))))
        with false; [reflexivity|].
      symmetry. apply not_true_is_false.
      unfold in_datetime_range. rewrite andb_true_iff, Z.leb_le, Z.leb_le.
      change datetime_min with (-63113904000000000).
      change datetime_max with 252423993599999999.
      destruct (timedelta_of_seconds_far (fl (inject_Z s))) as [Hhi Hlo].
      change (2 ^ 53 * us_per_second) with 9007199254740992000000 in Hhi, Hlo.
      change (2 ^ 20) with 1048576 in Hhi, Hlo.
      change (2 ^ 53) with 9007199254740992 in Hbig.
      destruct (Z.le_gt_cases 0 s) as [Hpos|Hneg].
      * assert (Hq : (inject_Z (2 ^ 53) <= fl (inject_Z s))%Q).
        { rewrite <- fl_pow2_53. apply fl_mono. rewrite <- Zle_Qle.
          change (2 ^ 53) with 9007199254740992. lia. }
        specialize (Hhi Hq). lia.
      * assert (Hq : (fl (inject_Z s) <= - inject_Z (2 ^ 53))%Q).
        { rewrite <- fl_pow2_53, <- fl_opp. apply fl_mono.
          change (- inject_Z (2 ^ 53))%Q with (inject_Z (- 2 ^ 53)).
          rewrite <- Zle_Qle. change (- 2 ^ 53) with (-9007199254740992).
          lia. }
        specialize (Hlo Hq). lia.
  - intros Hs. unfold apple_time_to_datetime, true_div.
    destruct (Z.eqb_spec d 0) as [|_]; [contradiction|].
    destruct (Z.leb_spec (DBL_OVERFLOW * Z.abs d) (Z.abs (s * d)))
      as [_|Hlt]; [reflexivity|].
    exfalso. rewrite Z.abs_mul in Hlt.
    assert (DBL_OVERFLOW * Z.abs d <= Z.abs s * Z.abs d)
      by (apply Z.mul_le_mono_nonneg_r; lia).
    lia.
Qed.

Lemma apple_time_to_datetime_whole_seconds_witness :
  apple_time_to_datetime (Some (252423993599 * 1000)) 1000 =
  Ok (Some (utc_datetime (252423993599 * us_per_second))) /\
  apple_time_to_datetime (Some (252423993600 * 1000)) 1000 =
  Raise OverflowError /\
  apple_time_to_datetime (Some (2 ^ 1024 * 1000)) 1000 = Ok None.
Proof.
  split; [|split].
  - apply (apple_time_to_datetime_whole_seconds 252423993599 1000);
      [discriminate|split; discriminate].
  - apply (apple_time_to_datetime_whole_seconds 252423993600 1000);
      [discriminate|right; reflexivity|reflexivity].
  - apply (apple_time_to_datetime_whole_seconds (2 ^ 1024) 1000);
      [discriminate|discriminate].
Defined.

Lemma detect_date_scale_cases v :
  let d := fst (detect_date_scale v) in
  d = 1 \/ d = 1000 \/ d = 1000000 \/ d = 1000000000.
Proof.
  cbv zeta. unfold detect_date_scale.
  destruct (negb (truthy_int v)); [now left|].
  destruct v as [z|]; [|now left].
  destruct (10 ^ 17 <? z); [now right; right; right|].
  destruct (10 ^ 14 <? z); [now right; right; left|].
  destruct (10 ^ 11 <? z); [now right; left|now left].
Qed.

(** X4: the bounds that [main] passes to the query are exact: for a
    [datetime] of any time zone on a whole second and the divisor that
    [detect_date_scale] chose, [datetime_to_apple] returns the seconds
    times the divisor, and [apple_time_to_datetime] takes that value back
    to the same instant, as a [datetime] in UTC.  For nanoseconds this
    needs the product to fit a float, which it does between the years
    1855 and 2147. *)
Theorem datetime_to_apple_round_trip max_date value s :
  let d := fst (detect_date_scale max_date) in
  instant value = s * us_per_second ->
  in_datetime_range (s * us_per_second) = true ->
  (d = 1000000000 -> Z.abs s <= 4611686018) ->
  datetime_to_apple value d = Ok (s * d) /\
  apple_time_to_datetime (Some (s * d)) d
  = Ok (Some (utc_datetime (s * us_per_second))).
Proof.
  cbv zeta. intros Hi Hr Hns. pose proof Hr as Hr'.
  apply in_datetime_range_seconds in Hr'.
  assert (Hs : Z.abs s <= 2 ^ 53).
  { change (2 ^ 53) with 9007199254740992. lia. }
  split.
  - destruct (detect_date_scale_cases max_date) as [E|[E|[E|E]]];
      cbv zeta in E; rewrite E.
    + apply (datetime_to_apple_exact value s 1 s 0); try assumption;
        [discriminate|change (2 ^ 0) with 1; lia|lia].
    + apply (datetime_to_apple_exact value s 1000 (s * 125) 3);
        try assumption;
        [discriminate|change (2 ^ 3) with 8; lia|lia|].
      change (2 ^ 53) with 9007199254740992. lia.
    + apply (datetime_to_apple_exact value s 1000000 (s * 15625) 6);
        try assumption;
        [discriminate|change (2 ^ 6) with 64; lia|lia|].
      change (2 ^ 53) with 9007199254740992. lia.
    + apply (datetime_to_apple_exact value s 1000000000 (s * 1953125) 9);
        try assumption;
        [discriminate|change (2 ^ 9) with 512; lia|lia|].
      specialize (Hns E). change (2 ^ 53) with 9007199254740992. lia.
  - rewrite apple_time_to_datetime_exact; [now rewrite Hr| |exact Hs].
    destruct (detect_date_scale_cases max_date) as [E|[E|[E|E]]];
      cbv zeta in E; rewrite E; discriminate.
Qed.

Lemma datetime_to_apple_round_trip_witness :
  datetime_to_apple
    (mkDatetime (700000000 * us_per_second + 36000 * us_per_second)
                (36000 * us_per_second))
    (fst (detect_date_scale (Some 700000000000000000)))
  = Ok (700000000 * fst (detect_date_scale (Some 700000000000000000))) /\
  apple_time_to_datetime
    (Some (700000000 * fst (detect_date_scale (Some 700000000000000000))))
    (fst (detect_date_scale (Some 700000000000000000)))
  = Ok (Some (utc_datetime (700000000 * us_per_second))).
Proof.
  apply (datetime_to_apple_round_trip (Some 700000000000000000)
           (mkDatetime (700000000 * us_per_second + 36000 * us_per_second)
                       (36000 * us_per_second))
           700000000).
  - reflexivity.
  - reflexivity.
  - intros _. discriminate.
Defined.

(** X5: [datetime_to_apple] first takes its argument to UTC, and
    [astimezone] raises [OverflowError] when the instant has no wall
    clock there, before year 1 or after year 9999.  Every other
    [datetime] gets a value when the divisor is a float, and the order of
    two instants is kept when the divisor is not negative, so the bounds
    that [main] computes for [--since] and [--until] are never
    swapped. *)
Theorem datetime_to_apple_monotone :
  (forall value d,
      in_datetime_range (instant value) = false ->
      datetime_to_apple value d = Raise OverflowError) /\
  (forall value1 value2 d,
      in_datetime_range (instant value1) = true ->
      in_datetime_range (instant value2) = true ->
      0 <= d <= 2 ^ 53 ->
      instant value1 <= instant value2 ->
      exists a1 a2,
        datetime_to_apple value1 d = Ok a1 /\
        datetime_to_apple value2 d = Ok a2 /\
        a1 <= a2).
Proof.
  split.
  - intros value d H. now rewrite datetime_to_apple_instant, H.
  - intros value1 value2 d H1 H2 Hd Hle.
    rewrite !datetime_to_apple_value by (assumption || lia).
    eexists _, _. split; [reflexivity|]. split; [reflexivity|].
    apply trunc_mono. apply fl_mono.
    apply Qmult_le_compat_r.
    + apply fl_mono. apply Qmult_le_compat_r; [|discriminate].
      now rewrite <- Zle_Qle.
    + change 0%Q with (inject_Z 0). rewrite <- Zle_Qle. lia.
Qed.

Lemma datetime_to_apple_monotone_witness :
  datetime_to_apple (mkDatetime datetime_min (3600 * us_per_second)) 1000
  = Raise OverflowError /\
  exists a1 a2,
    datetime_to_apple (mkDatetime 1001000 (3600 * us_per_second)) 1000
    = Ok a1 /\
    datetime_to_apple (utc_datetime 1002000) 1000 = Ok a2 /\ a1 <= a2.
Proof.
  split.
  - apply (proj1 datetime_to_apple_monotone). reflexivity.
  - apply (proj2 datetime_to_apple_monotone);
      [reflexivity|reflexivity|split; discriminate|discriminate].
Defined.

(** X6: milliseconds and microseconds come back exactly: for a timestamp
    within [2^32] seconds of the epoch (136 years) in seconds,
    milliseconds or microseconds, the rounding of the division does not
    reach the microseconds of the [datetime]. *)
Theorem apple_time_to_datetime_microseconds v d :
  d = 1 \/ d = 1000 \/ d = 1000000 ->
  Z.abs v <= 2 ^ 32 * d ->
  apple_time_to_datetime (Some v) d
  = Ok (Some (utc_datetime (v * (us_per_second / d)))).
Proof.
  intros Hd Hv.
  assert (Hd0 : 0 < d) by (destruct Hd as [->|[->| ->]]; reflexivity).
  assert (Hc : us_per_second / d * d = us_per_second)
    by (destruct Hd as [->|[->| ->]]; reflexivity).
  assert (Hc1 : 1 <= us_per_second / d <= 1000000)
    by (destruct Hd as [->|[->| ->]]; split; discriminate).
  assert (Hd1 : d <= 1000000)
    by (destruct Hd as [->|[->| ->]]; discriminate).
  change (2 ^ 32) with 4294967296 in Hv.
  assert (Hdiv : true_div v d = Ok (fl (inject_Z v / inject_Z d))).
  { apply true_div_ok; [lia|change (2 ^ 64) with 18446744073709551616; lia]. }
  rewrite (apple_time_to_datetime_value _ _ _ Hdiv).
  set (x := (inject_Z v / inject_Z d)%Q).
  assert (Hdq : (0 < inject_Z d)%Q)
    by (change 0%Q with (inject_Z 0); now rewrite <- Zlt_Qlt).
  assert (Hx : (Qabs x <= 4294967296)%Q).
  { unfold x, Qdiv. rewrite Qabs_Qmult.
    rewrite (Qabs_pos (/ inject_Z d)) by (apply Qinv_le_0_compat; lra).
    apply Qle_shift_div_r; [exact Hdq|].
    change (Qabs (inject_Z v)) with (inject_Z (Z.abs v)).
    change 4294967296%Q with (inject_Z 4294967296).
    rewrite <- inject_Z_mult, <- Zle_Qle. exact Hv. }
  assert (Hus : (inject_Z (v * (us_per_second / d))
                 == inject_Z us_per_second * x)%Q).
  { unfold x. rewrite <- Hc at 2. rewrite !inject_Z_mult. field.
    intros E. rewrite E in Hdq. discriminate. }
  rewrite (timedelta_of_seconds_near (fl x) (v * (us_per_second / d))).
  - replace (in_datetime_range (v * (us_per_second / d))) with true;
      [reflexivity|].
    symmetry. unfold in_datetime_range.
    rewrite andb_true_iff, Z.leb_le, Z.leb_le.
    change datetime_min with (-63113904000000000).
    change datetime_max with 252423993599999999.
    assert (Hb : Z.abs (v * (us_per_second / d)) <= 4294967296 * 1000000).
    { rewrite Z.abs_mul, (Z.abs_eq (us_per_second / d)) by lia.
      change (4294967296 * 1000000) with (4294967296 * us_per_second).
      rewrite <- Hc at 2.
      rewrite (Z.mul_comm (us_per_second / d) d), Z.mul_assoc.
      apply Z.mul_le_mono_nonneg_r; lia. }
    lia.
  - rewrite Hus. pose proof (fl_error x) as He.
    assert (Hm : (Qabs x * half_ulp <= 4294967296 * half_ulp)%Q).
    { apply Qmult_le_compat_r; [exact Hx|discriminate]. }
    change (inject_Z us_per_second) with 1000000%Q.
    apply Qabs_Qle_condition in He. destruct He as [He1 He2].
    apply Qabs_Qlt_condition.
    remember (fl x) as s eqn:Es. clear Es.
    remember (Qabs x) as A eqn:EA. clear EA.
    clear Hus Hdiv. clearbody x.
    unfold half_ulp, tiny in *. split; lra.
Qed.

Lemma apple_time_to_datetime_microseconds_witness :
  apple_time_to_datetime (Some 1001) 1000
  = Ok (Some (utc_datetime (1001 * (us_per_second / 1000)))).
Proof.
  apply (apple_time_to_datetime_microseconds 1001 1000).
  - right. left. reflexivity.
  - discriminate.
Defined.

(** X7: in milliseconds and microseconds [datetime_to_apple] may lose one
    unit, and no more: [int] truncates a product that the two roundings
    can leave just below the exact value, as for 1.001 seconds in
    milliseconds.  So the round trip through [apple_time_to_datetime]
    and back can lose a unit where the value is not on a whole second. *)
Theorem datetime_to_apple_truncates :
  (forall value v d,
      d = 1000 \/ d = 1000000 ->
      0 <= v <= 2 ^ 32 * d ->
      instant value = v * (us_per_second / d) ->
      exists a,
        datetime_to_apple value d = Ok a /\
        v - 1 <= a <= v) /\
  apple_time_to_datetime (Some 1001) 1000
  = Ok (Some (utc_datetime 1001000)) /\
  datetime_to_apple (utc_datetime 1001000) 1000 = Ok 1000.
Proof.
  split; [|split; vm_compute; reflexivity].
  intros value v d Hd Hv Hi. change (2 ^ 32) with 4294967296 in Hv.
  assert (Hr : in_datetime_range (instant value) = true).
  { rewrite Hi.
    unfold in_datetime_range. rewrite andb_true_iff, Z.leb_le, Z.leb_le.
    change datetime_min with (-63113904000000000).
    change datetime_max with 252423993599999999.
    destruct Hd as [->| ->].
    - change (us_per_second / 1000) with 1000. lia.
    - change (us_per_second / 1000000) with 1. lia. }
  rewrite (datetime_to_apple_value _ _ Hr)
    by (change (2 ^ 53) with 9007199254740992;
        destruct Hd as [->| ->]; discriminate).
  rewrite Hi.
  eexists. split; [reflexivity|].
  assert (Hx : (inject_Z (v * (us_per_second / d)) / inject_Z us_per_second
                == inject_Z v / inject_Z d)%Q).
  { destruct Hd as [->| ->].
    - change (us_per_second / 1000) with 1000. rewrite inject_Z_mult.
      change (inject_Z us_per_second) with 1000000%Q.
      change (inject_Z 1000) with 1000%Q. now field.
    - change (us_per_second / 1000000) with 1. rewrite inject_Z_mult.
      change (inject_Z us_per_second) with 1000000%Q.
      change (inject_Z 1000000) with 1000000%Q.
      change (inject_Z 1) with 1%Q. now field. }
  rewrite (fl_comp _ _ Hx).
  set (x := (inject_Z v / inject_Z d)%Q).
  assert (Hv1 : (0 <= inject_Z v)%Q)
    by (change 0%Q with (inject_Z 0); rewrite <- Zle_Qle; lia).
  assert (Hv2 : (inject_Z v <= 4294967296 * inject_Z d)%Q).
  { change 4294967296%Q with (inject_Z 4294967296).
    rewrite <- inject_Z_mult, <- Zle_Qle. lia. }
  assert (Hx0 : (0 <= x)%Q).
  { unfold x. destruct Hd as [->| ->];
      (apply Qle_shift_div_l; [reflexivity|lra]). }
  destruct (fl_error_nonneg x Hx0) as [Hs1 Hs2].
  assert (Hts : (0 <= fl x)%Q) by now apply fl_nonneg.
  assert (Hp0 : (0 <= fl x * inject_Z d)%Q).
  { apply Qmult_le_0_compat; [exact Hts|].
    destruct Hd as [->| ->]; discriminate. }
  destruct (fl_error_nonneg _ Hp0) as [Hp1 Hp2].
  assert (Ex : (inject_Z v == x * inject_Z d)%Q).
  { unfold x. field. destruct Hd as [->| ->]; discriminate. }
  remember (fl (fl x * inject_Z d)) as p eqn:Ep. clear Ep.
  remember (fl x) as ts eqn:Ets. clear Ets.
  clearbody x. clear Hx Hr Hi.
  split.
  - rewrite <- (trunc_inject (v - 1)). apply trunc_mono.
    rewrite inject_Z_sub. change (inject_Z 1) with 1%Q.
    remember (inject_Z v) as vq eqn:Evq. clear Evq.
    destruct Hd as [->| ->];
      [change (inject_Z 1000) with 1000%Q in *
      |change (inject_Z 1000000) with 1000000%Q in *];
      unfold half_ulp, tiny in *; lra.
  - apply trunc_below; [lia|].
    rewrite inject_Z_plus. change (inject_Z 1) with 1%Q.
    remember (inject_Z v) as vq eqn:Evq. clear Evq.
    destruct Hd as [->| ->];
      [change (inject_Z 1000) with 1000%Q in *
      |change (inject_Z 1000000) with 1000000%Q in *];
      unfold half_ulp, tiny in *; lra.
Qed.

Lemma datetime_to_apple_truncates_witness :
  exists a,
    datetime_to_apple
      (mkDatetime (1999 * (us_per_second / 1000) + 3600 * us_per_second)
                  (3600 * us_per_second)) 1000 = Ok a /\
    1999 - 1 <= a <= 1999.
Proof.
  apply (proj1 datetime_to_apple_truncates _ 1999 1000).
  - left. reflexivity.
  - split; discriminate.
  - reflexivity.
Defined.

(** ** [load_messages]: the query *)

Lemma placeholders_app s1 s2 :
  placeholders (s1 ++ s2) = (placeholders s1 + placeholders s2)%nat.
Proof.
  induction s1 as [|c s1 IH]; [reflexivity|].
  cbn [String.append placeholders]. rewrite IH. lia.
Qed.

(** X8: the statement that [load_messages] executes has one placeholder for
    each parameter, the parameters are the lower bound and then the
    upper bound, as far as they are given, and there is a [WHERE] clause
    exactly when there is a bound. *)
Theorem load_messages_query execute since_raw until_raw :
  let params :=
    (match since_raw with Some s => [s] | None => [] end)
    ++ (match until_raw with Some u => [u] | None => [] end) in
  load_messages execute since_raw until_raw =
  map message_of_row (execute (sql since_raw until_raw) params) /\
  placeholders (sql since_raw until_raw) = List.length params /\
  (where_clause since_raw until_raw = EmptyString <->
   since_raw = None /\ until_raw = None).
Proof.
  cbv zeta. unfold load_messages, sql. rewrite !placeholders_app.
  change (placeholders sql_head) with 0%nat.
  change (placeholders sql_tail) with 0%nat.
  destruct since_raw as [s|], until_raw as [u|];
    (split; [reflexivity|]); (split; [reflexivity|]);
    split; try discriminate; try (intros []; discriminate); auto.
Qed.

Lemma load_messages_query_witness :
  placeholders (sql (Some 5) None) = 1%nat /\
  where_clause (Some 5) None = "WHERE m.date >= ?"%string.
Proof.
  destruct (load_messages_query (fun _ _ => []) (Some 5) None)
    as (_ & H & _).
  split; [exact H|reflexivity].
Defined.

(** ** [next_opposite_times]: what a signal depends on *)

Lemma scan_app_times l1 l2 :
  skipn (List.length l1) (next_reply_time_raw (scan (l1 ++ l2))) =
  next_reply_time_raw (scan l2) /\
  skipn (List.length l1) (next_reply_type (scan (l1 ++ l2))) =
  next_reply_type (scan l2).
Proof.
  induction l1 as [|m l1 IH]; [split; reflexivity|].
  change ((m :: l1) ++ l2) with (m :: (l1 ++ l2)).
  rewrite scan_times_cons, scan_types_cons. exact IH.
Qed.

(** X9: both arrays have one entry per message, and the entries of a suffix of
    the conversation are those of the suffix taken alone: no signal depends
    on an earlier message. *)
Theorem next_opposite_times_suffix (l1 l2 : list Message) (divisor : Z) :
  let '(times, types) := next_opposite_times (l1 ++ l2) divisor in
  let '(times2, types2) := next_opposite_times l2 divisor in
  List.length times = List.length (l1 ++ l2) /\
  List.length types = List.length (l1 ++ l2) /\
  skipn (List.length l1) times = times2 /\
  skipn (List.length l1) types = types2.
Proof.
  unfold next_opposite_times.
  destruct (scan_lengths (l1 ++ l2)) as [H1 H2].
  destruct (scan_app_times l1 l2) as [H3 H4].
  repeat split; assumption.
Qed.

Lemma skipn_nth_cons {A} (l : list A) i a :
  nth_error l i = Some a -> skipn i l = a :: skipn (S i) l.
Proof.
  revert l. induction i as [|i IH]; intros [|x l] H; try discriminate.
  - simpl in H. injection H as ->. reflexivity.
  - simpl in H. change (skipn (S i) (x :: l)) with (skipn i l).
    rewrite (IH _ H). reflexivity.
Qed.

(** X10: two neighbours: a message followed by one of the same direction has
    the signal of that message, whatever the timestamps; a message
    followed by a dated message of the other direction has that
    timestamp as its signal. *)
Theorem next_opposite_times_neighbour (msgs : list Message) (divisor : Z)
    (i : nat) (m m' : Message) :
  nth_error msgs i = Some m ->
  nth_error msgs (S i) = Some m' ->
  (from_me m' = from_me m ->
   reply_signal msgs divisor i = reply_signal msgs divisor (S i)) /\
  (forall t, from_me m' = negb (from_me m) -> date_raw m' = Some t ->
   reply_signal msgs divisor i =
   Some (Some t, Some (direction_code (from_me m')))).
Proof.
  intros Hm Hm'.
  rewrite (reply_signal_nth _ _ _ _ Hm), (reply_signal_nth _ _ _ _ Hm').
  cbv zeta. rewrite (skipn_nth_cons _ _ _ Hm'). split.
  - intros Hd. cbn [first_date]. rewrite !Hd.
    replace (Bool.eqb (from_me m) (negb (from_me m))) with false
      by (now destruct (from_me m)).
    reflexivity.
  - intros t Hd Ht. cbn [first_date]. rewrite !Hd, Ht.
    replace (Bool.eqb (negb (from_me m)) (negb (from_me m))) with true
      by (now destruct (from_me m)).
    reflexivity.
Qed.

Lemma next_opposite_times_neighbour_witness :
  reply_signal two_runs 1 0 = reply_signal two_runs 1 1 /\
  reply_signal two_runs 1 1 = Some (Some 30, Some 0).
Proof.
  split.
  - apply (next_opposite_times_neighbour two_runs 1 0
             (sample 1 1 (Some 10) None 1) (sample 2 1 (Some 20) None 1));
      reflexivity.
  - apply (next_opposite_times_neighbour two_runs 1 1
             (sample 2 1 (Some 20) None 1) (sample 3 1 (Some 30) None 0));
      reflexivity.
Defined.

(** ** [summarize_response_times]: the order of the durations *)










(** ** [summarize_response_times]: where the statistics lie *)

Lemma round2_mono x y : (x <= y)%Q -> (round2 x <= round2 y)%Q.
Proof.
  intros H. unfold round2. apply fl_mono. rewrite !Qdiv_100.
  apply Qmult_le_compat_r; [|discriminate].
  rewrite <- Zle_Qle. apply round_half_even_mono. lra.
Qed.

Lemma round2_zero : round2 0 = 0%Q.
Proof. vm_compute. reflexivity. Qed.

(** The double of a float is a float (the exponent is not bounded above in
    this model). *)
Lemma fl_double x : (fl x == x)%Q -> (fl (2 * x) == 2 * x)%Q.
Proof.
  intros Hx. destruct (fl_spec x) as (m & Hm & _ & Hb). cbv zeta in Hm.
  apply (fl_exact _ m (binade (Qabs (Qred x)) + 1)); [|exact Hb|].
  - rewrite pow2_plus. change (pow2 1) with (2 # 1)%Q.
    rewrite <- Hx at 1. rewrite Hm. ring.
  - unfold binade. lia.
Qed.

Lemma Qsum_bounds lo hi l :
  Forall (fun x => (lo <= x)%Q /\ (x <= hi)%Q) l ->
  (inject_Z (Z.of_nat (List.length l)) * lo <= Qsum l)%Q /\
  (Qsum l <= inject_Z (Z.of_nat (List.length l)) * hi)%Q.
Proof.
  induction 1 as [|x l [Hlo Hhi] _ [IHlo IHhi]].
  - simpl. change (inject_Z 0) with 0%Q. split; lra.
  - change (Qsum (x :: l)) with (x + Qsum l)%Q. cbn [List.length].
    rewrite Nat2Z.inj_succ, <- Z.add_1_r, inject_Z_plus.
    change (inject_Z 1) with 1%Q.
    generalize dependent (inject_Z (Z.of_nat (List.length l))).
    intros n IHlo IHhi.
    setoid_replace ((n + 1) * lo)%Q with (n * lo + lo)%Q by ring.
    setoid_replace ((n + 1) * hi)%Q with (n * hi + hi)%Q by ring.
    split; lra.
Qed.

Lemma mean_bounds lo hi l :
  l <> [] ->
  Forall (fun x => (lo <= x)%Q /\ (x <= hi)%Q) l ->
  (lo <= Qsum l / inject_Z (Z.of_nat (List.length l)))%Q /\
  (Qsum l / inject_Z (Z.of_nat (List.length l)) <= hi)%Q.
Proof.
  intros Hne H. destruct (Qsum_bounds lo hi l H) as [Hlo Hhi].
  assert (Hn : (0 < inject_Z (Z.of_nat (List.length l)))%Q).
  { change 0%Q with (inject_Z 0). rewrite <- Zlt_Qlt.
    destruct l; [contradiction|simpl; lia]. }
  generalize dependent (inject_Z (Z.of_nat (List.length l))).
  intros n Hlo Hhi Hn. split.
  - apply Qle_shift_div_l; [exact Hn|lra].
  - apply Qle_shift_div_r; [exact Hn|lra].
Qed.

Lemma nth_error_Forall {A} (P : A -> Prop) l i a :
  Forall P l -> nth_error l i = Some a -> P a.
Proof.
  intros H Hn. apply nth_error_In in Hn.
  rewrite Forall_forall in H. now apply H.
Qed.

(** *** The mean of two floats, with overflow *)

Lemma overflow_mono x y : (x <= y)%Q -> (overflow x <= overflow y)%Q.
Proof.
  intros H. pose proof inf_pos as Hi.
  destruct (overflow_cases x) as [[Hx ->]|[[Hx ->]|(Hx1 & Hx2 & ->)]];
    destruct (overflow_cases y) as [[Hy ->]|[[Hy ->]|(Hy1 & Hy2 & ->)]];
    lra.
Qed.

Lemma overflow_nonneg x : (0 <= x)%Q -> (0 <= overflow x)%Q.
Proof.
  intros H. pose proof inf_pos as Hi.
  destruct (overflow_cases x) as [[Hx ->]|[[Hx ->]|(Hx1 & Hx2 & ->)]]; lra.
Qed.

Lemma overflow_between x : (- inf < x)%Q -> (x < inf)%Q -> overflow x = x.
Proof.
  intros H1 H2. apply overflow_finite. apply Qabs_Qlt_condition. now split.
Qed.

Lemma float_div_finite x y :
  (- inf < x)%Q -> (x < inf)%Q -> float_div x y = overflow (fl (x / y)).
Proof.
  intros H1 H2. unfold float_div.
  replace (Qle_bool inf (Qabs x)) with false; [reflexivity|].
  symmetry. apply not_true_is_false. intros H. apply Qle_bool_iff in H.
  assert (Hlt : (Qabs x < inf)%Q) by (apply Qabs_Qlt_condition; now split).
  apply (Qlt_not_le _ _ Hlt H).
Qed.

Lemma float_div_inf : float_div inf 2 = inf /\ float_div (- inf) 2 = (- inf)%Q.
Proof. split; vm_compute; reflexivity. Qed.

Lemma round2_inf : round2 inf = inf /\ round2 (- inf) = (- inf)%Q.
Proof. split; vm_compute; reflexivity. Qed.

(** The mean of two numbers that are at most the float [hi], as
    [statistics.median] computes it, is at most [hi], unless their sum
    overflows, and then it is [inf]. *)
Lemma float_midpoint_upper hi a b :
  (fl hi == hi)%Q -> (- inf < hi)%Q -> (hi < inf)%Q ->
  (a <= hi)%Q -> (b <= hi)%Q ->
  ((float_div (float_add a b) 2 <= hi)%Q \/
   float_div (float_add a b) 2 = inf) /\
  ((2 * hi < inf)%Q -> (float_div (float_add a b) 2 <= hi)%Q).
Proof.
  intros Fhi Hh1 Hh2 Ha Hb. pose proof inf_pos as Hi.
  assert (H2 : (fl (a + b) <= 2 * hi)%Q).
  { rewrite <- (fl_double _ Fhi). apply fl_mono. lra. }
  unfold float_add.
  destruct (overflow_cases (fl (a + b))) as [[H ->]|[[H ->]|(H1 & H3 & ->)]].
  - rewrite (proj1 float_div_inf). split; [now right|intros; lra].
  - rewrite (proj2 float_div_inf). split; [left|intros _]; lra.
  - assert (Hm : (float_div (fl (a + b)) 2 <= hi)%Q).
    { rewrite (float_div_finite _ _ H1 H3).
      apply Qle_trans with (overflow hi).
      - apply overflow_mono. rewrite <- Fhi. apply fl_mono.
        apply Qle_shift_div_r; [reflexivity|lra].
      - rewrite (overflow_between _ Hh1 Hh2). apply Qle_refl. }
    split; [now left|intros _; exact Hm].
Qed.

Lemma float_midpoint_lower lo a b :
  (fl lo == lo)%Q -> (- inf < lo)%Q -> (lo < inf)%Q ->
  (lo <= a)%Q -> (lo <= b)%Q ->
  ((lo <= float_div (float_add a b) 2)%Q \/
   float_div (float_add a b) 2 = (- inf)%Q) /\
  ((- inf < 2 * lo)%Q -> (lo <= float_div (float_add a b) 2)%Q).
Proof.
  intros Flo Hl1 Hl2 Ha Hb. pose proof inf_pos as Hi.
  assert (H2 : (2 * lo <= fl (a + b))%Q).
  { rewrite <- (fl_double _ Flo). apply fl_mono. lra. }
  unfold float_add.
  destruct (overflow_cases (fl (a + b))) as [[H ->]|[[H ->]|(H1 & H3 & ->)]].
  - rewrite (proj1 float_div_inf). split; [left|intros _]; lra.
  - rewrite (proj2 float_div_inf). split; [now right|intros; lra].
  - assert (Hm : (lo <= float_div (fl (a + b)) 2)%Q).
    { rewrite (float_div_finite _ _ H1 H3).
      apply Qle_trans with (overflow lo).
      - rewrite (overflow_between _ Hl1 Hl2). apply Qle_refl.
      - apply overflow_mono. rewrite <- Flo at 1. apply fl_mono.
        apply Qle_shift_div_l; [reflexivity|lra]. }
    split; [now left|intros _; exact Hm].
Qed.

Lemma is_median_upper hi s med :
  (fl hi == hi)%Q -> (- inf < hi)%Q -> (hi < inf)%Q ->
  Forall (fun x => (x <= hi)%Q) s ->
  is_median s med ->
  ((med <= hi)%Q \/ med = inf) /\ ((2 * hi < inf)%Q -> (med <= hi)%Q).
Proof.
  intros Fhi Hh1 Hh2 H. unfold is_median.
  destruct (Nat.odd (List.length s)).
  - intros Hm. pose proof (nth_error_Forall _ _ _ _ H Hm) as Hle.
    split; [now left|intros _; exact Hle].
  - intros (a & b & Ha & Hb & ->).
    pose proof (nth_error_Forall _ _ _ _ H Ha).
    pose proof (nth_error_Forall _ _ _ _ H Hb).
    now apply float_midpoint_upper.
Qed.

Lemma is_median_lower lo s med :
  (fl lo == lo)%Q -> (- inf < lo)%Q -> (lo < inf)%Q ->
  Forall (fun x => (lo <= x)%Q) s ->
  is_median s med ->
  ((lo <= med)%Q \/ med = (- inf)%Q) /\ ((- inf < 2 * lo)%Q -> (lo <= med)%Q).
Proof.
  intros Flo Hl1 Hl2 H. unfold is_median.
  destruct (Nat.odd (List.length s)).
  - intros Hm. pose proof (nth_error_Forall _ _ _ _ H Hm) as Hle.
    split; [now left|intros _; exact Hle].
  - intros (a & b & Ha & Hb & ->).
    pose proof (nth_error_Forall _ _ _ _ H Ha).
    pose proof (nth_error_Forall _ _ _ _ H Hb).
    now apply float_midpoint_lower.
Qed.

(** X12: if every duration lies between the finite floats [lo] and [hi], so
    do the mean and the 90th percentile, before and hence after they are
    rounded to two decimals.  So does the median, unless the sum of the
    two middle values overflows: the median is then an infinity.  No sum
    overflows when [2 * lo] and [2 * hi] are finite, that is when the
    durations are below [2^1023] in magnitude. *)
Theorem summarize_response_times_bounds lo hi l :
  l <> [] ->
  (fl lo == lo)%Q -> (fl hi == hi)%Q ->
  (- inf < lo)%Q -> (hi < inf)%Q ->
  Forall (fun x => (lo <= x)%Q /\ (x <= hi)%Q) l ->
  exists avg med p90,
    summarize_response_times l =
    Ok (Summary.mk (List.length l) (Some avg) (Some med) (Some p90)) /\
    (round2 lo <= avg)%Q /\ (avg <= round2 hi)%Q /\
    (round2 lo <= p90)%Q /\ (p90 <= round2 hi)%Q /\
    ((round2 lo <= med)%Q /\ (med <= round2 hi)%Q \/
     med = inf \/ med = (- inf)%Q) /\
    ((- inf < 2 * lo)%Q -> (2 * hi < inf)%Q ->
     (round2 lo <= med)%Q /\ (med <= round2 hi)%Q).
Proof.
  intros Hne Flo Fhi Hl Hh H.
  destruct (summarize_nonempty l Hne) as (a & m & p & -> & -> & Hm & Hp).
  assert (HS : Forall (fun x => (lo <= x)%Q /\ (x <= hi)%Q) (sort Qle_bool l)).
  { rewrite Forall_forall in *. intros x Hx. apply H.
    eapply Permutation_in; [apply sort_perm|exact Hx]. }
  assert (Hlh : (lo <= hi)%Q).
  { destruct l as [|x l]; [contradiction|].
    apply Forall_inv in H. destruct H. now apply Qle_trans with x. }
  assert (Hl' : (lo < inf)%Q) by now apply Qle_lt_trans with hi.
  assert (Hh' : (- inf < hi)%Q) by now apply Qlt_le_trans with lo.
  destruct (mean_bounds lo hi l Hne H) as [Ha1 Ha2].
  apply fl_mono in Ha1, Ha2. rewrite Flo in Ha1. rewrite Fhi in Ha2.
  destruct (is_median_upper hi _ _ Fhi Hh' Hh
              (Forall_impl _ (fun x Hx => proj2 Hx) HS) Hm) as [Hu1 Hu2].
  destruct (is_median_lower lo _ _ Flo Hl Hl'
              (Forall_impl _ (fun x Hx => proj1 Hx) HS) Hm) as [Hl1 Hl2].
  destruct (nth_error_Forall _ _ _ _ HS Hp) as [Hp1 Hp2].
  eexists _, _, _. split; [reflexivity|].
  split; [now apply round2_mono|]. split; [now apply round2_mono|].
  split; [now apply round2_mono|]. split; [now apply round2_mono|].
  split.
  - destruct Hu1 as [Hu1| ->];
      [|right; left; exact (proj1 round2_inf)].
    destruct Hl1 as [Hl1| ->];
      [|right; right; exact (proj2 round2_inf)].
    left. split; now apply round2_mono.
  - intros H1 H2. split; apply round2_mono; auto.
Qed.

Lemma summarize_response_times_bounds_witness :
  exists avg med p90,
    summarize_response_times [1; 2; 4; 3]%Q =
    Ok (Summary.mk 4 (Some avg) (Some med) (Some p90)) /\
    (round2 1 <= avg)%Q /\ (avg <= round2 4)%Q /\
    (round2 1 <= p90)%Q /\ (p90 <= round2 4)%Q /\
    ((round2 1 <= med)%Q /\ (med <= round2 4)%Q \/
     med = inf \/ med = (- inf)%Q) /\
    ((- inf < 2 * 1)%Q -> (2 * 4 < inf)%Q ->
     (round2 1 <= med)%Q /\ (med <= round2 4)%Q).
Proof.
  apply (summarize_response_times_bounds 1 4 [1; 2; 4; 3]%Q).
  - discriminate.
  - vm_compute. reflexivity.
  - vm_compute. reflexivity.
  - reflexivity.
  - reflexivity.
  - repeat constructor; discriminate.
Defined.

(** The index of the 90th percentile is not below the index of the
    median.  A list of Python has fewer than [2^63] items, so the product
    [0.9 * (n - 1)] is far from overflowing. *)
Lemma p90_index_lower n :
  (0 < n)%nat -> Z.of_nat n < 2 ^ 63 -> Z.of_nat (n / 2) <= p90_index n.
Proof.
  intros Hn Hmax. destruct (Nat.eq_dec n 1) as [->|Hn1].
  - rewrite p90_index_one. reflexivity.
  - unfold p90_index.
    assert (HK63 : (inject_Z (Z.of_nat n - 1) <= inject_Z (2 ^ 63))%Q)
      by (rewrite <- Zle_Qle; lia).
    assert (HK1 : (1 <= inject_Z (Z.of_nat n - 1))%Q).
    { change 1%Q with (inject_Z 1). rewrite <- Zle_Qle. lia. }
    assert (Hx63 : (fl (inject_Z (Z.of_nat n - 1)) <= inject_Z (2 ^ 63))%Q).
    { rewrite <- (fl_inject_exact (2 ^ 63) 1 63);
        [now apply fl_mono|reflexivity|discriminate|discriminate]. }
    assert (Hx0 : (0 <= fl (inject_Z (Z.of_nat n - 1)))%Q)
      by (apply fl_nonneg; lra).
    rewrite (float_mul_finite _ _ 63); [|lia|].
    + apply Z.le_trans with (2 := Z.le_max_r _ _).
      apply round_half_even_gt. rewrite fl_nine_tenths.
      assert (Hhalf : 2 * Z.of_nat (n / 2) <= (Z.of_nat n - 1) + 1).
      { rewrite Nat2Z.inj_div. change (Z.of_nat 2) with 2.
        pose proof (Z.mul_div_le (Z.of_nat n) 2). lia. }
      rewrite Zle_Qle, inject_Z_mult, inject_Z_plus in Hhalf.
      change (inject_Z 2) with 2%Q in Hhalf.
      change (inject_Z 1) with 1%Q in Hhalf.
      clear Hx63 HK63 Hx0.
      generalize dependent (inject_Z (Z.of_nat (n / 2))). intros k.
      generalize dependent (inject_Z (Z.of_nat n - 1)). intros K HK Hhalf.
      assert (HK0 : (0 <= K)%Q) by lra.
      destruct (fl_error_nonneg K HK0) as [H1lo _].
      pose proof (fl_nonneg K HK0) as Hx1.
      set (x1 := fl K) in *.
      set (c := (8106479329266893 # 9007199254740992)%Q).
      assert (Hc : (0 <= c * x1)%Q).
      { apply Qmult_le_0_compat; [discriminate|exact Hx1]. }
      destruct (fl_error_nonneg (c * x1) Hc) as [H2lo _].
      remember (fl (c * x1)) as y eqn:Ey. clear Ey.
      unfold c, half_ulp, tiny in *. lra.
    + rewrite fl_nine_tenths, Qabs_Qmult.
      rewrite (Qabs_pos (fl _)) by exact Hx0.
      change (Qabs (8106479329266893 # 9007199254740992))
        with (8106479329266893 # 9007199254740992)%Q.
      remember (fl (inject_Z (Z.of_nat n - 1))) as x eqn:Ex. clear Ex.
      remember (inject_Z (2 ^ 63)) as B eqn:EB. clear EB HK63. lra.
Qed.

Lemma StronglySorted_nth_le (s : list Q) i j a b :
  StronglySorted Qle s -> (i <= j)%nat ->
  nth_error s i = Some a -> nth_error s j = Some b -> (a <= b)%Q.
Proof.
  intros HS. revert i j. induction HS as [|x s HS IH Hx]; intros i j Hij Ha Hb.
  - destruct i; discriminate.
  - destruct i as [|i], j as [|j]; simpl in Ha, Hb.
    + assert (a = b) by congruence. subst. apply Qle_refl.
    + injection Ha as <-. apply nth_error_In in Hb.
      rewrite Forall_forall in Hx. now apply Hx.
    + lia.
    + apply (IH i j); [lia|assumption|assumption].
Qed.

(** X13: for durations that are finite floats, the median never exceeds the
    90th percentile (the index [round(0.9 * (n - 1))] is at least
    [n // 2]), unless the sum of the two middle values overflows: the
    median is then [inf].  That does not happen while the durations are
    below [2^1023]; it happens for two durations of [2^1023]. *)
Theorem summarize_response_times_median_le_p90 :
  (forall l,
      l <> [] ->
      Z.of_nat (List.length l) < 2 ^ 63 ->
      Forall (fun x => (fl x == x)%Q /\ (Qabs x < inf)%Q) l ->
      exists avg med p90,
        summarize_response_times l =
        Ok (Summary.mk (List.length l) (Some avg) (Some med) (Some p90)) /\
        ((med <= p90)%Q \/ med = inf) /\
        (Forall (fun x => (2 * x < inf)%Q) l -> (med <= p90)%Q)) /\
  summarize_response_times [inject_Z (2 ^ 1023); inject_Z (2 ^ 1023)] =
  Ok (Summary.mk 2 (Some (inject_Z (2 ^ 1023))) (Some inf)
                 (Some (inject_Z (2 ^ 1023)))).
Proof.
  split; [|vm_compute; reflexivity].
  intros l Hne Hlen HF.
  destruct (summarize_nonempty l Hne) as (a & m & p & -> & _ & Hm & Hp).
  eexists _, _, _. split; [reflexivity|].
  assert (Hn : (0 < List.length l)%nat)
    by (destruct l; [contradiction|simpl; lia]).
  pose proof (p90_index_lower _ Hn Hlen) as Hidx.
  pose proof (sort_ascending l) as HS.
  assert (HFs : Forall (fun x => (fl x == x)%Q /\ (Qabs x < inf)%Q)
                       (sort Qle_bool l)).
  { rewrite Forall_forall in *. intros x Hx. apply HF.
    eapply Permutation_in; [apply sort_perm|exact Hx]. }
  assert (Hij : (List.length l / 2 <= Z.to_nat (p90_index (List.length l)))%nat)
    by lia.
  unfold is_median in Hm. rewrite sort_length in Hm.
  destruct (Nat.odd (List.length l)).
  - pose proof (StronglySorted_nth_le _ _ _ _ _ HS Hij Hm Hp) as Hle.
    split; [left|intros _]; now apply round2_mono.
  - destruct Hm as (lo & hi & Hlo & Hhi & ->).
    assert (Hlh : (lo <= hi)%Q).
    { apply (StronglySorted_nth_le _ (List.length l / 2 - 1)
               (List.length l / 2) _ _ HS); [lia|exact Hlo|exact Hhi]. }
    pose proof (StronglySorted_nth_le _ _ _ _ _ HS Hij Hhi Hp) as Hhp.
    destruct (nth_error_Forall _ _ _ _ HFs Hhi) as [Fhi Bhi].
    cbv beta in Fhi, Bhi. apply Qabs_Qlt_condition in Bhi.
    destruct Bhi as [Bh1 Bh2].
    destruct (float_midpoint_upper hi lo hi Fhi Bh1 Bh2 Hlh (Qle_refl hi))
      as [Hu1 Hu2].
    split.
    + destruct Hu1 as [Hu1| ->].
      * left. apply round2_mono. now apply Qle_trans with hi.
      * right. exact (proj1 round2_inf).
    + intros H2. apply round2_mono. apply Qle_trans with hi; [|exact Hhp].
      apply Hu2.
      assert (H2s : Forall (fun x => (2 * x < inf)%Q) (sort Qle_bool l)).
      { rewrite Forall_forall in *. intros x Hx. apply H2.
        eapply Permutation_in; [apply sort_perm|exact Hx]. }
      exact (nth_error_Forall _ _ _ _ H2s Hhi).
Qed.

Lemma summarize_response_times_median_le_p90_witness :
  exists avg med p90,
    summarize_response_times [4; 1; 2; 8]%Q =
    Ok (Summary.mk 4 (Some avg) (Some med) (Some p90)) /\
    ((med <= p90)%Q \/ med = inf) /\
    (Forall (fun x => (2 * x < inf)%Q) [4; 1; 2; 8]%Q -> (med <= p90)%Q).
Proof.
  apply (proj1 summarize_response_times_median_le_p90 [4; 1; 2; 8]%Q).
  - discriminate.
  - reflexivity.
  - repeat constructor; vm_compute; reflexivity.
Defined.

(** ** [build_report]: the entries of the conversations *)

(** X14: the label of a conversation is the display name of its first message
    when that is a non-empty string, and the chat identifier of its first
    message otherwise; the identifier and the display name stored are
    those of the first message.  A conversation in the report has a first
    message, so [str(chat_id)] is never used. *)
Theorem build_report_labels messages divisor threshold_hours top report c :
  build_report messages divisor threshold_hours top = Ok report ->
  In c (Report.chats report) ->
  exists m rest,
    conversation (Chat.chat_id c) messages = m :: rest /\
    Chat.chat_identifier c = chat_identifier m /\
    Chat.display_name c = display_name m /\
    Chat.label c =
    match display_name m with
    | Some (String a s) => String a s
    | _ => chat_identifier m
    end.
Proof.
  intros H Hc.
  destruct (build_report_entries _ _ _ _ _ _ H Hc)
    as (k & msgs & a & Hm & Hne & _ & you & they & _ & _ & Hd).
  simpl in Hd. rewrite Hd. clear Hd.
  destruct msgs as [|m rest]; [contradiction|].
  exists m, rest. unfold chat_dict, chat_label. simpl.
  split; [now symmetry|]. split; [reflexivity|]. split; [reflexivity|].
  destruct (display_name m) as [[|ch s]|]; reflexivity.
Qed.

Lemma build_report_labels_witness :
  exists report c m rest,
    build_report read_and_answered 1 24 20 = Ok report /\
    In c (Report.chats report) /\
    conversation (Chat.chat_id c) read_and_answered = m :: rest /\
    Chat.label c = chat_identifier m.
Proof.
  destruct (build_report_ok read_and_answered 1 24 20) as [report H].
  { split; [discriminate|reflexivity]. }
  assert (Hne : Report.chats report <> []).
  { intros E. vm_compute in H. injection H as <-. discriminate. }
  destruct (Report.chats report) as [|c cs] eqn:Ec; [contradiction|].
  assert (Hc : In c (Report.chats report)) by (rewrite Ec; now left).
  destruct (build_report_labels _ _ _ _ _ _ H Hc)
    as (m & rest & Hconv & _ & Hdn & Hl).
  exists report, c, m, rest.
  split; [exact H|]. split; [exact Hc|]. split; [exact Hconv|].
  rewrite Hl.
  assert (Hin : In m read_and_answered).
  { assert (Hin' : In m (conversation (Chat.chat_id c) read_and_answered))
      by (rewrite Hconv; now left).
    apply filter_In in Hin'. tauto. }
  destruct Hin as [<-|[<-|[]]]; reflexivity.
Defined.

(** ** [build_report]: what the counters cannot exceed *)

Lemma filter_andb_length {A} (f g : A -> bool) l :
  (List.length (filter (fun x => f x && g x) l)
   <= List.length (filter f l))%nat.
Proof.
  induction l as [|x l IH]; simpl; [lia|].
  destruct (f x), (g x); simpl; lia.
Qed.

Lemma samples_of_length me divisor p :
  (List.length (samples_of me divisor p)
   <= if Bool.eqb (from_me (fst p)) me then 1 else 0)%nat.
Proof.
  unfold samples_of. destruct (Bool.eqb (from_me (fst p)) me); simpl; [|lia].
  destruct (latency_sample divisor (fst p) (snd p)); simpl; lia.
Qed.

Lemma samples_length me divisor pairs :
  (List.length (flat_map (samples_of me divisor) pairs)
   <= List.length (filter (fun p => Bool.eqb (from_me (fst p)) me) pairs))%nat.
Proof.
  induction pairs as [|p pairs IH]; simpl; [lia|].
  rewrite length_app. pose proof (samples_of_length me divisor p) as H.
  destruct (Bool.eqb (from_me (fst p)) me); simpl; lia.
Qed.

Lemma with_next_cons divisor m l :
  with_next divisor (m :: l) =
  (m, first_date (negb (from_me m)) l) :: with_next divisor l.
Proof.
  unfold with_next, next_opposite_times. cbn [fst].
  now rewrite scan_times_cons.
Qed.

Lemma with_next_length divisor l :
  List.length (with_next divisor l) = List.length l.
Proof.
  rewrite <- (with_next_fst divisor l) at 2. now rewrite length_map.
Qed.

(** The last message of a conversation has no reply, so a conversation of
    [n] messages has at most [n - 1] latency samples. *)
Lemma samples_total divisor l :
  l <> [] ->
  (List.length (flat_map (samples_of false divisor) (with_next divisor l))
   + List.length (flat_map (samples_of true divisor) (with_next divisor l))
   + 1 <= List.length l)%nat.
Proof.
  induction l as [|m l IH]; [contradiction|]. intros _.
  rewrite with_next_cons. cbn [flat_map List.length].
  rewrite !length_app.
  destruct l as [|m' l].
  - unfold samples_of, latency_sample. cbn [fst snd first_date].
    destruct (Bool.eqb (from_me m) false), (Bool.eqb (from_me m) true);
      simpl; lia.
  - assert (IH' := IH ltac:(discriminate)). clear IH.
    pose proof (samples_of_length false divisor
                  (m, first_date (negb (from_me m)) (m' :: l))) as H1.
    pose proof (samples_of_length true divisor
                  (m, first_date (negb (from_me m)) (m' :: l))) as H2.
    cbn [fst] in H1, H2. cbn [List.length] in *.
    destruct (from_me m); cbn [Bool.eqb] in H1, H2; lia.
Qed.

Lemma filter_ext_length {A} (f g : A -> bool) l :
  (forall x, f x = g x) ->
  List.length (filter f l) = List.length (filter g l).
Proof. intros H. now rewrite (filter_ext _ _ H). Qed.

Lemma analyze_chat_bounds divisor thr msgs a :
  analyze_chat divisor thr msgs = Ok a ->
  (you_left a <= received a)%nat /\
  (them_left a <= sent a)%nat /\
  (List.length (you_reply a) <= received a)%nat /\
  (List.length (them_reply a) <= sent a)%nat /\
  (msgs <> [] ->
   (List.length (you_reply a) + List.length (them_reply a) + 1
    <= sent a + received a)%nat).
Proof.
  intros H. destruct (analyze_chat_counts _ _ _ _ H) as (_ & _ & Htot).
  apply analyze_chat_inv in H.
  pose proof (chat_effect_fields divisor thr (with_next divisor msgs)
                (mkChatAcc 0 0 0 0 [] [])) as F.
  cbv zeta in F. rewrite <- H in F. cbn [sent received you_left them_left
    you_reply them_reply Nat.add app] in F.
  destruct F as (Hs & Hr & Hyl & Htl & Hyr & Htr).
  rewrite Hs, Hr, Hyl, Htl, Hyr, Htr. repeat split.
  - apply filter_andb_length.
  - apply filter_andb_length.
  - etransitivity; [apply samples_length|].
    apply Nat.eq_le_incl, filter_ext_length. intros p.
    now destruct (from_me (fst p)).
  - etransitivity; [apply samples_length|].
    apply Nat.eq_le_incl, filter_ext_length. intros p.
    now destruct (from_me (fst p)).
  - intros Hne. rewrite <- Hs, <- Hr, Htot.
    now apply samples_total.
Qed.

Lemma summarize_count l s :
  summarize_response_times l = Ok s -> Summary.count s = List.length l.
Proof.
  destruct l as [|x l].
  - intros H. injection H as <-. reflexivity.
  - destruct (summarize_nonempty (x :: l)) as (a & m & p & -> & _);
      [discriminate|].
    intros H. injection H as <-. reflexivity.
Qed.

Lemma list_sum_le {A} (f g : A -> nat) l :
  (forall x, In x l -> (f x <= g x)%nat) ->
  (list_sum (map f l) <= list_sum (map g l))%nat.
Proof.
  induction l as [|x l IH]; intros H; simpl; [lia|].
  pose proof (H x (or_introl eq_refl)).
  assert (list_sum (map f l) <= list_sum (map g l))%nat
    by (apply IH; intros; apply H; now right).
  lia.
Qed.

Lemma length_flat_map_sum {A B} (f : A -> list B) l :
  List.length (flat_map f l) = list_sum (map (fun x => List.length (f x)) l).
Proof.
  induction l as [|x l IH]; simpl; [reflexivity|].
  now rewrite length_app, IH.
Qed.

(** X15: nobody is left on read more often than they wrote, and nobody answers
    more often than they were written to: in every conversation and in
    the summary, a left-on-read count or a number of reply latencies is at
    most the number of messages of the direction it is counted on; and a
    conversation has fewer latencies than messages, since nothing follows
    its last message. *)
Theorem build_report_count_bounds messages divisor threshold_hours top report :
  build_report messages divisor threshold_hours top = Ok report ->
  let bounded (t : Totals.t) (l : LeftOnRead.t) (r : ResponseTimes.t) :=
    (LeftOnRead.you_left_them l <= Totals.received t)%nat /\
    (LeftOnRead.they_left_you l <= Totals.sent t)%nat /\
    (Summary.count (ResponseTimes.you_reply r) <= Totals.received t)%nat /\
    (Summary.count (ResponseTimes.they_reply r) <= Totals.sent t)%nat in
  bounded (ReportSummary.totals (Report.summary report))
          (ReportSummary.left_on_read (Report.summary report))
          (ReportSummary.response_times (Report.summary report)) /\
  (forall c, In c (Report.chats report) ->
     bounded (Chat.totals c) (Chat.left_on_read c) (Chat.response_times c) /\
     (Summary.count (ResponseTimes.you_reply (Chat.response_times c))
      + Summary.count (ResponseTimes.they_reply (Chat.response_times c))
      < Totals.total (Chat.totals c))%nat).
Proof.
  intros H. cbv zeta. split.
  - destruct (build_report_inv _ _ _ _ _ H)
      as (results & HF & _ & Ht & Hl & Hy & Hth).
    rewrite Ht, Hl. cbn [Totals.sent Totals.received
      LeftOnRead.you_left_them LeftOnRead.they_left_you].
    rewrite (summarize_count _ _ Hy), (summarize_count _ _ Hth).
    rewrite !length_flat_map_sum.
    assert (HB : forall res, In res results ->
              (you_left (fst res) <= received (fst res))%nat /\
              (them_left (fst res) <= sent (fst res))%nat /\
              (List.length (you_reply (fst res)) <= received (fst res))%nat /\
              (List.length (them_reply (fst res)) <= sent (fst res))%nat).
    { intros res Hres.
      destruct (results_summaries _ _ _ _ _ HF Hres)
        as (item & _ & (Ha & _) & _).
      destruct (analyze_chat_bounds _ _ _ _ Ha) as (B1 & B2 & B3 & B4 & _).
      auto. }
    repeat split; apply list_sum_le; intros res Hres;
      destruct (HB res Hres) as (B1 & B2 & B3 & B4); assumption.
  - intros c Hc.
    destruct (build_report_entries _ _ _ _ _ _ H Hc)
      as (k & msgs & a & _ & Hne & Ha & you & they & Hy & Hth & Hd).
    cbn [fst snd] in *.
    destruct (chat_dict_fields k msgs a you they) as (_ & Et & El & Er).
    rewrite <- Hd in Et, El, Er. rewrite Et, El, Er.
    cbn [Totals.sent Totals.received Totals.total
      LeftOnRead.you_left_them LeftOnRead.they_left_you
      ResponseTimes.you_reply ResponseTimes.they_reply].
    rewrite (summarize_count _ _ Hy), (summarize_count _ _ Hth).
    destruct (analyze_chat_bounds _ _ _ _ Ha) as (B1 & B2 & B3 & B4 & B5).
    specialize (B5 Hne). repeat split; try assumption. lia.
Qed.

Lemma build_report_count_bounds_witness :
  exists report,
    build_report read_and_answered 1 24 20 = Ok report /\
    (LeftOnRead.you_left_them (ReportSummary.left_on_read (Report.summary report))
     <= Totals.received (ReportSummary.totals (Report.summary report)))%nat.
Proof.
  destruct (build_report_ok read_and_answered 1 24 20) as [report H].
  { split; [discriminate|reflexivity]. }
  exists report. split; [exact H|].
  exact (proj1 (proj1 (build_report_count_bounds _ _ _ _ _ H))).
Defined.

(** ** [build_report]: the parameter [top] *)

Lemma slice_to_length {A} (l : list A) top :
  let n := Z.of_nat (List.length l) in
  List.length (slice_to top l) =
  Z.to_nat (if top <? 0 then Z.max 0 (top + n) else Z.min top n).
Proof.
  cbv zeta. unfold slice_to. rewrite length_firstn.
  destruct (top <? 0) eqn:E.
  - apply Z.ltb_lt in E. lia.
  - apply Z.ltb_ge in E. lia.
Qed.

Lemma slice_to_all {A} (l : list A) top :
  Z.of_nat (List.length l) <= top -> slice_to top l = l.
Proof.
  intros H. rewrite slice_to_nonneg by lia. apply firstn_all2. lia.
Qed.

Lemma build_report_unfold messages divisor threshold_hours top report :
  build_report messages divisor threshold_hours top = Ok report ->
  exists ranked,
    Report.chats report = slice_to top ranked /\
    forall top',
      build_report messages divisor threshold_hours top' =
      Ok {| Report.summary := Report.summary report;
            Report.chats := slice_to top' ranked |}.
Proof.
  unfold build_report. intros H.
  apply bind_Ok in H. destruct H as (r & Hr & H).
  apply bind_Ok in H. destruct H as (you & Hy & H).
  apply bind_Ok in H. destruct H as (they & Ht & H).
  injection H as <-.
  exists (sort total_geb (values (chats r))). split; [reflexivity|].
  intros top'. rewrite Hr. cbn [bind]. rewrite Hy. cbn [bind].
  rewrite Ht. reflexivity.
Qed.

(** X16: [top] only cuts the ranking: the summary and the ranking are the same
    for every value of [top], the report holds [min(top, n)] of the [n]
    conversations when [top] is not negative, and all but the last
    [-top] of them when it is. *)
Theorem build_report_top messages divisor threshold_hours top report :
  build_report messages divisor threshold_hours top = Ok report ->
  exists ranked,
    let n := Z.of_nat (List.length (first_seen (map chat_id messages))) in
    Z.of_nat (List.length ranked) = n /\
    Report.chats report = slice_to top ranked /\
    (forall top',
        build_report messages divisor threshold_hours top' =
        Ok {| Report.summary := Report.summary report;
              Report.chats := slice_to top' ranked |}) /\
    List.length (Report.chats report) =
    Z.to_nat (if top <? 0 then Z.max 0 (top + n) else Z.min top n).
Proof.
  intros H. destruct (build_report_unfold _ _ _ _ _ H) as (ranked & Hc & Hall).
  exists ranked. cbv zeta.
  assert (Hlen : List.length ranked
                 = List.length (first_seen (map chat_id messages))).
  { set (big := Z.of_nat (List.length ranked
                          + List.length (group_by_chat messages))).
    destruct (build_report_inv _ _ _ _ _ (Hall big))
      as (results & HF & Hch & _).
    cbn [Report.chats] in Hch.
    rewrite slice_to_all in Hch by (unfold big; lia).
    rewrite slice_to_all in Hch.
    - rewrite Hch, sort_length, length_map, <- (Forall2_length HF).
      now rewrite <- group_by_chat_keys, length_map.
    - rewrite sort_length, length_map, <- (Forall2_length HF).
      unfold big. lia. }
  split; [now rewrite Hlen|]. split; [exact Hc|]. split; [exact Hall|].
  rewrite Hc, slice_to_length. cbv zeta. now rewrite Hlen.
Qed.

Lemma build_report_top_witness :
  exists report,
    build_report ten_and_three 1 24 (-1) = Ok report /\
    List.length (Report.chats report) = 1%nat.
Proof.
  destruct (build_report_ok ten_and_three 1 24 (-1)) as [report H].
  { split; [discriminate|reflexivity]. }
  exists report. split; [exact H|].
  destruct (build_report_top _ _ _ _ _ H) as (ranked & _ & _ & _ & Hl).
  exact Hl.
Defined.

(** ** [build_report]: one conversation at a time *)

Lemma first_seen_const k ids :
  ids <> [] -> Forall (eq k) ids -> first_seen ids = [k].
Proof.
  induction ids as [|x ids IH]; [contradiction|]. intros _ H.
  inversion H as [|? ? Hx Hrest]; subst.
  cbn [first_seen]. destruct ids as [|y ids]; [reflexivity|].
  rewrite IH by (assumption || discriminate).
  cbn [filter]. now rewrite Z.eqb_refl.
Qed.

Lemma conversation_idem k l :
  conversation k (conversation k l) = conversation k l.
Proof.
  unfold conversation. induction l as [|m l IH]; [reflexivity|].
  cbn [filter]. destruct (chat_id m =? k) eqn:E; [|exact IH].
  cbn [filter]. now rewrite E, IH.
Qed.

Lemma group_by_chat_conversation k l :
  conversation k l <> [] ->
  group_by_chat (conversation k l) = [(k, conversation k l)].
Proof.
  intros Hne. rewrite group_by_chat_spec.
  rewrite (first_seen_const k).
  - cbn [map]. now rewrite conversation_idem.
  - intros E. apply map_eq_nil in E. contradiction.
  - apply Forall_forall. intros x Hx. apply in_map_iff in Hx.
    destruct Hx as (m & <- & Hm). apply filter_In in Hm.
    destruct Hm as [_ Hm]. apply Z.eqb_eq in Hm. now symmetry.
Qed.

(** X17: the report of a conversation taken alone is its entry of the full
    report, and the summary repeats the numbers of that entry: no
    conversation influences the entry of another. *)
Theorem build_report_single_conversation
    messages divisor threshold_hours top report c top' :
  build_report messages divisor threshold_hours top = Ok report ->
  In c (Report.chats report) ->
  1 <= top' ->
  build_report (conversation (Chat.chat_id c) messages) divisor
               threshold_hours top' =
  Ok {| Report.summary :=
          {| ReportSummary.totals := Chat.totals c;
             ReportSummary.left_on_read := Chat.left_on_read c;
             ReportSummary.response_times := Chat.response_times c |};
        Report.chats := [c] |}.
Proof.
  intros H Hc Htop.
  destruct (build_report_entries _ _ _ _ _ _ H Hc)
    as (k & msgs & a & Hm & Hne & Ha & you & they & Hy & Hth & Hd).
  cbn [fst snd] in *.
  destruct (chat_dict_fields k msgs a you they) as (Ek & Et & El & Er).
  rewrite <- Hd in Ek, Et, El, Er. rewrite Ek, <- Hm.
  unfold build_report.
  rewrite Hm at 1. rewrite group_by_chat_conversation by (now rewrite <- Hm).
  rewrite <- Hm. cbn [chats_loop step_chat].
  rewrite Ha. cbn [bind]. rewrite Hy. cbn [bind]. rewrite Hth. cbn [bind].
  cbn [you_reply_minutes them_reply_minutes app]. 
  rewrite Hy. cbn [bind]. rewrite Hth. cbn [bind].
  cbn [totals_sent totals_received left_on_read_you left_on_read_them chats
       Nat.add dict_set values map snd sort fold_right insert].
  rewrite <- Hd, Et, El, Er.
  rewrite slice_to_all by (cbn [List.length]; lia).
  reflexivity.
Qed.

Lemma build_report_single_conversation_witness :
  exists report c rest,
    build_report ten_and_three 1 24 20 = Ok report /\
    Report.chats report = c :: rest /\
    build_report (conversation (Chat.chat_id c) ten_and_three) 1 24 1 =
    Ok {| Report.summary :=
            {| ReportSummary.totals := Chat.totals c;
               ReportSummary.left_on_read := Chat.left_on_read c;
               ReportSummary.response_times := Chat.response_times c |};
          Report.chats := [c] |}.
Proof.
  destruct (build_report_ok ten_and_three 1 24 20) as [report H].
  { split; [discriminate|reflexivity]. }
  assert (Hne : Report.chats report <> []).
  { intros E. vm_compute in H. injection H as <-. discriminate. }
  destruct (Report.chats report) as [|c rest] eqn:Ec; [contradiction|].
  exists report, c, rest. split; [exact H|]. split; [exact Ec|].
  apply (build_report_single_conversation _ _ _ _ _ _ _ H); [|lia].
  rewrite Ec. now left.
Defined.

(** ** [build_report]: the unit of the timestamps *)

Lemma true_div_scale k a b :
  k <> 0 -> true_div (k * a) (k * b) = true_div a b.
Proof.
  intros Hk. unfold true_div.
  destruct (b =? 0) eqn:Eb.
  - apply Z.eqb_eq in Eb. subst b. now rewrite Z.mul_0_r.
  - apply Z.eqb_neq in Eb.
    replace (k * b =? 0) with false by (symmetry; apply Z.eqb_neq; nia).
    rewrite !Z.abs_mul.
    assert (Hov : (DBL_OVERFLOW * (Z.abs k * Z.abs b) <=? Z.abs k * Z.abs a)
                  = (DBL_OVERFLOW * Z.abs b <=? Z.abs a)).
    { generalize DBL_OVERFLOW. intros D.
      destruct (D * Z.abs b <=? Z.abs a) eqn:E.
      - apply Z.leb_le in E. apply Z.leb_le. nia.
      - apply Z.leb_gt in E. apply Z.leb_gt. nia. }
    rewrite Hov. destruct (DBL_OVERFLOW * Z.abs b <=? Z.abs a); [reflexivity|].
    f_equal. apply fl_comp. rewrite !inject_Z_mult. field.
    split; intros E;
      [exact (Eb (proj1 (inject_Z_injective b 0) E))
      |exact (Hk (proj1 (inject_Z_injective k 0) E))].
Qed.

Lemma first_date_rescale k me l :
  first_date me (map (rescale k) l) = option_map (Z.mul k) (first_date me l).
Proof.
  induction l as [|m l IH]; [reflexivity|].
  cbn [map first_date]. change (from_me (rescale k m)) with (from_me m).
  destruct (Bool.eqb (from_me m) me); [|exact IH].
  change (date_raw (rescale k m)) with (option_map (Z.mul k) (date_raw m)).
  destruct (date_raw m); [reflexivity|exact IH].
Qed.

Lemma next_opposite_times_rescale k l d d' :
  fst (next_opposite_times (map (rescale k) l) d') =
  map (option_map (Z.mul k)) (fst (next_opposite_times l d)).
Proof.
  unfold next_opposite_times. cbn [fst].
  induction l as [|m l IH]; [reflexivity|].
  cbn [map]. rewrite !scan_times_cons, IH, first_date_rescale.
  reflexivity.
Qed.

Lemma step_message_rescale k divisor thr a m next :
  k <> 0 ->
  step_message (k * divisor) thr a (rescale k m) (option_map (Z.mul k) next) =
  step_message divisor thr a m next.
Proof.
  intros Hk. unfold step_message.
  change (count_direction (rescale k m) a) with (count_direction m a).
  change (date_raw (rescale k m)) with (option_map (Z.mul k) (date_raw m)).
  change (date_read_raw (rescale k m))
    with (option_map (Z.mul k) (date_read_raw m)).
  assert (Ht : truthy_int (option_map (Z.mul k) (date_read_raw m))
               = truthy_int (date_read_raw m)).
  { destruct (date_read_raw m) as [r|]; [|reflexivity]. cbn.
    f_equal. destruct (r =? 0) eqn:E.
    - apply Z.eqb_eq in E. subst. now rewrite Z.mul_0_r.
    - apply Z.eqb_neq in E. apply Z.eqb_neq. nia. }
  rewrite Ht.
  assert (Hd : forall x y, true_div (k * x - k * y) (k * divisor)
                           = true_div (x - y) divisor).
  { intros x y. rewrite <- Z.mul_sub_distr_l. now apply true_div_scale. }
  change (count_left (rescale k m)) with (count_left m).
  destruct next as [n|], (date_raw m) as [d0|];
    cbn [option_map]; rewrite ?Hd; try reflexivity.
  - destruct (true_div (n - d0) divisor) as [dt|e]; [|reflexivity].
    cbn [bind].
    change (append_reply (rescale k m)) with (append_reply m).
    destruct (Qle_bool 0 dt); cbn [bind];
      (destruct (truthy_int (date_read_raw m)); [|reflexivity];
       destruct (date_read_raw m) as [r|]; [|reflexivity];
       cbn [option_map]; rewrite Hd; reflexivity).
  - cbn [bind]. destruct (truthy_int (date_read_raw m)); [|reflexivity].
    destruct (date_read_raw m); reflexivity.
  - cbn [bind]. destruct (truthy_int (date_read_raw m)); [|reflexivity].
    destruct (date_read_raw m); reflexivity.
  - cbn [bind]. destruct (truthy_int (date_read_raw m)); [|reflexivity].
    destruct (date_read_raw m); reflexivity.
Qed.

Lemma chat_loop_rescale k divisor thr msgs : forall a times,
  k <> 0 ->
  chat_loop (k * divisor) thr a (map (rescale k) msgs)
            (map (option_map (Z.mul k)) times) =
  chat_loop divisor thr a msgs times.
Proof.
  induction msgs as [|m msgs IH]; intros a times Hk; [reflexivity|].
  destruct times as [|t times]; [reflexivity|].
  cbn [map chat_loop]. rewrite step_message_rescale by exact Hk.
  destruct (step_message divisor thr a m t) as [a'|e]; [|reflexivity].
  cbn [bind]. now apply IH.
Qed.

Lemma analyze_chat_rescale k divisor thr msgs :
  k <> 0 ->
  analyze_chat (k * divisor) thr (map (rescale k) msgs) =
  analyze_chat divisor thr msgs.
Proof.
  intros Hk. unfold analyze_chat.
  rewrite (next_opposite_times_rescale k msgs divisor).
  now apply chat_loop_rescale.
Qed.

Lemma chat_dict_rescale k id msgs a you they :
  chat_dict id (map (rescale k) msgs) a you they = chat_dict id msgs a you they.
Proof. destruct msgs; reflexivity. Qed.

Lemma chats_loop_rescale k divisor thr items : forall r,
  k <> 0 ->
  chats_loop (k * divisor) thr r
             (map (fun it => (fst it, map (rescale k) (snd it))) items) =
  chats_loop divisor thr r items.
Proof.
  induction items as [|[id msgs] items IH]; intros r Hk; [reflexivity|].
  cbn [map chats_loop step_chat fst snd].
  rewrite analyze_chat_rescale by exact Hk.
  destruct (analyze_chat divisor thr msgs) as [a|e]; [|reflexivity].
  cbn [bind].
  destruct (summarize_response_times (you_reply a)) as [you|e];
    [|reflexivity].
  cbn [bind].
  destruct (summarize_response_times (them_reply a)) as [they|e];
    [|reflexivity].
  cbn [bind]. rewrite chat_dict_rescale. now apply IH.
Qed.

Lemma conversation_map_rescale k id l :
  conversation id (map (rescale k) l) = map (rescale k) (conversation id l).
Proof.
  unfold conversation. induction l as [|m l IH]; [reflexivity|].
  cbn [map filter]. change (chat_id (rescale k m)) with (chat_id m).
  destruct (chat_id m =? id); cbn [map]; now rewrite IH.
Qed.

Lemma group_by_chat_rescale k l :
  group_by_chat (map (rescale k) l) =
  map (fun it => (fst it, map (rescale k) (snd it))) (group_by_chat l).
Proof.
  rewrite !group_by_chat_spec, !map_map.
  replace (map (fun x => chat_id (rescale k x)) l) with (map chat_id l)
    by (apply map_ext; reflexivity).
  apply map_ext. intros id. cbn [fst snd].
  now rewrite conversation_map_rescale.
Qed.

(** X18: the report does not depend on the unit of the timestamps: when every
    send and read timestamp and the divisor are multiplied by the same
    non-zero number, [build_report] gives the same result, exception or
    report. *)
Theorem build_report_rescale k messages divisor threshold_hours top :
  k <> 0 ->
  build_report (map (rescale k) messages) (k * divisor) threshold_hours top =
  build_report messages divisor threshold_hours top.
Proof.
  intros Hk. unfold build_report.
  rewrite group_by_chat_rescale, chats_loop_rescale by exact Hk.
  reflexivity.
Qed.

Lemma build_report_rescale_witness :
  build_report (map (rescale 1000) read_and_answered) (1000 * 1) 24 20 =
  build_report read_and_answered 1 24 20.
Proof. apply build_report_rescale. discriminate. Defined.

(** ** [build_report]: the sign of the statistics *)

Lemma overflow_float x : (fl x == x)%Q -> (fl (overflow x) == overflow x)%Q.
Proof.
  intros H.
  destruct (overflow_cases x) as [[_ ->]|[[_ ->]|(_ & _ & ->)]];
    [vm_compute; reflexivity|vm_compute; reflexivity|exact H].
Qed.

Lemma float_div_nonneg x :
  (0 <= x)%Q -> (fl x == x)%Q ->
  (0 <= float_div x 60)%Q /\ (fl (float_div x 60) == float_div x 60)%Q.
Proof.
  intros H F. unfold float_div.
  destruct (Qle_bool inf (Qabs x)).
  - change (Qle_bool 0 60) with true. cbv iota. now split.
  - split.
    + apply overflow_nonneg, fl_nonneg.
      apply Qle_shift_div_l; [reflexivity|lra].
    + apply overflow_float. now rewrite fl_idem.
Qed.

Lemma samples_of_nonneg me divisor p v :
  In v (samples_of me divisor p) -> (0 <= v)%Q /\ (fl v == v)%Q.
Proof.
  unfold samples_of. destruct (Bool.eqb (from_me (fst p)) me); [|intros []].
  unfold latency_sample.
  destruct (snd p) as [n|]; [|intros []].
  destruct (date_raw (fst p)) as [d|]; [|intros []].
  destruct (Qle_bool 0 (delta_seconds divisor n d)) eqn:E; [|intros []].
  intros [<-|[]]. apply Qle_bool_iff in E.
  apply float_div_nonneg; [exact E|].
  unfold delta_seconds. now rewrite fl_idem.
Qed.

Lemma analyze_chat_samples divisor thr msgs a :
  analyze_chat divisor thr msgs = Ok a ->
  Forall (fun v => (0 <= v)%Q /\ (fl v == v)%Q) (you_reply a ++ them_reply a).
Proof.
  intros H. apply analyze_chat_inv in H.
  pose proof (chat_effect_fields divisor thr (with_next divisor msgs)
                (mkChatAcc 0 0 0 0 [] [])) as F.
  cbv zeta in F. rewrite <- H in F.
  destruct F as (_ & _ & _ & _ & Hy & Ht). cbn [you_reply them_reply app] in *.
  rewrite Hy, Ht. apply Forall_forall. intros v Hv.
  apply in_app_or in Hv.
  destruct Hv as [Hv|Hv]; apply in_flat_map in Hv;
    destruct Hv as (p & _ & Hv); exact (samples_of_nonneg _ _ _ _ Hv).
Qed.

Lemma list_max_exists (l : list Q) :
  l <> [] -> exists hi, In hi l /\ Forall (fun x => (x <= hi)%Q) l.
Proof.
  induction l as [|x l IH]; [contradiction|]. intros _.
  destruct l as [|y l].
  - exists x. split; [now left|]. repeat constructor. apply Qle_refl.
  - destruct IH as (hi & Hin & Hall); [discriminate|].
    destruct (Qlt_le_dec hi x) as [Hlt|Hle].
    + exists x. split; [now left|]. constructor; [apply Qle_refl|].
      eapply Forall_impl; [|exact Hall]. cbv beta. intros z Hz. lra.
    + exists hi. split; [now right|]. now constructor.
Qed.

Lemma summarize_nonneg l s :
  Forall (fun v => (0 <= v)%Q /\ (fl v == v)%Q) l ->
  summarize_response_times l = Ok s ->
  Forall (fun v => (0 <= v)%Q) (statistics s).
Proof.
  intros HF H. destruct l as [|x l].
  - injection H as <-. constructor.
  - destruct (summarize_nonempty (x :: l)) as (a & m & p & E & -> & Hm & Hp);
      [discriminate|].
    rewrite E in H. injection H as <-.
    destruct (list_max_exists (x :: l)) as (hi & Hin & Hmax); [discriminate|].
    assert (Fhi : (fl hi == hi)%Q).
    { rewrite Forall_forall in HF. now apply HF. }
    assert (HB : Forall (fun v => (0 <= v)%Q /\ (v <= hi)%Q) (x :: l)).
    { rewrite Forall_forall in *. intros v Hv. split.
      - now apply HF.
      - now apply Hmax. }
    assert (HS : Forall (fun v => (0 <= v)%Q /\ (v <= hi)%Q)
                        (sort Qle_bool (x :: l))).
    { rewrite Forall_forall in *. intros v Hv. apply HB.
      eapply Permutation_in; [apply sort_perm|exact Hv]. }
    destruct (mean_bounds 0 hi (x :: l)) as [Ha _];
      [discriminate|exact HB|].
    apply fl_mono in Ha. rewrite fl_zero in Ha.
    assert (F0 : (fl 0 == 0)%Q) by (now rewrite fl_zero).
    destruct (is_median_lower 0 _ _ F0 (eq_refl : (- inf < 0)%Q) inf_pos
                (Forall_impl _ (fun v Hv => proj1 Hv) HS) Hm) as [_ Hm1].
    specialize (Hm1 eq_refl).
    destruct (nth_error_Forall _ _ _ _ HS Hp) as [Hp1 _].
    unfold statistics. cbn.
    repeat constructor; rewrite <- round2_zero; now apply round2_mono.
Qed.

(** X19: no statistic of a report is negative: a latency is only recorded when
    [dt_seconds >= 0], and the mean, the median, the percentile and the
    rounding keep the sign. *)
Theorem build_report_statistics_nonneg
    messages divisor threshold_hours top report :
  build_report messages divisor threshold_hours top = Ok report ->
  forall s v, In s (summaries report) -> In v (statistics s) -> (0 <= v)%Q.
Proof.
  intros H s v Hs Hv.
  assert (Hgood : Forall (fun v => (0 <= v)%Q) (statistics s));
    [|rewrite Forall_forall in Hgood; now apply Hgood].
  clear v Hv.
  destruct (build_report_inv _ _ _ _ _ H) as (results & HF & _ & _ & _ & Hy & Ht).
  assert (HR : forall res, In res results ->
             Forall (fun v => (0 <= v)%Q /\ (fl v == v)%Q)
                    (you_reply (fst res) ++ them_reply (fst res))).
  { intros res Hres.
    destruct (results_summaries _ _ _ _ _ HF Hres) as (item & _ & (Ha & _) & _).
    exact (analyze_chat_samples _ _ _ _ Ha). }
  unfold summaries in Hs. cbv zeta in Hs.
  destruct Hs as [<-|[<-|Hs]].
  - apply (summarize_nonneg _ _) with (2 := Hy).
    apply Forall_forall. intros v Hv. apply in_flat_map in Hv.
    destruct Hv as (res & Hres & Hv). specialize (HR res Hres).
    rewrite Forall_forall in HR. apply HR, in_or_app. now left.
  - apply (summarize_nonneg _ _) with (2 := Ht).
    apply Forall_forall. intros v Hv. apply in_flat_map in Hv.
    destruct Hv as (res & Hres & Hv). specialize (HR res Hres).
    rewrite Forall_forall in HR. apply HR, in_or_app. now right.
  - apply in_flat_map in Hs. destruct Hs as (c & Hc & Hs).
    destruct (build_report_entries _ _ _ _ _ _ H Hc)
      as (k & msgs & a & _ & _ & Ha & you & they & Hyc & Htc & Hd).
    cbn [fst snd] in *.
    destruct (chat_dict_fields k msgs a you they) as (_ & _ & _ & Er).
    rewrite <- Hd in Er. rewrite Er in Hs.
    cbn [ResponseTimes.you_reply ResponseTimes.they_reply] in Hs.
    pose proof (analyze_chat_samples _ _ _ _ Ha) as Hsm.
    apply Forall_app in Hsm. destruct Hsm as [Hs1 Hs2].
    destruct Hs as [<-|[<-|[]]].
    + exact (summarize_nonneg _ _ Hs1 Hyc).
    + exact (summarize_nonneg _ _ Hs2 Htc).
Qed.

Lemma build_report_statistics_nonneg_witness :
  exists report,
    build_report uneven_replies 1 24 20 = Ok report /\
    forall s v, In s (summaries report) -> In v (statistics s) -> (0 <= v)%Q.
Proof.
  destruct (build_report_ok uneven_replies 1 24 20) as [report H].
  { split; [discriminate|reflexivity]. }
  exists report. split; [exact H|].
  exact (build_report_statistics_nonneg _ _ _ _ _ H).
Defined.

(** ** [build_report]: the threshold *)

Lemma bind_rel {A B} (R : A -> A -> Prop) (S : B -> B -> Prop)
    (c1 c2 : result A) (k1 k2 : A -> result B) :
  result_rel R c1 c2 ->
  (forall a b, R a b -> result_rel S (k1 a) (k2 b)) ->
  result_rel S (bind c1 k1) (bind c2 k2).
Proof.
  destruct c1, c2; cbn [result_rel bind]; intros H Hk; auto; contradiction.
Qed.

Lemma result_rel_refl {A} (R : A -> A -> Prop) (c : result A) :
  (forall a, R a a) -> result_rel R c c.
Proof. intros H. destruct c; cbn; auto. Qed.

Lemma count_direction_fewer m a1 a2 :
  acc_fewer_left a1 a2 ->
  acc_fewer_left (count_direction m a1) (count_direction m a2).
Proof.
  unfold acc_fewer_left, count_direction.
  intros (H1 & H2 & H3 & H4 & H5 & H6).
  destruct (is_from_me m =? 1); cbn; repeat split; congruence || lia.
Qed.

Lemma append_reply_fewer m x a1 a2 :
  acc_fewer_left a1 a2 ->
  acc_fewer_left (append_reply m x a1) (append_reply m x a2).
Proof.
  unfold acc_fewer_left, append_reply.
  intros (H1 & H2 & H3 & H4 & H5 & H6).
  destruct (is_from_me m =? 1); cbn; repeat split; congruence || lia.
Qed.

Lemma count_left_fewer m b1 b2 a1 a2 :
  (b1 = true -> b2 = true) ->
  acc_fewer_left a1 a2 ->
  acc_fewer_left (count_left m b1 a1) (count_left m b2 a2).
Proof.
  unfold acc_fewer_left, count_left.
  intros Hb (H1 & H2 & H3 & H4 & H5 & H6).
  destruct (is_from_me m =? 1), b1, b2; cbn; repeat split;
    try congruence; try lia; discriminate (Hb eq_refl).
Qed.

Lemma step_message_threshold divisor s1 s2 a1 a2 m next :
  (s1 <= s2)%Q ->
  acc_fewer_left a1 a2 ->
  result_rel acc_fewer_left (step_message divisor s1 a1 m next)
                            (step_message divisor s2 a2 m next).
Proof.
  intros Hs Ha. unfold step_message.
  apply bind_rel with (R := acc_fewer_left).
  - destruct next as [n|], (date_raw m) as [d|];
      try (cbn [result_rel]; now apply count_direction_fewer).
    destruct (true_div (n - d) divisor) as [dt|e]; cbn [bind result_rel];
      [|reflexivity].
    destruct (Qle_bool 0 dt); cbn [result_rel].
    + now apply append_reply_fewer, count_direction_fewer.
    + now apply count_direction_fewer.
  - intros b1 b2 Hb.
    destruct (if truthy_int (date_read_raw m) then date_read_raw m else None)
      as [base|]; [|exact Hb].
    destruct (date_raw m) as [d|]; [|exact Hb].
    destruct next as [n|].
    + destruct (true_div (n - base) divisor) as [dt|e];
        cbn [bind result_rel]; [|reflexivity].
      apply count_left_fewer; [|exact Hb].
      intros H. apply andb_true_iff in H. destruct H as [H0 H1].
      apply andb_true_iff. split; [exact H0|].
      apply Qle_bool_iff in H1. apply Qle_bool_iff. lra.
    + cbn [bind result_rel]. apply count_left_fewer; [auto|exact Hb].
Qed.

Lemma chat_loop_threshold divisor s1 s2 msgs : forall a1 a2 times,
  (s1 <= s2)%Q ->
  acc_fewer_left a1 a2 ->
  result_rel acc_fewer_left (chat_loop divisor s1 a1 msgs times)
                            (chat_loop divisor s2 a2 msgs times).
Proof.
  induction msgs as [|m msgs IH]; intros a1 a2 times Hs Ha.
  - exact Ha.
  - destruct times as [|t times]; [reflexivity|].
    cbn [chat_loop]. apply bind_rel with (R := acc_fewer_left).
    + now apply step_message_threshold.
    + intros b1 b2 Hb. now apply IH.
Qed.

Lemma chat_dict_fewer k msgs a1 a2 you they :
  acc_fewer_left a1 a2 ->
  chat_fewer_left (chat_dict k msgs a1 you they)
                  (chat_dict k msgs a2 you they).
Proof.
  unfold acc_fewer_left, chat_fewer_left, fewer_left, chat_dict.
  intros (H1 & H2 & H3 & H4 & H5 & H6).
  destruct (chat_label k msgs) as [[dn idf] lb]. cbn.
  rewrite H1, H2. repeat split; assumption.
Qed.

Lemma dict_set_fewer k c1 c2 d1 d2 :
  chat_fewer_left c1 c2 ->
  Forall2 entry_fewer_left d1 d2 ->
  Forall2 entry_fewer_left (dict_set k c1 d1) (dict_set k c2 d2).
Proof.
  intros Hc H. induction H as [|[k1 x1] [k2 x2] d1 d2 [Hk Hx] Hd IH].
  - constructor; [split; [reflexivity|exact Hc]|constructor].
  - cbn [fst snd] in Hk, Hx. subst k2. cbn [dict_set].
    destruct (k1 =? k).
    + constructor; [split; [reflexivity|exact Hc]|assumption].
    + constructor; [split; [reflexivity|exact Hx]|exact IH].
Qed.

Lemma step_chat_threshold divisor s1 s2 r1 r2 item :
  (s1 <= s2)%Q ->
  report_acc_fewer_left r1 r2 ->
  result_rel report_acc_fewer_left (step_chat divisor s1 r1 item)
                                   (step_chat divisor s2 r2 item).
Proof.
  intros Hs (H1 & H2 & H3 & H4 & H5 & H6 & H7).
  destruct item as [k msgs]. unfold step_chat.
  apply bind_rel with (R := acc_fewer_left).
  - unfold analyze_chat. apply chat_loop_threshold; [exact Hs|].
    repeat split; reflexivity || apply Nat.le_refl.
  - intros a1 a2 Ha. pose proof Ha as (A1 & A2 & A3 & A4 & A5 & A6).
    rewrite A3, A4.
    destruct (summarize_response_times (you_reply a2)) as [you|e];
      cbn [bind result_rel]; [|reflexivity].
    destruct (summarize_response_times (them_reply a2)) as [they|e];
      cbn [bind result_rel]; [|reflexivity].
    unfold report_acc_fewer_left.
    cbn [totals_sent totals_received you_reply_minutes them_reply_minutes
         left_on_read_you left_on_read_them chats].
    rewrite H1, H2, H3, H4, A1, A2.
    repeat split; try lia.
    apply dict_set_fewer; [|exact H7]. now apply chat_dict_fewer.
Qed.

Lemma chats_loop_threshold divisor s1 s2 items : forall r1 r2,
  (s1 <= s2)%Q ->
  report_acc_fewer_left r1 r2 ->
  result_rel report_acc_fewer_left (chats_loop divisor s1 r1 items)
                                   (chats_loop divisor s2 r2 items).
Proof.
  induction items as [|item items IH]; intros r1 r2 Hs Hr.
  - exact Hr.
  - cbn [chats_loop]. apply bind_rel with (R := report_acc_fewer_left).
    + now apply step_chat_threshold.
    + intros b1 b2 Hb. now apply IH.
Qed.

Lemma insert_fewer c1 c2 l1 l2 :
  chat_fewer_left c1 c2 ->
  Forall2 chat_fewer_left l1 l2 ->
  Forall2 chat_fewer_left (insert total_geb c1 l1) (insert total_geb c2 l2).
Proof.
  intros Hc H. induction H as [|x1 x2 l1 l2 Hx Hl IH]; cbn [insert].
  - constructor; [exact Hc|constructor].
  - assert (E : total_geb c1 x1 = total_geb c2 x2).
    { unfold total_geb. destruct Hc as (_ & _ & _ & _ & -> & _).
      destruct Hx as (_ & _ & _ & _ & -> & _). reflexivity. }
    rewrite E. destruct (total_geb c2 x2).
    + constructor; [exact Hc|]. constructor; assumption.
    + constructor; assumption.
Qed.

Lemma sort_fewer l1 l2 :
  Forall2 chat_fewer_left l1 l2 ->
  Forall2 chat_fewer_left (sort total_geb l1) (sort total_geb l2).
Proof.
  induction 1 as [|x1 x2 l1 l2 Hx _ IH]; [constructor|].
  cbn [sort fold_right]. now apply insert_fewer.
Qed.

Lemma firstn_Forall2 {A} (R : A -> A -> Prop) n l1 l2 :
  Forall2 R l1 l2 -> Forall2 R (firstn n l1) (firstn n l2).
Proof.
  intros H. revert n. induction H; intros [|n]; cbn [firstn];
    constructor; auto.
Qed.

Lemma slice_to_Forall2 {A} (R : A -> A -> Prop) top l1 l2 :
  Forall2 R l1 l2 -> Forall2 R (slice_to top l1) (slice_to top l2).
Proof.
  intros H. unfold slice_to. rewrite (Forall2_length H).
  now apply firstn_Forall2.
Qed.

(** X20: a larger threshold can only lower left-on-read counts, and it changes
    nothing else: the two runs raise the same exception or return reports
    with the same conversations in the same order, the same totals and
    the same response times. *)
Theorem build_report_threshold_monotone
    messages divisor threshold1 threshold2 top :
  (threshold1 <= threshold2)%Q ->
  result_rel report_fewer_left
    (build_report messages divisor threshold1 top)
    (build_report messages divisor threshold2 top).
Proof.
  intros Ht. unfold build_report.
  assert (Hs : (float_mul threshold1 3600 <= float_mul threshold2 3600)%Q).
  { unfold float_mul. apply overflow_mono, fl_mono.
    apply Qmult_le_compat_r; [exact Ht|discriminate]. }
  apply bind_rel with (R := report_acc_fewer_left).
  - apply chats_loop_threshold; [exact Hs|].
    repeat split; try reflexivity; try apply Nat.le_refl. constructor.
  - intros r1 r2 (H1 & H2 & H3 & H4 & H5 & H6 & H7).
    rewrite H3, H4.
    destruct (summarize_response_times (you_reply_minutes r2)) as [you|e];
      cbn [bind result_rel]; [|reflexivity].
    destruct (summarize_response_times (them_reply_minutes r2)) as [they|e];
      cbn [bind result_rel]; [|reflexivity].
    unfold report_fewer_left, fewer_left.
    cbn [Report.summary Report.chats ReportSummary.totals
         ReportSummary.response_times ReportSummary.left_on_read
         LeftOnRead.you_left_them LeftOnRead.they_left_you].
    rewrite H1, H2. repeat split; try assumption.
    apply slice_to_Forall2, sort_fewer. unfold values.
    clear -H7. induction H7 as [|e1 e2 l1 l2 [_ He] _ IH]; cbn [map];
      constructor; assumption.
Qed.

Lemma build_report_threshold_monotone_witness :
  result_rel report_fewer_left
    (build_report read_and_answered 1 (1 # 4) 20)
    (build_report read_and_answered 1 24 20).
Proof. apply build_report_threshold_monotone. discriminate. Defined.

(** ** [build_report]: chronological conversations *)

Lemma nth_error_combine {A B} (l : list A) (l' : list B) i a b :
  nth_error (combine l l') i = Some (a, b) ->
  nth_error l i = Some a /\ nth_error l' i = Some b.
Proof.
  revert l' i. induction l as [|x l IH]; intros [|y l'] [|i] H;
    try discriminate.
  - cbn in H. injection H as -> ->. split; reflexivity.
  - cbn in H. cbn [nth_error]. now apply IH.
Qed.

Lemma with_next_chronological divisor msgs p n d :
  chronological msgs ->
  In p (with_next divisor msgs) ->
  snd p = Some n -> date_raw (fst p) = Some d -> d <= n.
Proof.
  intros Hc Hp Hn Hd. apply In_nth_error in Hp. destruct Hp as [i Hi].
  destruct p as [m t]. cbn [fst snd] in *. subst t.
  apply nth_error_combine in Hi. destruct Hi as [Hm Ht].
  unfold next_opposite_times in Ht. cbn [fst] in Ht.
  rewrite (scan_times_nth _ _ _ Hm) in Ht.
  assert (E : first_date (negb (from_me m)) (skipn (S i) msgs) = Some n)
    by congruence.
  destruct (first_date_Some _ _ _ E) as (j & m' & Hj & _ & Hd' & _).
  rewrite nth_error_skipn in Hj.
  eapply (chronological_nth msgs i (S i + j)); eauto. lia.
Qed.

Lemma delta_seconds_nonneg divisor n d :
  0 < divisor -> d <= n -> (0 <= delta_seconds divisor n d)%Q.
Proof.
  intros Hdiv Hle. unfold delta_seconds. apply fl_nonneg.
  apply Qle_shift_div_l.
  - change 0%Q with (inject_Z 0). now rewrite <- Zlt_Qlt.
  - rewrite Qmult_0_l. change 0%Q with (inject_Z 0).
    rewrite <- Zle_Qle. lia.
Qed.

Lemma length_flat_map_filter {A B} (f : A -> list B) (g : A -> bool) l :
  (forall x, In x l -> List.length (f x) = if g x then 1%nat else 0%nat) ->
  List.length (flat_map f l) = List.length (filter g l).
Proof.
  induction l as [|x l IH]; intros H; [reflexivity|].
  cbn [flat_map filter]. rewrite length_app, (H x) by now left.
  rewrite IH by (intros; apply H; now right).
  destruct (g x); reflexivity.
Qed.

(** X21: in a conversation in chronological order, which is the order of the
    query of [load_messages], and with a positive divisor, the check
    [dt_seconds >= 0] never drops a latency: every message that has a
    send timestamp and a next-opposite timestamp gives one. *)
Theorem chronological_latency_count divisor thr msgs a :
  chronological msgs ->
  0 < divisor ->
  analyze_chat divisor thr msgs = Ok a ->
  List.length (you_reply a) =
  List.length (filter (fun p => negb (from_me (fst p)) && computes_delta p)
                      (with_next divisor msgs)) /\
  List.length (them_reply a) =
  List.length (filter (fun p => from_me (fst p) && computes_delta p)
                      (with_next divisor msgs)).
Proof.
  intros Hc Hdiv H. apply analyze_chat_inv in H.
  pose proof (chat_effect_fields divisor thr (with_next divisor msgs)
                (mkChatAcc 0 0 0 0 [] [])) as F.
  cbv zeta in F. rewrite <- H in F.
  destruct F as (_ & _ & _ & _ & Hy & Ht). cbn [you_reply them_reply app] in *.
  rewrite Hy, Ht.
  assert (Hs : forall me p, In p (with_next divisor msgs) ->
             List.length (samples_of me divisor p) =
             if Bool.eqb (from_me (fst p)) me && computes_delta p
             then 1%nat else 0%nat).
  { intros me p Hp. unfold samples_of, computes_delta, latency_sample.
    destruct (Bool.eqb (from_me (fst p)) me); [|reflexivity]. cbn [andb].
    destruct (snd p) as [n|] eqn:En; [|reflexivity].
    destruct (date_raw (fst p)) as [d|] eqn:Ed; [|reflexivity].
    pose proof (with_next_chronological _ _ _ _ _ Hc Hp En Ed) as Hle.
    pose proof (delta_seconds_nonneg _ _ _ Hdiv Hle) as Hnn.
    apply Qle_bool_iff in Hnn. rewrite Hnn. reflexivity. }
  split.
  - rewrite (length_flat_map_filter _
               (fun p => negb (from_me (fst p)) && computes_delta p)).
    + reflexivity.
    + intros p Hp. rewrite (Hs false p Hp). now destruct (from_me (fst p)).
  - rewrite (length_flat_map_filter _
               (fun p => from_me (fst p) && computes_delta p)).
    + reflexivity.
    + intros p Hp. rewrite (Hs true p Hp). now destruct (from_me (fst p)).
Qed.

Lemma chronological_latency_count_witness :
  exists a,
    analyze_chat 1 86400 two_runs = Ok a /\
    List.length (you_reply a) = 2%nat /\ List.length (them_reply a) = 2%nat.
Proof.
  assert (Hwf : well_formed two_runs 1)
    by (split; [discriminate|reflexivity]).
  pose proof (analyze_chat_ok 1 86400 two_runs Hwf) as H.
  eexists. split; [exact H|].
  refine (chronological_latency_count 1 86400 two_runs _ _ _ H);
    reflexivity.
Defined.

(** ** [build_report]: a zero divisor *)

Lemma step_message_zero thr a m next :
  match step_message 0 thr a m next with
  | Ok _ => computes_delta (m, next) = false
  | Raise e => e = ZeroDivisionError /\ computes_delta (m, next) = true
  end.
Proof.
  unfold step_message, computes_delta. cbn [fst snd].
  destruct next as [n|], (date_raw m) as [d|].
  - change (true_div (n - d) 0) with (@Raise Q ZeroDivisionError).
    cbn [bind]. split; reflexivity.
  - cbn [bind].
    destruct (if truthy_int (date_read_raw m) then date_read_raw m else None);
      reflexivity.
  - cbn [bind].
    destruct (if truthy_int (date_read_raw m) then date_read_raw m else None);
      reflexivity.
  - cbn [bind].
    destruct (if truthy_int (date_read_raw m) then date_read_raw m else None);
      reflexivity.
Qed.

Lemma chat_loop_zero thr msgs : forall a times,
  List.length times = List.length msgs ->
  match chat_loop 0 thr a msgs times with
  | Ok _ => existsb computes_delta (combine msgs times) = false
  | Raise e =>
      e = ZeroDivisionError /\
      existsb computes_delta (combine msgs times) = true
  end.
Proof.
  induction msgs as [|m msgs IH]; intros a [|t times] Hlen;
    try discriminate Hlen.
  - reflexivity.
  - cbn [chat_loop combine existsb].
    pose proof (step_message_zero thr a m t) as Hs.
    destruct (step_message 0 thr a m t) as [a'|e]; cbn [bind].
    + rewrite Hs. cbn [orb]. apply IH. now injection Hlen.
    + destruct Hs as [-> ->]. split; reflexivity.
Qed.

Lemma chats_loop_zero thr items : forall r,
  match chats_loop 0 thr r items with
  | Ok _ =>
      existsb (fun item => existsb computes_delta (with_next 0 (snd item)))
              items = false
  | Raise e =>
      e = ZeroDivisionError /\
      existsb (fun item => existsb computes_delta (with_next 0 (snd item)))
              items = true
  end.
Proof.
  induction items as [|[k msgs] items IH]; intros r; [reflexivity|].
  cbn [chats_loop step_chat existsb snd]. unfold analyze_chat.
  pose proof (chat_loop_zero thr msgs (mkChatAcc 0 0 0 0 [] [])
                (fst (next_opposite_times msgs 0))) as Hc.
  fold (with_next 0 msgs) in Hc.
  destruct (chat_loop 0 thr (mkChatAcc 0 0 0 0 [] []) msgs
              (fst (next_opposite_times msgs 0))) as [a|e]; cbn [bind].
  - rewrite Hc by (apply (proj1 (scan_lengths msgs))). cbn [orb].
    destruct (summarize_total (you_reply a)) as [you ->].
    destruct (summarize_total (them_reply a)) as [they ->].
    cbn [bind]. apply IH.
  - destruct Hc as [-> ->]; [apply (proj1 (scan_lengths msgs))|].
    split; reflexivity.
Qed.

(** X22: with a zero divisor [build_report] raises [ZeroDivisionError], and
    nothing else, exactly when some message of some conversation has both
    a send timestamp and a next-opposite timestamp; otherwise no
    division takes place and it returns a report. *)
Theorem build_report_zero_divisor messages threshold_hours top :
  match build_report messages 0 threshold_hours top with
  | Ok _ => some_delta messages = false
  | Raise e => e = ZeroDivisionError /\ some_delta messages = true
  end.
Proof.
  unfold build_report, some_delta.
  pose proof (chats_loop_zero (float_mul threshold_hours 3600)
                (group_by_chat messages) (mkReportAcc 0 0 0 0 [] [] [])) as H.
  destruct (chats_loop 0 (float_mul threshold_hours 3600)
              (mkReportAcc 0 0 0 0 [] [] []) (group_by_chat messages))
    as [r|e]; cbn [bind]; [|exact H].
  destruct (summarize_total (you_reply_minutes r)) as [you ->].
  destruct (summarize_total (them_reply_minutes r)) as [they ->].
  exact H.
Qed.

(** ** [build_report]: the summary and the entries *)

Lemma list_sum_perm l l' : Permutation l l' -> list_sum l = list_sum l'.
Proof.
  induction 1 as [|x l l' _ IH|x y l|l1 l2 l3 _ IH1 _ IH2]; simpl; lia.
Qed.

Lemma list_sum_map_perm {A} (f : A -> nat) l l' :
  Permutation l l' -> list_sum (map f l) = list_sum (map f l').
Proof. intros H. apply list_sum_perm. now apply Permutation_map. Qed.

Lemma list_sum_map_ext_in {A} (f g : A -> nat) l :
  (forall x, In x l -> f x = g x) ->
  list_sum (map f l) = list_sum (map g l).
Proof. intros H. f_equal. now apply map_ext_in. Qed.

(** X23: when [top] is at least the number of conversations, every number of
    the summary except the statistics is the sum of the corresponding
    numbers of the entries: messages sent and received, left-on-read
    counts and numbers of reply latencies. *)
Theorem build_report_summary_sums messages divisor threshold_hours top report :
  build_report messages divisor threshold_hours top = Ok report ->
  Z.of_nat (List.length (first_seen (map chat_id messages))) <= top ->
  let s := Report.summary report in
  let total (f : Chat.t -> nat) := list_sum (map f (Report.chats report)) in
  Totals.sent (ReportSummary.totals s)
  = total (fun c => Totals.sent (Chat.totals c)) /\
  Totals.received (ReportSummary.totals s)
  = total (fun c => Totals.received (Chat.totals c)) /\
  Totals.total (ReportSummary.totals s)
  = total (fun c => Totals.total (Chat.totals c)) /\
  LeftOnRead.you_left_them (ReportSummary.left_on_read s)
  = total (fun c => LeftOnRead.you_left_them (Chat.left_on_read c)) /\
  LeftOnRead.they_left_you (ReportSummary.left_on_read s)
  = total (fun c => LeftOnRead.they_left_you (Chat.left_on_read c)) /\
  Summary.count (ResponseTimes.you_reply (ReportSummary.response_times s))
  = total (fun c => Summary.count
                      (ResponseTimes.you_reply (Chat.response_times c))) /\
  Summary.count (ResponseTimes.they_reply (ReportSummary.response_times s))
  = total (fun c => Summary.count
                      (ResponseTimes.they_reply (Chat.response_times c))).
Proof.
  intros H Htop. cbv zeta.
  destruct (build_report_inv _ _ _ _ _ H)
    as (results & HF & Hch & Ht & Hl & Hy & Hth).
  assert (Hlen : List.length results
                 = List.length (first_seen (map chat_id messages))).
  { rewrite <- (Forall2_length HF), <- group_by_chat_keys.
    now rewrite length_map. }
  rewrite slice_to_all in Hch
    by (rewrite sort_length, length_map, Hlen; exact Htop).
  assert (HP : forall f : Chat.t -> nat,
             list_sum (map f (Report.chats report))
             = list_sum (map (fun res => f (snd res)) results)).
  { intros f. rewrite Hch, (list_sum_map_perm f _ _ (sort_perm _ _)).
    now rewrite map_map. }
  assert (HR : forall res, In res results ->
             Chat.totals (snd res)
             = Totals.mk (sent (fst res)) (received (fst res))
                         (sent (fst res) + received (fst res)) /\
             Chat.left_on_read (snd res)
             = LeftOnRead.mk (you_left (fst res)) (them_left (fst res)) /\
             Summary.count (ResponseTimes.you_reply (Chat.response_times (snd res)))
             = List.length (you_reply (fst res)) /\
             Summary.count (ResponseTimes.they_reply (Chat.response_times (snd res)))
             = List.length (them_reply (fst res))).
  { intros res Hres.
    destruct (results_summaries _ _ _ _ _ HF Hres)
      as ([k msgs] & _ & (_ & you & they & _ & _ & Hd) & Hsy & Hst).
    cbn [fst snd] in Hd.
    destruct (chat_dict_fields k msgs (fst res) you they) as (_ & Et & El & _).
    rewrite <- Hd in Et, El.
    rewrite (summarize_count _ _ Hsy), (summarize_count _ _ Hst). auto. }
  rewrite !HP, Ht, Hl.
  cbn [Totals.sent Totals.received Totals.total
       LeftOnRead.you_left_them LeftOnRead.they_left_you].
  rewrite (summarize_count _ _ Hy), (summarize_count _ _ Hth).
  rewrite !length_flat_map_sum.
  repeat split.
  - apply list_sum_map_ext_in. intros res Hres.
    destruct (HR res Hres) as (-> & _). reflexivity.
  - apply list_sum_map_ext_in. intros res Hres.
    destruct (HR res Hres) as (-> & _). reflexivity.
  - rewrite (list_sum_map_ext_in
               (fun res => Totals.total (Chat.totals (snd res)))
               (fun res => (sent (fst res) + received (fst res))%nat)).
    + clear. induction results as [|res results IH]; [reflexivity|].
      simpl in *. lia.
    + intros res Hres. destruct (HR res Hres) as (-> & _). reflexivity.
  - apply list_sum_map_ext_in. intros res Hres.
    destruct (HR res Hres) as (_ & -> & _). reflexivity.
  - apply list_sum_map_ext_in. intros res Hres.
    destruct (HR res Hres) as (_ & -> & _). reflexivity.
  - apply list_sum_map_ext_in. intros res Hres.
    destruct (HR res Hres) as (_ & _ & -> & _). reflexivity.
  - apply list_sum_map_ext_in. intros res Hres.
    destruct (HR res Hres) as (_ & _ & _ & ->). reflexivity.
Qed.

Lemma build_report_summary_sums_witness :
  exists report,
    build_report ten_and_three 1 24 20 = Ok report /\
    Totals.total (ReportSummary.totals (Report.summary report)) =
    list_sum (map (fun c => Totals.total (Chat.totals c))
                  (Report.chats report)).
Proof.
  destruct (build_report_ok ten_and_three 1 24 20) as [report H].
  { split; [discriminate|reflexivity]. }
  exists report. split; [exact H|].
  destruct (build_report_summary_sums _ _ _ _ _ H) as (_ & _ & Ht & _).
  - discriminate.
  - exact Ht.
Defined.

(** ** [build_report]: the exceptions *)

Lemma bind_Raise {A B} (c : result A) (k : A -> result B) e :
  bind c k = Raise e ->
  c = Raise e \/ exists a, c = Ok a /\ k a = Raise e.
Proof.
  destruct c as [a|e0]; cbn [bind]; intros H; [right; eauto|left].
  injection H as ->. reflexivity.
Qed.

Lemma true_div_Raise a b e :
  true_div a b = Raise e ->
  (e = ZeroDivisionError /\ b = 0) \/ (e = OverflowError /\ b <> 0).
Proof.
  unfold true_div. destruct (Z.eqb_spec b 0) as [E|E].
  - intros H. injection H as <-. now left.
  - destruct (DBL_OVERFLOW * Z.abs b <=? Z.abs a); [|discriminate].
    intros H. injection H as <-. now right.
Qed.

Lemma step_message_Raise divisor thr a m next e :
  step_message divisor thr a m next = Raise e ->
  (e = ZeroDivisionError /\ divisor = 0) \/
  (e = OverflowError /\ divisor <> 0).
Proof.
  unfold step_message. intros H. apply bind_Raise in H.
  destruct H as [H|(a' & _ & H)].
  - destruct next as [n|], (date_raw m) as [d|]; try discriminate.
    apply bind_Raise in H. destruct H as [H|(dt & _ & H)].
    + exact (true_div_Raise _ _ _ H).
    + destruct (Qle_bool 0 dt); discriminate.
  - destruct (if truthy_int (date_read_raw m) then date_read_raw m else None)
      as [base|]; [|discriminate].
    destruct (date_raw m); [|discriminate].
    apply bind_Raise in H. destruct H as [H|(b & _ & H)]; [|discriminate].
    destruct next as [n|]; [|discriminate].
    apply bind_Raise in H. destruct H as [H|(dt & _ & H)]; [|discriminate].
    exact (true_div_Raise _ _ _ H).
Qed.

Lemma chat_loop_Raise divisor thr msgs : forall a times e,
  List.length times = List.length msgs ->
  chat_loop divisor thr a msgs times = Raise e ->
  (e = ZeroDivisionError /\ divisor = 0) \/
  (e = OverflowError /\ divisor <> 0).
Proof.
  induction msgs as [|m msgs IH]; intros a [|t times] e Hlen H;
    try discriminate.
  cbn [chat_loop] in H. apply bind_Raise in H.
  destruct H as [H|(a' & _ & H)].
  - exact (step_message_Raise _ _ _ _ _ _ H).
  - apply (IH a' times e); [now injection Hlen|exact H].
Qed.

Lemma chats_loop_Raise divisor thr items : forall r e,
  chats_loop divisor thr r items = Raise e ->
  (e = ZeroDivisionError /\ divisor = 0) \/
  (e = OverflowError /\ divisor <> 0).
Proof.
  induction items as [|[k msgs] items IH]; intros r e H; [discriminate|].
  cbn [chats_loop step_chat] in H. apply bind_Raise in H.
  destruct H as [H|(r' & _ & H)]; [|exact (IH _ _ H)].
  apply bind_Raise in H. destruct H as [H|(a & _ & H)].
  - unfold analyze_chat in H.
    apply (chat_loop_Raise _ _ _ _ _ _ (proj1 (scan_lengths msgs)) H).
  - destruct (summarize_total (you_reply a)) as [you Ey].
    destruct (summarize_total (them_reply a)) as [they Et].
    rewrite Ey, Et in H. discriminate.
Qed.

(** X24: [build_report] raises nothing but the exceptions of its divisions:
    [ZeroDivisionError], only for a zero divisor, and [OverflowError],
    only for a quotient beyond the floats.  The indexing of
    [next_times_raw] and of the sorted durations and the calls of [mean]
    and [median] never fail. *)
Theorem build_report_exceptions messages divisor threshold_hours top e :
  build_report messages divisor threshold_hours top = Raise e ->
  (e = ZeroDivisionError /\ divisor = 0) \/
  (e = OverflowError /\ divisor <> 0).
Proof.
  unfold build_report. intros H. apply bind_Raise in H.
  destruct H as [H|(r & _ & H)]; [exact (chats_loop_Raise _ _ _ _ _ H)|].
  destruct (summarize_total (you_reply_minutes r)) as [you Ey].
  destruct (summarize_total (them_reply_minutes r)) as [they Et].
  rewrite Ey, Et in H. discriminate.
Qed.

Lemma build_report_exceptions_witness :
  build_report read_and_answered 0 24 20 = Raise ZeroDivisionError /\
  ((ZeroDivisionError = ZeroDivisionError /\ 0 = 0) \/
   (ZeroDivisionError = OverflowError /\ 0 <> 0)).
Proof.
  assert (H : build_report read_and_answered 0 24 20
              = Raise ZeroDivisionError) by reflexivity.
  split; [exact H|].
  exact (build_report_exceptions _ _ _ _ _ H).
Defined.

(** ** [build_report]: the identifiers of the entries *)

Lemma NoDup_firstn {A} (l : list A) n : NoDup l -> NoDup (firstn n l).
Proof.
  revert n. induction l as [|x l IH]; intros [|n] H; cbn [firstn];
    try constructor.
  - inversion H as [|? ? Hx Hl]; subst. intros Hin. apply Hx.
    rewrite <- (firstn_skipn n l). apply in_or_app. now left.
  - inversion H; subst. now apply IH.
Qed.

Lemma slice_to_map {A B} (f : A -> B) top l :
  slice_to top (map f l) = map f (slice_to top l).
Proof. unfold slice_to. now rewrite length_map, firstn_map. Qed.

(** X25: no conversation is listed twice, and every conversation listed is the
    conversation of some message. *)
Theorem build_report_chat_ids messages divisor threshold_hours top report :
  build_report messages divisor threshold_hours top = Ok report ->
  NoDup (map Chat.chat_id (Report.chats report)) /\
  incl (map Chat.chat_id (Report.chats report)) (map chat_id messages).
Proof.
  intros H.
  destruct (build_report_inv _ _ _ _ _ H) as (results & HF & Hch & _).
  pose proof (results_ids _ _ _ _ HF) as Hids.
  rewrite group_by_chat_keys in Hids.
  assert (HP : Permutation
                 (map Chat.chat_id (sort total_geb (map snd results)))
                 (first_seen (map chat_id messages))).
  { rewrite <- Hids. apply Permutation_map, sort_perm. }
  rewrite Hch, <- slice_to_map. split.
  - destruct (slice_to_prefix
                (map Chat.chat_id (sort total_geb (map snd results))) top)
      as [n ->].
    apply NoDup_firstn.
    apply (Permutation_NoDup (Permutation_sym HP)), first_seen_NoDup.
  - intros k Hk. apply slice_to_In in Hk.
    apply (Permutation_in _ HP) in Hk.
    exact (proj1 (first_seen_In _ _) Hk).
Qed.

Lemma build_report_chat_ids_witness :
  exists report,
    build_report ten_and_three 1 24 20 = Ok report /\
    NoDup (map Chat.chat_id (Report.chats report)).
Proof.
  destruct (build_report_ok ten_and_three 1 24 20) as [report H].
  { split; [discriminate|reflexivity]. }
  exists report. split; [exact H|].
  exact (proj1 (build_report_chat_ids _ _ _ _ _ H)).
Defined.
